(** * wifiScanner: the scan-output parser and the session tracker

    A shallow embedding of [scanner/scanner.go] and of the session tracker
    (package [scanner], [Session], [NetworkState]) together with the
    properties of the specification that concern them; then of the vendor
    lookup of [scanner/oui.go] and of the part of the terminal interface
    (package [ui]) that a scan changes, with further properties of the
    code.

    Conventions.
    - Go's [int] is the 64-bit signed integer; values are carried as [Z] and
      the wrap-around of an arithmetic operation is written out with [wrap64]
      where the code can overflow.
    - Go's [string] is a byte sequence; it is carried as [string] (a list of
      8-bit characters).
    - [time.Time] is a reading of the monotonic clock, carried as [Z].
    - [map[string]*NetworkState] is a [gmap string NetworkState]; every
      operation of [Session] holds the mutex for the whole call, so a call is
      one atomic state transition.
    - What the environment gives is an argument of the function that asks
      for it: the readings of the clock, the results of [rand.Intn], and the
      output of a command, [None] when the command failed. *)

From Stdlib Require Import ZArith Lia Ascii String.
From stdpp Require Import gmap strings list fin_maps sorting.

Local Open Scope Z_scope.

(** ** Data model *)

(** [Network] of scanner.go. *)
Record Network := mkNetwork {
  BSSID : string;
  SSID : string;
  Signal : Z;
  Frequency : Z;
  Channel : Z;
  Security : string;
  LastSeen : Z
}.

(** [NetworkState] of the session tracker.  The fields [BSSID] and
    [LastSeen] carry the prefix [ns_] because [Network] has fields of the
    same names. *)
Record NetworkState := mkNetworkState {
  ns_BSSID : string;
  FirstSeen : Z;
  ns_LastSeen : Z;
  SignalHistory : list Z;
  MinSignal : Z;
  MaxSignal : Z
}.

(** [Session]: the mutex is not represented, see the conventions. *)
Record Session := mkSession {
  states : gmap string NetworkState
}.

Definition maxHistory : nat := 10.

(** ** Machine integers *)

Definition wrap64 (z : Z) : Z := (z + 2 ^ 63) mod 2 ^ 64 - 2 ^ 63.

Definition minInt64 : Z := - 2 ^ 63.
Definition maxInt64 : Z := 2 ^ 63 - 1.

(** ** Strings and the regular expressions of the parser

    The regular expressions of [parseScanOutput] are matched as Go's
    [regexp] package does (leftmost match, greedy repetitions); each one is
    written out as the matcher it denotes.  All their literals and classes
    are ASCII, so matching bytes and matching runes agree. *)

Local Open Scope string_scope.

Definition code (c : ascii) : N := N_of_ascii c.

Definition in_range (lo hi : N) (c : ascii) : bool :=
  ((lo <=? code c) && (code c <=? hi))%N.

(** [\d] *)
Definition isDigit (c : ascii) : bool := in_range 48 57 c.

(** [[0-9a-fA-F:]] *)
Definition isHexColon (c : ascii) : bool :=
  isDigit c || in_range 97 102 c || in_range 65 70 c || (code c =? 58)%N.

(** [\s], which is [[\t\n\f\r ]] in Go's syntax *)
Definition isReSpace (c : ascii) : bool :=
  ((code c =? 9) || (code c =? 10) || (code c =? 12) || (code c =? 13)
   || (code c =? 32))%N.

(** [[ \t]] *)
Definition isBlank (c : ascii) : bool := ((code c =? 32) || (code c =? 9))%N.

Definition isNewline (c : ascii) : bool := (code c =? 10)%N.

(** The longest prefix of [s] whose characters satisfy [p]. *)
Fixpoint takeWhile (p : ascii → bool) (s : string) : string :=
  match s with
  | String c s' => if p c then String c (takeWhile p s') else ""
  | "" => ""
  end.

Fixpoint dropWhile (p : ascii → bool) (s : string) : string :=
  match s with
  | String c s' => if p c then dropWhile p s' else s
  | "" => ""
  end.

(** [s] without its prefix [p], when it has it. *)
Fixpoint stripPrefix (p s : string) : option string :=
  match p with
  | "" => Some s
  | String a p' =>
      match s with
      | String b s' => if Ascii.eqb a b then stripPrefix p' s' else None
      | "" => None
      end
  end.

(** [strings.Contains] *)
Fixpoint strings_Contains (s substr : string) : bool :=
  match stripPrefix substr s with
  | Some _ => true
  | None =>
      match s with
      | String _ s' => strings_Contains s' substr
      | "" => false
      end
  end.

(** The leftmost position of [s] at which the anchored matcher [m]
    succeeds, as an unanchored search does. *)
Fixpoint findFirst {X} (m : string → option X) (s : string) : option X :=
  match m s with
  | Some x => Some x
  | None =>
      match s with
      | String _ s' => findFirst m s'
      | "" => None
      end
  end.

(** The same search restricted to the beginnings of lines, for an expression
    that starts with [(?m)^]; [bol] tells whether [s] starts a line. *)
Fixpoint findFirstLine {X} (m : string → option X) (bol : bool) (s : string)
    : option X :=
  match (if bol then m s else None) with
  | Some x => Some x
  | None =>
      match s with
      | String c s' => findFirstLine m (isNewline c) s'
      | "" => None
      end
  end.

(** [strings.ToUpper] on a string of ASCII characters (it is applied to a
    match of [[0-9a-fA-F:]{17}] only). *)
Definition upperChar (c : ascii) : ascii :=
  if in_range 97 122 c then ascii_of_N (code c - 32) else c.

Fixpoint strings_ToUpper (s : string) : string :=
  match s with
  | String c s' => String (upperChar c) (strings_ToUpper s')
  | "" => ""
  end.

(** [unicode.IsSpace] on the UTF-8 encoding of a rune: the ASCII spaces
    [\t \n \v \f \r ' '], U+0085 and U+00A0 (two bytes), and U+1680,
    U+2000 .. U+200A, U+2028, U+2029, U+202F, U+205F, U+3000 (three
    bytes). *)
Definition isSpace1 (c : ascii) : bool :=
  in_range 9 13 c || (code c =? 32)%N.

Definition isSpace2 (c1 c2 : ascii) : bool :=
  ((code c1 =? 194) && ((code c2 =? 133) || (code c2 =? 160)))%N.

Definition isSpace3 (c1 c2 c3 : ascii) : bool :=
  ((code c1 =? 225) && (code c2 =? 154) && (code c3 =? 128)
   || (code c1 =? 226) && (code c2 =? 128)
      && (in_range 128 138 c3 || (code c3 =? 168) || (code c3 =? 169)
          || (code c3 =? 175))
   || (code c1 =? 226) && (code c2 =? 129) && (code c3 =? 159)
   || (code c1 =? 227) && (code c2 =? 128) && (code c3 =? 128))%N.

(** [strings.TrimLeftFunc(s, unicode.IsSpace)] *)
Fixpoint trimLeft (s : string) : string :=
  match s with
  | String c1 r1 =>
      if isSpace1 c1 then trimLeft r1 else
      match r1 with
      | String c2 r2 =>
          if isSpace2 c1 c2 then trimLeft r2 else
          match r2 with
          | String c3 r3 => if isSpace3 c1 c2 c3 then trimLeft r3 else s
          | "" => s
          end
      | "" => s
      end
  | "" => ""
  end.

(** The same from the end, on the reversed string: the rune that ends a
    string is found by [utf8.DecodeLastRuneInString], which steps back to the
    nearest byte that starts a rune. *)
Fixpoint trimLeftRev (s : string) : string :=
  match s with
  | String c1 r1 =>
      if isSpace1 c1 then trimLeftRev r1 else
      match r1 with
      | String c2 r2 =>
          if isSpace2 c2 c1 then trimLeftRev r2 else
          match r2 with
          | String c3 r3 => if isSpace3 c3 c2 c1 then trimLeftRev r3 else s
          | "" => s
          end
      | "" => s
      end
  | "" => ""
  end.

Definition reverse_string (s : string) : string :=
  string_of_list_ascii (rev (list_ascii_of_string s)).

(** [strings.TrimSpace] *)
Definition strings_TrimSpace (s : string) : string :=
  reverse_string (trimLeftRev (reverse_string (trimLeft s))).

(** The value of a string of decimal digits, [None] when a character is not
    a digit. *)
Fixpoint digitsValue (acc : Z) (s : string) : option Z :=
  match s with
  | "" => Some acc
  | String c s' =>
      if isDigit c
      then digitsValue (acc * 10 + (Z.of_N (code c) - 48)) s'
      else None
  end.

(** [strconv.Atoi] with its error dropped, as in [n.Signal, _ = ...]: the
    value on success, 0 on a syntax error, and the nearest of the two ends
    of the 64-bit range when the number is out of range. *)
Definition strconv_Atoi (s : string) : Z :=
  let '(neg, body) :=
    match s with
    | String "-" r => (true, r)
    | String "+" r => (false, r)
    | _ => (false, s)
    end in
  match body with
  | "" => 0
  | _ =>
      match digitsValue 0 body with
      | None => 0
      | Some v =>
          let v := if neg then - v else v in
          if decide (v < minInt64) then minInt64
          else if decide (maxInt64 < v) then maxInt64
          else v
      end
  end.

(** [regexp.MustCompile(`(?m)^BSS `).Split(output, -1)]: the text before the
    first match, between two matches, and after the last one.  The result is
    given as its first element and the list of the others.  A match is never
    empty and never ends the text at its start, so both tests of [Split] on
    a match are passed, and for the empty text [Split] returns the one empty
    string. *)
Fixpoint splitBSS (bol : bool) (s : string) : string * list string :=
  match s with
  | "" => ("", [])
  | String c s' =>
      let keep :=
        let '(f, fs) := splitBSS (isNewline c) s' in (String c f, fs) in
      if bol then
        match s with
        | String "B" (String "S" (String "S" (String " " rest))) =>
            let '(f, fs) := splitBSS false rest in ("", f :: fs)
        | _ => keep
        end
      else keep
  end.

Definition regexp_Split_BSS (output : string) : list string :=
  let '(f, fs) := splitBSS true output in f :: fs.

(** [^([0-9a-fA-F:]{17})]: the first group. *)
Definition reBSSID (block : string) : option string :=
  let m := takeWhile isHexColon (substring 0 17 block) in
  if decide (String.length m = 17%nat) then Some m else None.

(** The expression of the SSID line, [(?m)^[ \t]+SSID:[ \t]*] followed by
    the group [.*] and by [$], anchored at the start of a line: the group. *)
Definition reSSID_at (s : string) : option string :=
  match takeWhile isBlank s with
  | "" => None
  | _ =>
      match stripPrefix "SSID:" (dropWhile isBlank s) with
      | Some r =>
          Some (takeWhile (fun c => negb (isNewline c)) (dropWhile isBlank r))
      | None => None
      end
  end.

Definition reSSID (block : string) : option string :=
  findFirstLine reSSID_at true block.

(** [\d+] at the start of [s]: the digits matched. *)
Definition reDigits (s : string) : option string :=
  match takeWhile isDigit s with
  | "" => None
  | d => Some d
  end.

(** [signal:\s*(-?\d+)] anchored: the first group. *)
Definition reSignal_at (s : string) : option string :=
  match stripPrefix "signal:" s with
  | Some r =>
      match dropWhile isReSpace r with
      | String "-" r' =>
          match reDigits r' with
          | Some d => Some (String "-" d)
          | None => None
          end
      | r' => reDigits r'
      end
  | None => None
  end.

Definition reSignal (block : string) : option string :=
  findFirst reSignal_at block.

(** [freq:\s*(\d+)] anchored: the first group. *)
Definition reFreq_at (s : string) : option string :=
  match stripPrefix "freq:" s with
  | Some r => reDigits (dropWhile isReSpace r)
  | None => None
  end.

Definition reFreq (block : string) : option string :=
  findFirst reFreq_at block.

(** [DS Parameter set: channel (\d+)] anchored: the first group. *)
Definition reChannel_at (s : string) : option string :=
  match stripPrefix "DS Parameter set: channel " s with
  | Some r => reDigits r
  | None => None
  end.

Definition reChannel (block : string) : option string :=
  findFirst reChannel_at block.

(** ** The parser *)

Definition parseSecurity (block : string) : string :=
  let hasRSN := strings_Contains block "RSN:" in
  let hasWPA := strings_Contains block "WPA:" in
  let hasSAE := strings_Contains block "SAE" in
  if hasSAE then "WPA3"
  else if hasRSN && hasWPA then "WPA2/WPA"
  else if hasRSN then "WPA2"
  else if hasWPA then "WPA"
  else if strings_Contains block "Privacy" then "WEP"
  else "OPEN".

(** [freqToChannel]: [/] is Go's division, which truncates toward zero. *)
Definition freqToChannel (freq : Z) : Z :=
  if decide (freq >= 2412 ∧ freq <= 2472) then Z.quot (freq - 2407) 5
  else if decide (freq = 2484) then 14
  else if decide (freq >= 5180 ∧ freq <= 5825) then Z.quot (freq - 5000) 5
  else if decide (freq >= 5955 ∧ freq <= 7115) then Z.quot (freq - 5950) 5
  else 0.

(** The body of the loop of [parseScanOutput] for a block that is not
    blank: the record of the block, or [None] at the [continue] of a block
    that does not start with an address.  [now] is the value of the
    [time.Now()] of this iteration. *)
Definition parseBlock (now : Z) (block : string) : option Network :=
  match reBSSID block with
  | None => None
  | Some m =>
      let bssid := strings_ToUpper m in
      let ssid :=
        match reSSID block with
        | Some g => strings_TrimSpace g
        | None => ""
        end in
      let ssid := if decide (ssid = "") then "<hidden>" else ssid in
      let signal :=
        match reSignal block with
        | Some g => strconv_Atoi g
        | None => 0
        end in
      let frequency :=
        match reFreq block with
        | Some g => strconv_Atoi g
        | None => 0
        end in
      let channel :=
        match reChannel block with
        | Some g => strconv_Atoi g
        | None => freqToChannel frequency
        end in
      Some (mkNetwork bssid ssid signal frequency channel
                      (parseSecurity block) now)
  end.

(** The loop of [parseScanOutput] over the blocks: [clock k] is the value
    of the [k]-th [time.Now()] of the call, and a blank block is skipped
    before the clock is read. *)
Fixpoint parseBlocks (clock : nat → Z) (k : nat) (blocks : list string)
    : list Network :=
  match blocks with
  | [] => []
  | block :: rest =>
      if decide (strings_TrimSpace block = "") then parseBlocks clock k rest
      else
        match parseBlock (clock k) block with
        | Some n => n :: parseBlocks clock (S k) rest
        | None => parseBlocks clock (S k) rest
        end
  end.

(** ** [sort.Slice]

    [parseScanOutput] orders its result with [sort.Slice] of Go's standard
    library, which is no part of this repository; it is embedded here as the
    library has it since Go 1.19 ([pdqsort_func] and its helpers in
    [sort/zsortfunc.go]): insertion sort for at most 12 elements,
    otherwise quicksort with a chosen pivot and a fall back to heapsort.
    The slice is a [list], [data.Less(i, j)] compares the elements at two
    indices with [less] and [data.Swap(i, j)] exchanges them.  A loop whose
    counter is not the recursion argument runs on fuel. *)

Section SortSlice.

Context {A : Type} (less : A → A → bool).

Local Open Scope nat_scope.

Definition Less (data : list A) (i j : nat) : bool :=
  match data !! i, data !! j with
  | Some x, Some y => less x y
  | _, _ => false
  end.

Definition Swap (data : list A) (i j : nat) : list A :=
  match data !! i, data !! j with
  | Some x, Some y => <[i := y]> (<[j := x]> data)
  | _, _ => data
  end.

(** The inner loop of [insertionSort_func]:
    [for j := i; j > a && data.Less(j, j-1); j--]. *)
Fixpoint insertDown (data : list A) (a j : nat) : list A :=
  match j with
  | 0 => data
  | S j' =>
      if (a <? j) && Less data j j'
      then insertDown (Swap data j j') a j'
      else data
  end.

Definition insertionSort (data : list A) (a b : nat) : list A :=
  foldl (fun d i => insertDown d a i) data (seq (a + 1) (b - (a + 1))).

Fixpoint siftDown (fuel : nat) (data : list A) (root hi first : nat)
    : list A :=
  match fuel with
  | 0 => data
  | S fuel =>
      let child := 2 * root + 1 in
      if hi <=? child then data
      else
        let child :=
          if (child + 1 <? hi) && Less data (first + child) (first + child + 1)
          then child + 1 else child in
        if negb (Less data (first + root) (first + child)) then data
        else siftDown fuel (Swap data (first + root) (first + child))
                      child hi first
  end.

Definition heapSort (data : list A) (a b : nat) : list A :=
  let first := a in
  let lo := 0 in
  let hi := b - a in
  let data :=
    foldl (fun d i => siftDown hi d i hi first) data
          (rev (seq 0 ((hi - 1) / 2 + 1))) in
  foldl (fun d i => siftDown hi (Swap d first (first + i)) lo i first) data
        (rev (seq 0 hi)).

(** [for i <= j && p(i) { i++ }] and [for i <= j && p(j) { j-- }] *)
Fixpoint scanUp (fuel : nat) (p : nat → bool) (i j : nat) : nat :=
  match fuel with
  | 0 => i
  | S fuel => if (i <=? j) && p i then scanUp fuel p (i + 1) j else i
  end.

Fixpoint scanDown (fuel : nat) (p : nat → bool) (i j : nat) : nat :=
  match fuel with
  | 0 => j
  | S fuel => if (i <=? j) && p j then scanDown fuel p i (j - 1) else j
  end.

(** The [for] loop of [partition_func] and of [partitionEqual_func]; [pi]
    and [pj] are the tests of its two inner loops on the current slice. *)
Fixpoint partitionLoop (fuel : nat) (pi pj : list A → nat → bool)
    (data : list A) (i j : nat) : list A * nat * nat :=
  match fuel with
  | 0 => (data, i, j)
  | S fuel =>
      let i := scanUp (length data) (pi data) i j in
      let j := scanDown (length data) (pj data) i j in
      if j <? i then (data, i, j)
      else partitionLoop fuel pi pj (Swap data i j) (i + 1) (j - 1)
  end.

Definition partition (data : list A) (a b pivot : nat)
    : list A * nat * bool :=
  let data := Swap data a pivot in
  let i := a + 1 in
  let j := b - 1 in
  let i := scanUp (length data) (fun i => Less data i a) i j in
  let j := scanDown (length data) (fun j => negb (Less data j a)) i j in
  if j <? i then (Swap data j a, j, true)
  else
    let data := Swap data i j in
    let '(data, i, j) :=
      partitionLoop (length data)
        (fun d i => Less d i a) (fun d j => negb (Less d j a))
        data (i + 1) (j - 1) in
    (Swap data j a, j, false).

Definition partitionEqual (data : list A) (a b pivot : nat)
    : list A * nat :=
  let data := Swap data a pivot in
  let '(data, i, j) :=
    partitionLoop (length data)
      (fun d i => negb (Less d a i)) (fun d j => Less d a j)
      data (a + 1) (b - 1) in
  (data, i).

(** The two shifts of [partialInsertionSort_func]:
    [for j := i - 1; j >= 1; j--] and [for j := i + 1; j < b; j++]. *)
Fixpoint shiftLeft (data : list A) (j : nat) : list A :=
  match j with
  | 0 => data
  | S j' =>
      if negb (Less data j j') then data
      else shiftLeft (Swap data j j') j'
  end.

Fixpoint shiftRight (fuel : nat) (data : list A) (j b : nat) : list A :=
  match fuel with
  | 0 => data
  | S fuel =>
      if j <? b then
        if negb (Less data j (j - 1)) then data
        else shiftRight fuel (Swap data j (j - 1)) (j + 1) b
      else data
  end.

(** The loop [for j := 0; j < maxSteps; j++] of
    [partialInsertionSort_func], [steps] iterations being left. *)
Fixpoint partialInsertionLoop (steps : nat) (data : list A) (a b i : nat)
    : list A * bool :=
  match steps with
  | 0 => (data, false)
  | S steps =>
      let i :=
        scanUp (length data) (fun i => negb (Less data i (i - 1))) i (b - 1) in
      if i =? b then (data, true)
      else if b - a <? 50 then (data, false)
      else
        let data := Swap data i (i - 1) in
        let data := if 2 <=? i - a then shiftLeft data (i - 1) else data in
        let data :=
          if 2 <=? b - i then shiftRight (length data) data (i + 1) b
          else data in
        partialInsertionLoop steps data a b i
  end.

Definition partialInsertionSort (data : list A) (a b : nat)
    : list A * bool :=
  partialInsertionLoop 5 data a b (a + 1).

(** [bits.Len] *)
Definition bits_Len (n : nat) : nat :=
  match n with
  | 0 => 0
  | _ => Nat.log2 n + 1
  end.

Definition nextPowerOfTwo (length : nat) : nat := 2 ^ bits_Len length.

(** [xorshift.Next]: the new state of the generator, a 64-bit word. *)
Definition xorshift_Next (r : Z) : Z :=
  let r := Z.lxor r (Z.shiftl r 13 mod 2 ^ 64) in
  let r := Z.lxor r (Z.shiftr r 7) in
  Z.lxor r (Z.shiftl r 17 mod 2 ^ 64).

(** [breakPatterns_func]: on a range of 8 elements or more, three elements
    around the middle, at [idx], [idx + 1] and [idx + 2], change places with
    elements that the generator, seeded with the length, picks in the
    range. *)
Definition breakPatterns (data : list A) (a b : nat) : list A :=
  let length := b - a in
  if 8 <=? length then
    let modulus := nextPowerOfTwo length in
    let idx := a + (length / 4) * 2 - 1 in
    let step (acc : list A * Z) (i : nat) : list A * Z :=
      let '(data, random) := acc in
      let random := xorshift_Next random in
      let other := Z.to_nat (Z.land random (Z.of_nat modulus - 1)) in
      let other := if length <=? other then other - length else other in
      (Swap data (idx + i) (a + other), random) in
    (foldl step (data, Z.of_nat length) [0; 1; 2]).1
  else data.

Inductive sortedHint := unknownHint | increasingHint | decreasingHint.

Definition order2 (data : list A) (a b swaps : nat) : nat * nat * nat :=
  if Less data b a then (b, a, swaps + 1) else (a, b, swaps).

Definition median (data : list A) (a b c swaps : nat) : nat * nat :=
  let '(a, b, swaps) := order2 data a b swaps in
  let '(b, c, swaps) := order2 data b c swaps in
  let '(a, b, swaps) := order2 data a b swaps in
  (b, swaps).

Definition medianAdjacent (data : list A) (a swaps : nat) : nat * nat :=
  median data (a - 1) a (a + 1) swaps.

Definition choosePivot (data : list A) (a b : nat) : nat * sortedHint :=
  let l := b - a in
  let i := a + l / 4 * 1 in
  let j := a + l / 4 * 2 in
  let k := a + l / 4 * 3 in
  let '(j, swaps) :=
    if 8 <=? l then
      let '(i, j, k, swaps) :=
        if 50 <=? l then
          let '(i, swaps) := medianAdjacent data i 0 in
          let '(j, swaps) := medianAdjacent data j swaps in
          let '(k, swaps) := medianAdjacent data k swaps in
          (i, j, k, swaps)
        else (i, j, k, 0) in
      median data i j k swaps
    else (j, 0) in
  match swaps with
  | 0 => (j, increasingHint)
  | 12 => (j, decreasingHint)
  | _ => (j, unknownHint)
  end.

Fixpoint reverseLoop (fuel : nat) (data : list A) (i j : nat) : list A :=
  match fuel with
  | 0 => data
  | S fuel =>
      if i <? j then reverseLoop fuel (Swap data i j) (i + 1) (j - 1)
      else data
  end.

Definition reverseRange (data : list A) (a b : nat) : list A :=
  reverseLoop (length data) data a (b - 1).

Definition isIncreasing (h : sortedHint) : bool :=
  match h with increasingHint => true | _ => false end.

Definition isDecreasing (h : sortedHint) : bool :=
  match h with decreasingHint => true | _ => false end.

(** [pdqsort_func]: one unit of fuel for each turn of its loop.  A call
    starts with [wasBalanced] and [wasPartitioned] both true; a turn of the
    loop passes on the values it has set. *)
Fixpoint pdqsort (fuel : nat) (data : list A) (a b limit : nat)
    (wasBalanced wasPartitioned : bool) : list A :=
  let length := b - a in
  if length <=? 12 then insertionSort data a b
  else
    match fuel with
    | 0 => data
    | S fuel =>
        if limit =? 0 then heapSort data a b
        else
          let '(data, limit) :=
            if negb wasBalanced then (breakPatterns data a b, limit - 1)
            else (data, limit) in
          let '(pivot, hint) := choosePivot data a b in
          let '(data, pivot, hint) :=
            if isDecreasing hint
            then (reverseRange data a b, (b - 1) - (pivot - a),
                  increasingHint)
            else (data, pivot, hint) in
          let '(data, sorted) :=
            if wasBalanced && wasPartitioned && isIncreasing hint
            then partialInsertionSort data a b
            else (data, false) in
          if sorted then data
          else if (0 <? a) && negb (Less data (a - 1) pivot) then
            let '(data, mid) := partitionEqual data a b pivot in
            pdqsort fuel data mid b limit wasBalanced wasPartitioned
          else
            let '(data, mid, alreadyPartitioned) :=
              partition data a b pivot in
            let leftLen := mid - a in
            let rightLen := b - mid in
            let balanceThreshold := length / 8 in
            if leftLen <? rightLen then
              let wasBalanced := balanceThreshold <=? leftLen in
              let data := pdqsort fuel data a mid limit true true in
              pdqsort fuel data (mid + 1) b limit
                      wasBalanced alreadyPartitioned
            else
              let wasBalanced := balanceThreshold <=? rightLen in
              let data := pdqsort fuel data (mid + 1) b limit true true in
              pdqsort fuel data a mid limit wasBalanced alreadyPartitioned
    end.

(** [sort.Slice(x, less)] *)
Definition sort_Slice (x : list A) : list A :=
  let length := length x in
  let limit := bits_Len length in
  pdqsort length x 0 length limit true true.

End SortSlice.

(** [parseScanOutput]: the blocks are parsed in order and the records are
    sorted by [Signal], greater first. *)
Definition parseScanOutput (clock : nat → Z) (output : string)
    : list Network :=
  let networks := parseBlocks clock 0 (regexp_Split_BSS output) in
  sort_Slice (fun x y => bool_decide (Signal x > Signal y)) networks.

Local Close Scope string_scope.

(** ** Session tracker *)

Definition NewSession : Session := mkSession ∅.

(** [state.SignalHistory[len(state.SignalHistory)-maxHistory:]], guarded by
    [len > maxHistory]. *)
Definition trimHistory (h : list Z) : list Z :=
  if decide (maxHistory < length h)%nat
  then drop (length h - maxHistory) h
  else h.

(** The body of the [for _, net := range networks] loop of [Update].  The
    state found (or created) is changed field by field as in the source and
    stored back under its key: the map holds a pointer to it. *)
Definition Update_body (now : Z)
    (acc : gmap string NetworkState * list string) (net : Network)
    : gmap string NetworkState * list string :=
  let '(m, newBSSIDs) := acc in
  let '(state, newBSSIDs) :=
    match m !! BSSID net with
    | Some state => (state, newBSSIDs)
    | None =>
        (mkNetworkState (BSSID net) now 0 [] (Signal net) (Signal net),
         newBSSIDs ++ [BSSID net])
    end in
  let minS := if decide (Signal net < MinSignal state)
              then Signal net else MinSignal state in
  let maxS := if decide (Signal net > MaxSignal state)
              then Signal net else MaxSignal state in
  let hist := trimHistory (SignalHistory state ++ [Signal net]) in
  (<[BSSID net := mkNetworkState (ns_BSSID state) (FirstSeen state) now
                    hist minS maxS]> m,
   newBSSIDs).

(** [Update]: [now] is the value of the single [time.Now()] of the call. *)
Definition Update (s : Session) (now : Z) (networks : list Network)
    : Session * list string :=
  let '(m, newBSSIDs) := foldl (Update_body now) (states s, []) networks in
  (mkSession m, newBSSIDs).

Definition Get (s : Session) (bssid : string) : option NetworkState :=
  states s !! bssid.

Definition Count (s : Session) : nat := size (states s).

(** A run of the tracker: successive [Update] calls, each with its clock
    reading and its batch. *)
Definition run (s : Session) (calls : list (Z * list Network)) : Session :=
  foldl (fun s c => (Update s c.1 c.2).1) s calls.

(** ** Sparkline *)

(** [sparkBlocks]: the runes U+2581 .. U+2588. *)
Definition sparkBlocks : list Z :=
  [9601; 9602; 9603; 9604; 9605; 9606; 9607; 9608].

(** The index computed for one reading: [(sig + 100) * 7 / 80] in 64-bit
    arithmetic ([/] truncates toward zero), then the two clamps. *)
Definition sparkIndex (sig : Z) : Z :=
  let idx := Z.quot (wrap64 (wrap64 (sig + 100) * 7)) 80 in
  let idx := if decide (idx < 0) then 0 else idx in
  let idx := if decide (idx > 7) then 7 else idx in
  idx.

(** [Sparkline]: the result is the sequence of runes whose UTF-8 encoding
    the Go function returns as a string. *)
Definition Sparkline (ns : NetworkState) : list Z :=
  if decide (length (SignalHistory ns) = 0%nat) then []
  else map (fun sig => nth (Z.to_nat (sparkIndex sig)) sparkBlocks 0)
           (SignalHistory ns).

(** ** Specification-side notions for the tracker *)

(** The addresses of a list, each kept at its first appearance only. *)
Fixpoint first_appearances (l : list string) : list string :=
  match l with
  | [] => []
  | a :: l' => a :: filter (fun b => b ≠ a) (first_appearances l')
  end.

(** The signal values a batch carries for one address, in batch order. *)
Definition signals_for (a : string) (batch : list Network) : list Z :=
  Signal <$> filter (fun n => BSSID n = a) batch.

(** The invariant of one [NetworkState]. *)
Definition history_ok (h : NetworkState) : Prop :=
  Forall (fun x => MinSignal h <= x <= MaxSignal h) (SignalHistory h)
  ∧ (length (SignalHistory h) <= 10)%nat
  ∧ FirstSeen h <= ns_LastSeen h.

(** What one record of a batch does to the state of its address. *)
Definition touch (now : Z) (o : option NetworkState) (net : Network)
    : NetworkState :=
  let state := default
    (mkNetworkState (BSSID net) now 0 [] (Signal net) (Signal net)) o in
  mkNetworkState (ns_BSSID state) (FirstSeen state) now
    (trimHistory (SignalHistory state ++ [Signal net]))
    (if decide (Signal net < MinSignal state)
     then Signal net else MinSignal state)
    (if decide (Signal net > MaxSignal state)
     then Signal net else MaxSignal state).

(** What a whole batch does to the state of address [a]. *)
Definition track (now : Z) (a : string) (o : option NetworkState)
    (batch : list Network) : option NetworkState :=
  foldl (fun o net => if decide (BSSID net = a)
                      then Some (touch now o net) else o) o batch.

(** Every state of a session is in order and was last seen no later than
    [t]. *)
Definition session_ok (t : Z) (s : Session) : Prop :=
  ∀ a h, Get s a = Some h → history_ok h ∧ ns_LastSeen h <= t.

(** The window of the ten most recent values of a list. *)
Definition window (l : list Z) : list Z := drop (length l - 10) l.

(** The readings of a state, none when the address is not tracked. *)
Definition history_of (o : option NetworkState) : list Z :=
  from_option SignalHistory [] o.

(** A record of a batch with an address and a reading, other fields at
    their zero values. *)
Definition sighting (a : string) (sig : Z) : Network :=
  mkNetwork a "" sig 0 0 "" 0.

(** Fifteen updates at clock readings 1 .. 15, one reading each for one
    address: the readings -30, -31, .., -44. *)
Definition fifteen_calls : list (Z * list Network) :=
  map (fun i => (Z.of_nat i, [sighting "AA:BB:CC:DD:EE:FF" (- 29 - Z.of_nat i)]))
      (seq 1 15).

(** ** Specification-side notions for the sparkline *)

Definition clamp (lo hi x : Z) : Z := Z.max lo (Z.min hi x).

(** The integer nearest to [n / d] for [0 < d], a half rounded away from
    zero. *)
Definition round_div (n d : Z) : Z :=
  if decide (0 <= n) then (2 * n + d) / (2 * d)
  else - ((2 * (- n) + d) / (2 * d)).

(** The level as the specification words it:
    [clamp(round((sample + 100) * 7 / 80), 0, 7)]. *)
Definition spec_level (s : Z) : Z := clamp 0 7 (round_div ((s + 100) * 7) 80).

(** The level with the division of Go, which truncates. *)
Definition trunc_level (s : Z) : Z := clamp 0 7 (Z.quot ((s + 100) * 7) 80).

Definition glyph (level : Z) : Z := nth (Z.to_nat level) sparkBlocks 0.

Definition state_of_history (h : list Z) : NetworkState :=
  mkNetworkState "" 0 0 h 0 0.

(** ** Specification-side notions for the parser *)

(** The text [sub] occurs in [s]. *)
Definition occurs (sub s : string) : Prop :=
  ∃ pre post, s = pre +:+ sub +:+ post.

Local Open Scope string_scope.

(** The text that introduces an explicit channel. *)
Definition channelMarker : string := "DS Parameter set: channel ".

(** An explicit channel marker is present: the text of the marker followed
    by a digit. *)
Definition marker_present (s : string) : Prop :=
  ∃ pre d post,
    s = pre +:+ channelMarker +:+ String d post ∧ isDigit d = true.

Fixpoint allDigits (s : string) : bool :=
  match s with
  | String c s' => isDigit c && allDigits s'
  | "" => true
  end.


(** The number a string of decimal digits denotes. *)
Fixpoint decimalValue (s : string) : Z :=
  match s with
  | String c s' =>
      (Z.of_N (code c) - 48) * 10 ^ Z.of_nat (String.length s')
      + decimalValue s'
  | "" => 0
  end.

Local Close Scope string_scope.

Local Open Scope string_scope.

(** Every character of [s] satisfies [p]. *)
Fixpoint allChars (p : ascii → bool) (s : string) : bool :=
  match s with
  | String c s' => p c && allChars p s'
  | "" => true
  end.

Definition isHexDigit (c : ascii) : bool :=
  isDigit c || in_range 97 102 c || in_range 65 70 c.

Definition isUpperHexDigit (c : ascii) : bool :=
  isDigit c || in_range 65 70 c.

Definition isUpperHexColon (c : ascii) : bool :=
  isUpperHexDigit c || (code c =? 58)%N.

(** [groups] pairs of characters that satisfy [hex], separated by colons. *)
Fixpoint shaped (hex : ascii → bool) (groups : nat) (s : string) : bool :=
  match groups with
  | O => false
  | S g =>
      match s with
      | String a (String b rest) =>
          hex a && hex b
          && match g with
             | O => bool_decide (rest = "")
             | S _ =>
                 match rest with
                 | String c rest' => (code c =? 58)%N && shaped hex g rest'
                 | "" => false
                 end
             end
      | _ => false
      end
  end.

(** The canonical form of an address: six pairs of upper-case hexadecimal
    digits separated by colons. *)
Definition canonicalAddress (s : string) : bool := shaped isUpperHexDigit 6 s.

(** An address with its letters in either case. *)
Definition looseAddress (s : string) : bool := shaped isHexDigit 6 s.

(** The block starts with 17 characters that are hexadecimal digits or
    colons. *)
Definition startsWithAddress (block : string) : Prop :=
  ∃ m rest, block = m +:+ rest ∧ String.length m = 17%nat
            ∧ allChars isHexColon m = true.

Definition LF : string := String (ascii_of_N 10) "".
Definition TAB : string := String (ascii_of_N 9) "".

(** The text of one device section as the scan utility prints it: the
    marker line with the address, then the signal line. *)
Definition scanBlock (addr sig : string) : string :=
  "BSS " +:+ addr +:+ "(on wlan0)" +:+ LF
  +:+ TAB +:+ "signal: " +:+ sig +:+ ".00 dBm" +:+ LF.

(** Thirteen sections: twelve at -50 dBm, then one at -40 dBm. *)
Definition thirteen_blocks : string :=
  scanBlock "00:00:00:00:00:00" "-50" +:+ scanBlock "00:00:00:00:00:01" "-50"
  +:+ scanBlock "00:00:00:00:00:02" "-50"
  +:+ scanBlock "00:00:00:00:00:03" "-50"
  +:+ scanBlock "00:00:00:00:00:04" "-50"
  +:+ scanBlock "00:00:00:00:00:05" "-50"
  +:+ scanBlock "00:00:00:00:00:06" "-50"
  +:+ scanBlock "00:00:00:00:00:07" "-50"
  +:+ scanBlock "00:00:00:00:00:08" "-50"
  +:+ scanBlock "00:00:00:00:00:09" "-50"
  +:+ scanBlock "00:00:00:00:00:0a" "-50"
  +:+ scanBlock "00:00:00:00:00:0b" "-50"
  +:+ scanBlock "00:00:00:00:00:0c" "-40".

(** Fourteen sections, nine at -50 dBm and five at -60 dBm: the first
    partition is unbalanced, so the sort goes through [breakPatterns]. *)
Definition fourteen_blocks : string :=
  scanBlock "00:00:00:00:00:00" "-50" +:+ scanBlock "00:00:00:00:00:01" "-50"
  +:+ scanBlock "00:00:00:00:00:02" "-60"
  +:+ scanBlock "00:00:00:00:00:03" "-50"
  +:+ scanBlock "00:00:00:00:00:04" "-60"
  +:+ scanBlock "00:00:00:00:00:05" "-60"
  +:+ scanBlock "00:00:00:00:00:06" "-50"
  +:+ scanBlock "00:00:00:00:00:07" "-50"
  +:+ scanBlock "00:00:00:00:00:08" "-60"
  +:+ scanBlock "00:00:00:00:00:09" "-50"
  +:+ scanBlock "00:00:00:00:00:0a" "-50"
  +:+ scanBlock "00:00:00:00:00:0b" "-50"
  +:+ scanBlock "00:00:00:00:00:0c" "-50"
  +:+ scanBlock "00:00:00:00:00:0d" "-60".

(** A text whose part before the first marker starts with an address. *)
Definition headless_blob : string :=
  "AA:BB:CC:DD:EE:FF" +:+ LF +:+ "BSS 11:22:33:44:55:66" +:+ LF.

(** A section with a channel marker. *)
Definition channel_block : string :=
  "aa:bb:cc:dd:ee:ff(on wlan0)" +:+ LF +:+ TAB +:+ "freq: 5500" +:+ LF
  +:+ TAB +:+ "DS Parameter set: channel 6" +:+ LF.

Local Close Scope string_scope.

(** The key by which [parseScanOutput] sorts: greater signals first. *)
Definition signalKey (n : Network) : Z := - Signal n.

(** ** Specification-side notions for sorting *)

Section SortNotions.

Context {A : Type} (key : A → Z).

(** The key of the element at an index. *)
Definition keyAt (data : list A) (i : nat) : Z :=
  from_option key 0 (data !! i).

(** The elements at the indices [a .. b-1] are in non-decreasing order of
    their keys. *)
Definition sorted_range (data : list A) (a b : nat) : Prop :=
  ∀ i j, (a <= i)%nat → (i <= j)%nat → (j < b)%nat →
         keyAt data i <= keyAt data j.

(** The element before index [a], if any, is no greater than the elements
    at [a .. b-1]. *)
Definition bounded_below (data : list A) (a b : nat) : Prop :=
  ∀ k, (0 < a)%nat → (a <= k)%nat → (k < b)%nat →
       keyAt data (a - 1) <= keyAt data k.

(** In the heap laid out from index [first], the nodes [lo .. hi-1] other
    than [skip] are no smaller than their children. *)
Definition heap_except (data : list A) (first lo hi skip : nat) : Prop :=
  ∀ r c, (lo <= r)%nat → r ≠ skip →
         (c = 2 * r + 1 ∨ c = 2 * r + 2)%nat → (c < hi)%nat →
         keyAt data (first + c) <= keyAt data (first + r).

(** [data'] results from [data] by exchanges of elements at indices of
    [a .. b-1]. *)
Inductive swaps_in (a b : nat) : list A → list A → Prop :=
  | swaps_refl data : swaps_in a b data data
  | swaps_step data i j data' :
      (a <= i < b)%nat → (a <= j < b)%nat →
      (i < length data)%nat → (j < length data)%nat →
      swaps_in a b (Swap data i j) data' →
      swaps_in a b data data'.

End SortNotions.

(** ** More of the tracker *)

(** [newTimeout = 30 * time.Second]; a [time.Duration] counts
    nanoseconds. *)
Definition newTimeout : Z := 30 * 1000000000.

(** [t.Sub(u)]: the difference of two readings, which saturates at the ends
    of the 64-bit range. *)
Definition time_Sub (t u : Z) : Z :=
  Z.max minInt64 (Z.min maxInt64 (t - u)).

(** [IsNew]: [now] is the reading of the clock by [time.Since]. *)
Definition IsNew (ns : NetworkState) (now : Z) : bool :=
  bool_decide (time_Sub now (FirstSeen ns) < newTimeout).

(** The clock readings of the calls whose batch holds address [a]. *)
Definition sightings (a : string) (calls : list (Z * list Network))
    : list Z :=
  (filter (fun c => a ∈ BSSID <$> c.2) calls).*1.

(** All readings submitted for address [a], in order of arrival. *)
Definition readings (a : string) (calls : list (Z * list Network))
    : list Z :=
  concat (signals_for a <$> calls.*2).

(** The least and the greatest of the readings seen so far. *)
Definition widen (o : option (Z * Z)) (x : Z) : option (Z * Z) :=
  Some match o with
       | None => (x, x)
       | Some (lo, hi) => (Z.min lo x, Z.max hi x)
       end.

Definition extrema (h : NetworkState) : Z * Z := (MinSignal h, MaxSignal h).

(** ** More of the parser *)

Local Open Scope string_scope.

(** The labels [parseSecurity] can give. *)
Definition securityLabels : list string :=
  ["OPEN"; "WEP"; "WPA"; "WPA2"; "WPA2/WPA"; "WPA3"].

(** The fragments of a split put together again, the marker before each
    but the first. *)
Definition joinBSS (fragments : list string) : string :=
  match fragments with
  | [] => ""
  | f :: fs => f +:+ foldr (fun b acc => "BSS " +:+ b +:+ acc) "" fs
  end.

(** A section with an address and nothing else. *)
Definition bare_block : string := "aa:bb:cc:dd:ee:ff(on wlan0)" +:+ LF.

Local Close Scope string_scope.

(** ** Scanner set-up and demo data

    [mockScan]: the networks of the demo mode.  [draw k n] is the result of
    the [k]-th call of [rand.Intn] of a scan, made with bound [n]. *)

Local Open Scope string_scope.

Record mock := mkMock {
  m_ssid : string;
  m_bssid : string;
  m_security : string;
  m_baseSignal : Z;
  m_freq : Z
}.

Definition mocks : list mock :=
  [ mkMock "NETGEAR-5G-Home" "A4:2B:8C:D1:E5:F0" "WPA2" (-35) 5180;
    mkMock "xfinitywifi" "B0:C7:45:3A:91:DE" "OPEN" (-42) 2437;
    mkMock "FBI_Surveillance_Van_7" "C8:3A:35:FF:02:11" "WPA3" (-48) 5240;
    mkMock "Pretty Fly for a WiFi" "D4:01:C3:7E:A8:55" "WPA2" (-55) 2412;
    mkMock "The LAN Before Time" "10:68:3F:6B:33:C7" "WPA2" (-58) 2462;
    mkMock "Bill Wi the Science Fi" "28:C6:8E:CE:47:9B" "WPA2/WPA" (-63) 2427;
    mkMock "DROP TABLE *;--" "00:0E:8E:BE:EF:00" "WPA2" (-65) 5300;
    mkMock "Skynet Global Defense" "00:09:0F:44:55:66" "WPA3" (-68) 5500;
    mkMock "404 Network Unavail" "AC:67:06:DD:EE:01" "WPA2" (-72) 2452;
    mkMock "wu-tang LAN" "34:A1:F7:8C:22:D0" "WPA2" (-74) 2417;
    mkMock "<hidden>" "B4:FB:E4:BC:DE:F0" "WPA2" (-76) 5220;
    mkMock "linksys" "78:A0:51:3E:C9:44" "WEP" (-78) 2422;
    mkMock "DIRECT-roku-123" "9C:B2:E4:16:F8:73" "WPA2" (-82) 2447;
    mkMock "HP-Print-A1-Officejet" "B0:5A:DA:01:23:45" "OPEN" (-85) 2432;
    mkMock "oldrouter" "D0:E1:F2:03:14:25" "OPEN" (-88) 2442;
    mkMock "TP-Link_Guest_5G" "50:C7:BF:15:26:37" "WPA2" (-91) 5745 ].

(** The body of the loop over [mocks], at index [i]. *)
Definition mockNetwork (draw : nat → Z → Z) (now : Z) (i : nat) (m : mock)
    : Network :=
  let jitter := wrap64 (draw i 7 - 3) in
  mkNetwork (m_bssid m) (m_ssid m) (wrap64 (m_baseSignal m + jitter))
            (m_freq m) (freqToChannel (m_freq m)) (m_security m) now.

(** The network that roams in and out. *)
Definition roamingNetwork (draw : nat → Z → Z) (now : Z) : Network :=
  mkNetwork "A4:77:33:AB:CD:EF" "GoogleGuest-5G"
            (wrap64 (wrap64 (-60 + draw 17%nat 7) - 3))
            5500 (freqToChannel 5500) "WPA2" now.

Definition mockNetworks (draw : nat → Z → Z) (now : Z) : list Network :=
  let networks := imap (mockNetwork draw now) mocks in
  if decide (draw 16%nat 10 < 3)
  then networks ++ [roamingNetwork draw now]
  else networks.

Definition mockScan (draw : nat → Z → Z) (now : Z) : list Network :=
  sort_Slice (fun x y => bool_decide (Signal x > Signal y))
             (mockNetworks draw now).




Record Scanner := mkScanner {
  Interface : string;
  Demo : bool
}.

(** [Scan]: [active] is the output of the scan command and [dump] that of
    the command for the cached results, each [None] when the command
    failed; the second command runs only when the first one failed. *)
Definition Scan (s : Scanner) (draw : nat → Z → Z) (clock : nat → Z)
    (active dump : option string) : option (list Network) :=
  if Demo s then Some (mockScan draw (clock 0%nat))
  else
    match active with
    | Some out => Some (parseScanOutput clock out)
    | None =>
        match dump with
        | Some out => Some (parseScanOutput clock out)
        | None => None
        end
    end.



(** The roaming network as an entry of the table of mocks. *)
Definition roamer : mock :=
  mkMock "GoogleGuest-5G" "A4:77:33:AB:CD:EF" "WPA2" (-60) 5500.

(** The results of [rand.Intn] lie below its bound. *)
Definition in_bounds (draw : nat → Z → Z) : Prop :=
  ∀ (k : nat) (n : Z), 0 < n → 0 <= draw k n < n.

(** ** Vendor lookup *)

(** [isLocallyAdministered]: bit 1 of the second hexadecimal digit. *)
Definition isLocallyAdministered (bssid : string) : bool :=
  match bssid with
  | String _ (String c _) =>
      let nibble : option N :=
        if in_range 48 57 c then Some (code c - 48)%N
        else if in_range 97 102 c then Some (code c - 97 + 10)%N
        else if in_range 65 70 c then Some (code c - 65 + 10)%N
        else None in
      match nibble with
      | Some nibble => negb (N.land nibble 2 =? 0)%N
      | None => false
      end
  | _ => false
  end.

Definition ouiTable : gmap string string :=
  list_to_map [
    ("A4:83:E7", "Apple"); ("AC:BC:32", "Apple"); ("38:C9:86", "Apple");
    ("3C:22:FB", "Apple"); ("DC:A9:04", "Apple"); ("F0:18:98", "Apple");
    ("28:6A:BA", "Apple"); ("70:56:81", "Apple"); ("B8:53:AC", "Apple");
    ("D0:03:4B", "Apple"); ("8C:85:90", "Apple"); ("40:A6:D9", "Apple");
    ("14:7D:DA", "Apple"); ("58:55:CA", "Apple"); ("78:7E:61", "Apple");
    ("A8:66:7F", "Apple"); ("B0:72:BF", "Samsung"); ("34:14:5F", "Samsung");
    ("8C:77:12", "Samsung"); ("E4:92:FB", "Samsung");
    ("00:26:37", "Samsung"); ("D0:87:E2", "Samsung");
    ("5C:49:7D", "Samsung"); ("50:01:BB", "Samsung");
    ("AC:5A:14", "Samsung"); ("C0:BD:D1", "Samsung"); ("00:1A:A1", "Cisco");
    ("00:1B:0D", "Cisco"); ("00:26:CB", "Cisco"); ("58:6D:8F", "Cisco");
    ("B0:FA:EB", "Cisco"); ("D4:A0:2A", "Cisco");
    ("78:A0:51", "Cisco-Linksys"); ("C0:C1:C0", "Cisco-Linksys");
    ("68:7F:74", "Cisco-Linksys"); ("A4:2B:8C", "Netgear");
    ("C4:3D:C7", "Netgear"); ("20:4E:7F", "Netgear");
    ("B0:7F:B9", "Netgear"); ("84:1B:5E", "Netgear");
    ("6C:B0:CE", "Netgear"); ("44:94:FC", "Netgear");
    ("E0:91:F5", "Netgear"); ("28:C6:8E", "Netgear");
    ("9C:3D:CF", "Netgear"); ("50:C7:BF", "TP-Link");
    ("30:B5:C2", "TP-Link"); ("EC:08:6B", "TP-Link");
    ("C0:06:C3", "TP-Link"); ("D8:47:32", "TP-Link");
    ("60:A4:4C", "TP-Link"); ("A4:2B:B0", "TP-Link");
    ("54:C8:0F", "TP-Link"); ("14:CC:20", "TP-Link");
    ("B0:BE:76", "TP-Link"); ("00:1E:64", "Intel"); ("00:1F:3B", "Intel");
    ("3C:97:0E", "Intel"); ("68:17:29", "Intel"); ("7C:5C:F8", "Intel");
    ("80:86:F2", "Intel"); ("8C:8D:28", "Intel"); ("A4:34:D9", "Intel");
    ("B4:6B:FC", "Intel"); ("DC:71:96", "Intel");
    ("00:03:7F", "Qualcomm Atheros"); ("00:0E:8E", "Qualcomm Atheros");
    ("1C:B7:2C", "Qualcomm Atheros"); ("54:E6:FC", "Qualcomm Atheros");
    ("9C:B7:0D", "Qualcomm Atheros"); ("B4:EE:B4", "Qualcomm Atheros");
    ("00:10:18", "Broadcom"); ("00:90:4C", "Broadcom");
    ("D8:B1:22", "Broadcom"); ("20:10:7A", "Broadcom");
    ("00:0B:86", "Aruba"); ("00:1A:1E", "Aruba"); ("00:24:6C", "Aruba");
    ("04:BD:88", "Aruba"); ("18:64:72", "Aruba"); ("24:DE:C6", "Aruba");
    ("40:E3:D6", "Aruba"); ("6C:F3:7F", "Aruba"); ("94:B4:0F", "Aruba");
    ("D8:C7:C8", "Aruba"); ("00:27:22", "Ubiquiti");
    ("04:18:D6", "Ubiquiti"); ("18:E8:29", "Ubiquiti");
    ("24:5A:4C", "Ubiquiti"); ("44:D9:E7", "Ubiquiti");
    ("68:D7:9A", "Ubiquiti"); ("74:83:C2", "Ubiquiti");
    ("80:2A:A8", "Ubiquiti"); ("B4:FB:E4", "Ubiquiti");
    ("FC:EC:DA", "Ubiquiti"); ("54:60:09", "Google"); ("F4:F5:D8", "Google");
    ("A4:77:33", "Google"); ("30:FD:38", "Google");
    ("18:D6:C7", "Google Nest"); ("F0:F0:A4", "Amazon");
    ("44:65:0D", "Amazon"); ("AC:63:BE", "Amazon"); ("68:54:FD", "Amazon");
    ("B0:FC:0D", "Amazon"); ("50:DC:E7", "Amazon"); ("00:18:82", "Huawei");
    ("00:25:68", "Huawei"); ("00:46:4B", "Huawei"); ("04:F9:38", "Huawei");
    ("08:19:A6", "Huawei"); ("0C:96:BF", "Huawei"); ("20:A6:80", "Huawei");
    ("48:46:FB", "Huawei"); ("70:8A:09", "Huawei"); ("88:28:B3", "Huawei");
    ("00:0C:6E", "ASUS"); ("00:0E:A6", "ASUS"); ("00:1A:92", "ASUS");
    ("04:D4:C4", "ASUS"); ("08:60:6E", "ASUS"); ("10:C3:7B", "ASUS");
    ("1C:87:2C", "ASUS"); ("2C:FD:A1", "ASUS"); ("30:5A:3A", "ASUS");
    ("40:B0:76", "ASUS"); ("00:05:5D", "D-Link"); ("00:0D:88", "D-Link");
    ("00:17:9A", "D-Link"); ("00:1B:11", "D-Link"); ("00:1E:58", "D-Link");
    ("00:22:B0", "D-Link"); ("14:D6:4D", "D-Link"); ("1C:7E:E5", "D-Link");
    ("28:10:7B", "D-Link"); ("34:08:04", "D-Link"); ("00:04:56", "Motorola");
    ("00:08:0E", "Motorola"); ("00:0C:E5", "Motorola");
    ("34:BB:1F", "Motorola"); ("5C:5A:C7", "Motorola");
    ("B0:C7:45", "Comcast Xfinity"); ("14:91:82", "Comcast Xfinity");
    ("58:D5:6E", "Comcast Xfinity"); ("74:85:2A", "Comcast Xfinity");
    ("F4:6B:EF", "Comcast Xfinity"); ("A4:11:62", "Comcast Xfinity");
    ("00:0D:3A", "Microsoft"); ("00:12:5A", "Microsoft");
    ("00:17:FA", "Microsoft"); ("28:18:78", "Microsoft");
    ("7C:1E:52", "Microsoft"); ("B4:AE:2B", "Microsoft");
    ("00:04:1F", "Sony"); ("00:13:A9", "Sony"); ("00:19:63", "Sony");
    ("F8:D0:AC", "Sony"); ("AC:89:95", "Sony"); ("78:C8:81", "Sony");
    ("00:1C:62", "LG"); ("00:1E:75", "LG"); ("10:68:3F", "LG");
    ("34:4D:F7", "LG"); ("58:A2:B5", "LG"); ("CC:FA:00", "LG");
    ("00:06:5B", "Dell"); ("00:08:74", "Dell"); ("00:0B:DB", "Dell");
    ("14:18:77", "Dell"); ("18:03:73", "Dell"); ("24:B6:FD", "Dell");
    ("00:0D:9D", "HP"); ("00:11:0A", "HP"); ("00:14:38", "HP");
    ("00:17:A4", "HP"); ("3C:D9:2B", "HP"); ("94:57:A5", "HP");
    ("B0:5A:DA", "HP"); ("00:25:C4", "Ruckus"); ("C8:3A:35", "Ruckus");
    ("58:B6:33", "Ruckus"); ("AC:67:06", "Ruckus"); ("00:05:85", "Juniper");
    ("5C:5E:AB", "Juniper Mist"); ("00:04:96", "Extreme");
    ("08:BD:43", "Aerohive"); ("9C:B2:E4", "Roku"); ("B0:A7:37", "Roku");
    ("D8:31:34", "Roku"); ("CC:6D:A0", "Roku"); ("00:0E:58", "Sonos");
    ("5C:AA:FD", "Sonos"); ("78:28:CA", "Sonos"); ("94:9F:3E", "Sonos");
    ("B8:E9:37", "Sonos"); ("34:3E:A4", "Ring"); ("B0:09:DA", "Ring");
    ("08:86:3B", "Belkin"); ("94:10:3E", "Belkin"); ("C0:56:27", "Belkin");
    ("EC:1A:59", "Belkin"); ("00:9E:C8", "Xiaomi"); ("04:CF:8C", "Xiaomi");
    ("0C:1D:AF", "Xiaomi"); ("28:6C:07", "Xiaomi"); ("34:CE:00", "Xiaomi");
    ("58:44:98", "Xiaomi"); ("64:B4:73", "Xiaomi"); ("7C:1D:D9", "Xiaomi");
    ("00:0C:E7", "MediaTek"); ("00:0C:43", "MediaTek");
    ("00:17:7C", "Ralink"); ("00:E0:4C", "Realtek"); ("52:54:00", "Realtek");
    ("24:0A:C4", "Espressif"); ("24:62:AB", "Espressif");
    ("30:AE:A4", "Espressif"); ("A4:CF:12", "Espressif");
    ("BC:DD:C2", "Espressif"); ("B8:27:EB", "Raspberry Pi");
    ("DC:A6:32", "Raspberry Pi"); ("E4:5F:01", "Raspberry Pi");
    ("2C:AA:8E", "Wyze"); ("08:EA:44", "AT&T"); ("14:C0:3E", "AT&T");
    ("B8:AD:3E", "AT&T"); ("D4:01:C3", "AT&T"); ("00:1E:C1", "Verizon");
    ("20:C0:47", "Verizon"); ("48:5D:36", "Verizon");
    ("34:68:95", "CenturyLink"); ("68:F9:56", "Calix");
    ("14:ED:BB", "Charter Spectrum"); ("40:B7:F3", "Charter Spectrum");
    ("F8:BB:BF", "eero"); ("00:00:CA", "ARRIS"); ("00:15:96", "ARRIS");
    ("00:1D:CE", "ARRIS"); ("10:86:8C", "ARRIS"); ("20:3D:66", "ARRIS");
    ("E8:ED:05", "ARRIS"); ("00:18:0A", "Cisco Meraki");
    ("AC:17:02", "Cisco Meraki"); ("00:19:CB", "ZTE"); ("00:1E:73", "ZTE");
    ("34:4B:50", "ZTE"); ("94:65:2D", "OnePlus"); ("00:1C:C4", "HPE");
    ("3C:52:82", "HPE"); ("D4:C9:EF", "HPE"); ("00:1E:B4", "Sagemcom");
    ("64:7C:34", "Sagemcom"); ("00:09:0F", "Fortinet");
    ("00:1B:17", "Palo Alto"); ("D0:E1:F2", "Technicolor");
    ("34:A1:F7", "Shenzhen RF-Link"); ("00:DE:AD", "Private");
    ("11:22:33", "Private"); ("AA:BB:CC", "Private")
  ].

(** [LookupVendor]; [strings.ToUpper] is the one above, for an address of
    ASCII characters. *)
Definition LookupVendor (bssid : string) : string :=
  if isLocallyAdministered bssid then "Local"
  else
    let prefix := strings_ToUpper bssid in
    if (String.length prefix <? 8)%nat then "Unknown"
    else
      let prefix := substring 0 8 prefix in
      match ouiTable !! prefix with
      | Some vendor => vendor
      | None => "Unknown"
      end.

(** The characters below 128. *)
Definition isASCII (c : ascii) : bool := (code c <? 128)%N.

(** The second digits of a locally administered address. *)
Definition localDigits : list ascii :=
  ["2"; "3"; "6"; "7"; "a"; "b"; "e"; "f"; "A"; "B"; "E"; "F"]%char.

(** ** User interface

    Of the terminal application, the state that a scan changes and the
    helpers that turn a record into what is drawn; the drawing itself is
    left out. *)

Definition colorCyan : string := "#00ffff".
Definition colorMagenta : string := "#ff00ff".
Definition colorGreen : string := "#00ff41".
Definition colorOrange : string := "#ff8c00".
Definition colorRed : string := "#ff0040".
Definition colorYellow : string := "#ffff00".

(** [newBadgeTTL = 30 * time.Second] *)
Definition newBadgeTTL : Z := 30 * 1000000000.

(** [signalBars]: the number of bars and their colour. *)
Definition signalBars (signal : Z) : Z * string :=
  if decide (signal >= -30) then (10, colorGreen)
  else if decide (signal >= -40) then (9, colorGreen)
  else if decide (signal >= -50) then (8, colorGreen)
  else if decide (signal >= -55) then (7, colorCyan)
  else if decide (signal >= -60) then (6, colorCyan)
  else if decide (signal >= -67) then (5, colorYellow)
  else if decide (signal >= -70) then (4, colorYellow)
  else if decide (signal >= -75) then (3, colorOrange)
  else if decide (signal >= -80) then (2, colorOrange)
  else if decide (signal >= -90) then (1, colorRed)
  else (0, colorRed).

Definition bandInfo (freq : Z) : string * string :=
  if decide (freq >= 5955) then ("6G", colorMagenta)
  else if decide (freq >= 5000) then ("5G", colorCyan)
  else ("2.4G", colorGreen).

Definition securityColor (sec : string) : string :=
  if decide (sec = "OPEN") then colorRed
  else if decide (sec = "WEP") then colorOrange
  else if decide (sec = "WPA") then colorOrange
  else if decide (sec = "WPA3") then colorCyan
  else colorGreen.

(** The fields of [App] that a scan changes. *)
Record App := mkApp {
  app_networks : list Network;
  app_session : Session;
  app_newBSSIDs : gmap string Z
}.

(** [ui.New] *)
Definition ui_New : App := mkApp [] NewSession ∅.

(** [doScan], given the result of [Scan] ([None] for an error), the reading
    [tUpdate] of the clock by [Update] and the reading [now] by [doScan]
    itself.  The second component is the count handed to
    [showNewNetworkAlert], when it is called. *)
Definition doScan (a : App) (scan : option (list Network)) (tUpdate now : Z)
    : App * option nat :=
  match scan with
  | None => (a, None)
  | Some nets =>
      let '(session, newBSSIDs) := Update (app_session a) tUpdate nets in
      let badges :=
        foldl (fun m bssid => <[bssid := now]> m) (app_newBSSIDs a)
              newBSSIDs in
      let badges :=
        filter (fun kv => ¬ (time_Sub now kv.2 >= newBadgeTTL)) badges in
      let alert :=
        if decide (0 < length newBSSIDs
                   ∧ length newBSSIDs < Count session)%nat
        then Some (length newBSSIDs) else None in
      (mkApp nets session badges, alert)
  end.

(** The bar colour that goes with a number of bars. *)
Definition barColor (bars : Z) : string :=
  if decide (8 <= bars) then colorGreen
  else if decide (6 <= bars) then colorCyan
  else if decide (4 <= bars) then colorYellow
  else if decide (2 <= bars) then colorOrange
  else colorRed.

Local Close Scope string_scope.

(** ** Proof automation *)

(** Close a goal on keys by arithmetic or by one of the hypotheses. *)
Ltac by_keys :=
  first [ lia
        | match goal with H : _ |- _ => solve [apply H; lia] end ].

(** * Properties of the session tracker *)

Section Tracker.

Lemma Update_body_fst now m news net :
  (Update_body now (m, news) net).1
  = <[BSSID net := touch now (m !! BSSID net) net]> m.
Proof.
  unfold Update_body, touch. destruct (m !! BSSID net); reflexivity.
Qed.

Lemma Update_body_snd now m news net :
  (Update_body now (m, news) net).2
  = news ++ (if decide (m !! BSSID net = None) then [BSSID net] else []).
Proof.
  unfold Update_body. destruct (m !! BSSID net) eqn:E; simpl.
  - by rewrite app_nil_r.
  - done.
Qed.

Lemma foldl_Update_body_lookup now batch : ∀ m news a,
  (foldl (Update_body now) (m, news) batch).1 !! a
  = track now a (m !! a) batch.
Proof.
  induction batch as [|net batch IH]; intros m news a; [done|].
  cbn [foldl]. destruct (Update_body now (m, news) net) as [m1 news1] eqn:E.
  rewrite IH. unfold track. cbn [foldl]. f_equal.
  replace m1 with (Update_body now (m, news) net).1 by (by rewrite E).
  rewrite Update_body_fst. destruct (decide (BSSID net = a)) as [Ha|Ha].
  - subst a. by rewrite lookup_insert_eq.
  - by rewrite lookup_insert_ne.
Qed.

Lemma Get_Update s now batch a :
  Get (Update s now batch).1 a = track now a (Get s a) batch.
Proof.
  unfold Get, Update.
  destruct (foldl (Update_body now) (states s, []) batch) as [m news] eqn:E.
  simpl. replace m with (foldl (Update_body now) (states s, []) batch).1
    by (by rewrite E).
  apply foldl_Update_body_lookup.
Qed.

Lemma filter_drop_absent (P : string → Prop) `{!∀ x, Decision (P x)}
    (a : string) (l : list string) :
  ¬ P a → filter P (filter (fun b => b ≠ a) l) = filter P l.
Proof.
  intros Ha. induction l as [|b l IH]; [done|].
  rewrite !filter_cons. destruct (decide (b ≠ a)) as [Hb|Hb].
  - rewrite filter_cons. destruct (decide (P b)); by rewrite IH.
  - assert (b = a) as -> by (by destruct (decide (b = a))).
    by rewrite decide_False.
Qed.

Lemma filter_swap_fresh (m : gmap string NetworkState) x a
    (l : list string) :
  filter (fun b => <[a:=x]> m !! b = None) l
  = filter (fun b => m !! b = None) (filter (fun b => b ≠ a) l).
Proof.
  induction l as [|b l IH]; [done|].
  rewrite !filter_cons. destruct (decide (b = a)) as [->|Hb].
  - rewrite lookup_insert_eq. rewrite decide_False by discriminate.
    rewrite decide_False by (intros H; by apply H). done.
  - rewrite lookup_insert_ne by done. rewrite (decide_True _ _ Hb).
    rewrite filter_cons. destruct (decide (m !! b = None)); by rewrite IH.
Qed.

Lemma foldl_Update_body_news now batch : ∀ m news,
  (foldl (Update_body now) (m, news) batch).2
  = news ++ filter (fun a => m !! a = None)
                   (first_appearances (BSSID <$> batch)).
Proof.
  induction batch as [|net batch IH]; intros m news.
  { simpl. by rewrite app_nil_r. }
  cbn [foldl fmap list_fmap first_appearances].
  destruct (Update_body now (m, news) net) as [m1 news1] eqn:E.
  rewrite IH.
  replace m1 with (Update_body now (m, news) net).1 by (by rewrite E).
  replace news1 with (Update_body now (m, news) net).2 by (by rewrite E).
  rewrite Update_body_fst, Update_body_snd, filter_swap_fresh.
  rewrite filter_cons. destruct (decide (m !! BSSID net = None)) as [Hn|Hn].
  - by rewrite <- app_assoc.
  - rewrite app_nil_r. by rewrite filter_drop_absent.
Qed.

Lemma Update_snd s now batch :
  (Update s now batch).2
  = filter (fun a => Get s a = None) (first_appearances (BSSID <$> batch)).
Proof.
  unfold Update, Get.
  destruct (foldl (Update_body now) (states s, []) batch) as [m news] eqn:E.
  simpl. replace news with (foldl (Update_body now) (states s, []) batch).2
    by (by rewrite E).
  by rewrite foldl_Update_body_news.
Qed.

Lemma first_appearances_elem (l : list string) a : a ∈ first_appearances l ↔ a ∈ l.
Proof.
  induction l as [|b l IH]; simpl; [done|].
  rewrite !elem_of_cons, list_elem_of_filter, IH.
  destruct (decide (a = b)); tauto.
Qed.

Lemma first_appearances_NoDup l : NoDup (first_appearances l).
Proof.
  induction l as [|b l IH]; simpl; constructor.
  - rewrite list_elem_of_filter. intros [Hne _]. by apply Hne.
  - by apply NoDup_filter.
Qed.

Lemma track_is_Some now a o batch :
  is_Some o ∨ a ∈ BSSID <$> batch → is_Some (track now a o batch).
Proof.
  unfold track. revert o. induction batch as [|net batch IH]; intros o H.
  - simpl in *. destruct H as [H|H]; [done|]. by apply elem_of_nil in H.
  - simpl. apply IH. case_decide as Hd; [by left; eexists|].
    destruct H as [H|H]; [by left|]. right.
    rewrite fmap_cons in H. apply elem_of_cons in H as [H|H]; congruence.
Qed.

End Tracker.

Section TrackerClaims.

(** C1.  [Update] returns exactly the addresses of the batch that had no
    state before the call, each once, in the order of their first appearance
    in the batch; and an address that is tracked or has just been submitted
    is not returned by the following [Update]. *)
Theorem Update_returns_newly_discovered (s : Session) (now : Z)
    (batch : list Network) :
  (Update s now batch).2
    = filter (fun a => Get s a = None) (first_appearances (BSSID <$> batch))
  ∧ NoDup (Update s now batch).2
  ∧ (∀ a, a ∈ (Update s now batch).2
          ↔ a ∈ BSSID <$> batch ∧ Get s a = None)
  ∧ (∀ a now' batch', is_Some (Get s a) ∨ a ∈ BSSID <$> batch →
       a ∉ (Update (Update s now batch).1 now' batch').2).
Proof.
  split_and!.
  - apply Update_snd.
  - rewrite Update_snd. apply NoDup_filter, first_appearances_NoDup.
  - intros a. rewrite Update_snd, list_elem_of_filter,
      first_appearances_elem. tauto.
  - intros a now' batch' H. rewrite Update_snd, list_elem_of_filter.
    intros [Hnone _]. rewrite Get_Update in Hnone.
    apply (track_is_Some now) in H. rewrite Hnone in H.
    by destruct H.
Qed.

(** *** The frame of an update *)

Lemma track_frame now a h batch :
  ∃ h', track now a (Some h) batch = Some h'
        ∧ FirstSeen h' = FirstSeen h ∧ ns_BSSID h' = ns_BSSID h
        ∧ MinSignal h' <= MinSignal h ∧ MaxSignal h <= MaxSignal h'.
Proof.
  unfold track. revert h. induction batch as [|net batch IH]; intros h.
  - exists h. simpl. repeat split; lia.
  - cbn [foldl]. destruct (decide (BSSID net = a)) as [_|_]; [|apply IH].
    destruct (IH (touch now (Some h) net)) as (h' & E & HF & HB & Hmin & Hmax).
    exists h'. split; [done|]. revert HF HB Hmin Hmax.
    unfold touch. cbn. intros -> -> Hmin Hmax. repeat split.
    + destruct (decide (Signal net < MinSignal h)); lia.
    + destruct (decide (Signal net > MaxSignal h)); lia.
Qed.

(** C10.  An update leaves [FirstSeen] and [BSSID] of a state that already
    exists as they were, whatever the batch holds. *)
Theorem Update_keeps_FirstSeen_and_BSSID (s : Session) (now : Z)
    (batch : list Network) (a : string) (h : NetworkState) :
  Get s a = Some h →
  ∃ h', Get (Update s now batch).1 a = Some h'
        ∧ FirstSeen h' = FirstSeen h ∧ ns_BSSID h' = ns_BSSID h.
Proof.
  intros Hget. rewrite Get_Update, Hget.
  destruct (track_frame now a h batch) as (h' & E & HF & HB & _).
  by exists h'.
Qed.

(** *** The invariant of a state *)

Lemma trimHistory_drop h : trimHistory h = drop (length h - 10) h.
Proof.
  unfold trimHistory, maxHistory. case_decide as H; [done|].
  replace (length h - 10)%nat with 0%nat by lia. done.
Qed.

Lemma trimHistory_length h : (length (trimHistory h) <= 10)%nat.
Proof. rewrite trimHistory_drop, length_drop. lia. Qed.

Lemma touch_ok now t o net :
  (∀ h, o = Some h → history_ok h ∧ ns_LastSeen h <= t) → t <= now →
  history_ok (touch now o net) ∧ ns_LastSeen (touch now o net) <= now.
Proof.
  intros Ho Ht. split; [|simpl; lia].
  unfold history_ok, touch. cbn. split_and!.
  - rewrite trimHistory_drop. apply Forall_drop, Forall_app. split.
    + destruct o as [h|]; simpl; [|constructor].
      destruct (Ho h eq_refl) as [(Hall & _ & _) _].
      eapply Forall_impl; [exact Hall|]. cbn. intros x Hx.
      repeat case_decide; lia.
    + constructor; [|constructor]. repeat case_decide; lia.
  - apply trimHistory_length.
  - destruct o as [h|]; simpl; [|lia].
    destruct (Ho h eq_refl) as [(_ & _ & Hfl) Hl]. lia.
Qed.

Lemma track_ok now a batch : ∀ t o,
  (∀ h, o = Some h → history_ok h ∧ ns_LastSeen h <= t) → t <= now →
  ∀ h, track now a o batch = Some h → history_ok h ∧ ns_LastSeen h <= now.
Proof.
  unfold track. induction batch as [|net batch IH]; intros t o Ho Ht h.
  - simpl. intros ->. destruct (Ho h eq_refl). split; [done|lia].
  - cbn [foldl]. destruct (decide (BSSID net = a)) as [_|_].
    + apply (IH now); [|lia]. intros h' [= <-].
      apply (touch_ok now t o net Ho Ht).
    + by apply (IH t).
Qed.

Lemma Update_ok t s now batch :
  session_ok t s → t <= now → session_ok now (Update s now batch).1.
Proof.
  intros Hs Ht a h. rewrite Get_Update.
  apply (track_ok now a batch t); [|done]. intros h'. apply Hs.
Qed.

Lemma run_ok calls : ∀ t s,
  session_ok t s → Sorted Z.le (t :: calls.*1) →
  ∃ t', session_ok t' (run s calls).
Proof.
  unfold run. induction calls as [|[now batch] calls IH]; intros t s Hs Hsorted.
  - by exists t.
  - cbn [foldl fst snd]. rewrite fmap_cons in Hsorted. cbn [fst] in Hsorted.
    apply Sorted_inv in Hsorted as [Hsorted Hhd].
    apply HdRel_inv in Hhd.
    apply (IH now); [by apply (Update_ok t)|done].
Qed.

(** C6.  In every session reached from the empty one by updates whose clock
    readings do not go back, each state has its readings between its extrema,
    holds at most 10 readings and was first seen no later than last seen;
    and across any updates [MinSignal] never grows and [MaxSignal] never
    shrinks. *)
Theorem tracker_invariant (calls : list (Z * list Network)) :
  Sorted Z.le calls.*1 →
  (∀ a h, Get (run NewSession calls) a = Some h →
     Forall (fun x => MinSignal h <= x <= MaxSignal h) (SignalHistory h)
     ∧ (length (SignalHistory h) <= 10)%nat
     ∧ FirstSeen h <= ns_LastSeen h)
  ∧ (∀ s now batch a h h',
       Get s a = Some h → Get (Update s now batch).1 a = Some h' →
       MinSignal h' <= MinSignal h ∧ MaxSignal h <= MaxSignal h').
Proof.
  intros Hsorted. split.
  - intros a h Hget.
    assert (∃ t, session_ok t (run NewSession calls)) as [t Hok].
    { destruct calls as [|[now batch] calls].
      - exists 0. intros a' h'. unfold Get. simpl. by rewrite lookup_empty.
      - apply (run_ok ((now, batch) :: calls) now).
        + intros a' h'. unfold Get. simpl. by rewrite lookup_empty.
        + constructor; [done|]. constructor. simpl. lia. }
    apply (Hok a h Hget).
  - intros s now batch a h h' Hget. rewrite Get_Update, Hget.
    destruct (track_frame now a h batch) as (h2 & -> & _ & _ & Hmin & Hmax).
    by intros [= <-].
Qed.

(** *** The window of readings *)

Lemma window_app l xs : window (window l ++ xs) = window (l ++ xs).
Proof.
  unfold window. destruct (decide (length l <= 10)%nat) as [Hl|Hl].
  { replace (length l - 10)%nat with 0%nat by lia. by rewrite drop_0. }
  rewrite !length_app, length_drop.
  replace (length l - (length l - 10) + length xs - 10)%nat
    with (length xs) by lia.
  replace (length l + length xs - 10)%nat
    with ((length l - 10) + length xs)%nat by lia.
  rewrite <- drop_drop. f_equal. rewrite drop_app_le by lia. done.
Qed.

Lemma window_full l xs :
  (10 <= length xs)%nat → window (l ++ xs) = drop (length xs - 10) xs.
Proof.
  intros H. unfold window. rewrite length_app.
  replace (length l + length xs - 10)%nat
    with (length l + (length xs - 10))%nat by lia.
  apply drop_app_add.
Qed.

Lemma touch_history now o net :
  SignalHistory (touch now o net) = window (history_of o ++ [Signal net]).
Proof.
  unfold touch, window. cbn. rewrite trimHistory_drop.
  by destruct o.
Qed.

Lemma track_history now a batch : ∀ o,
  signals_for a batch ≠ [] →
  ∃ h, track now a o batch = Some h
       ∧ SignalHistory h = window (history_of o ++ signals_for a batch).
Proof.
  unfold track, signals_for.
  induction batch as [|net batch IH]; intros o Hne; [done|].
  cbn [foldl]. rewrite filter_cons in *.
  destruct (decide (BSSID net = a)) as [Ha|Ha]; [|by apply IH].
  rewrite fmap_cons.
  destruct (decide (Signal <$> filter (fun n => BSSID n = a) batch = []))
    as [Hnil|Hcons].
  - rewrite Hnil. exists (touch now o net). split; [|apply touch_history].
    apply fmap_nil_inv in Hnil. clear -Hnil.
    generalize (Some (touch now o net)).
    induction batch as [|n batch IH]; intros o'; [done|].
    rewrite filter_cons in Hnil. cbn [foldl].
    destruct (decide (BSSID n = a)); [done|]. by apply IH.
  - destruct (IH (Some (touch now o net)) Hcons) as (h & E & Hh).
    exists h. split; [done|]. rewrite Hh. cbn [history_of from_option].
    rewrite touch_history, window_app, <- app_assoc. done.
Qed.

Lemma track_absent now a batch : ∀ o,
  signals_for a batch = [] → track now a o batch = o.
Proof.
  unfold track, signals_for.
  induction batch as [|net batch IH]; intros o Hnil; [done|].
  cbn [foldl]. rewrite filter_cons in Hnil.
  destruct (decide (BSSID net = a)); [done|]. by apply IH.
Qed.

Lemma run_cons s now batch calls :
  run s ((now, batch) :: calls) = run (Update s now batch).1 calls.
Proof. done. Qed.

Lemma run_absent a calls : ∀ s,
  concat (signals_for a <$> calls.*2) = [] →
  Get (run s calls) a = Get s a.
Proof.
  induction calls as [|[now batch] calls IH]; intros s Hnil; [done|].
  rewrite !fmap_cons in Hnil. cbn [snd concat] in Hnil.
  apply app_eq_nil in Hnil as [Hb Hrest].
  rewrite run_cons, IH, Get_Update by done. by apply track_absent.
Qed.

Lemma run_history a calls : ∀ s,
  concat (signals_for a <$> calls.*2) ≠ [] →
  ∃ h, Get (run s calls) a = Some h
       ∧ SignalHistory h
         = window (history_of (Get s a)
                   ++ concat (signals_for a <$> calls.*2)).
Proof.
  induction calls as [|[now batch] calls IH]; intros s Hne; [done|].
  rewrite !fmap_cons in *. cbn [snd concat] in *. rewrite run_cons.
  destruct (decide (signals_for a batch = [])) as [Hb|Hb].
  { rewrite Hb in *. cbn [app] in *.
    destruct (IH (Update s now batch).1 Hne) as (h & E & Hh).
    exists h. split; [done|]. rewrite Hh, Get_Update.
    by rewrite track_absent. }
  destruct (track_history now a batch (Get s a) Hb) as (h1 & E1 & Hh1).
  destruct (decide (concat (signals_for a <$> calls.*2) = [])) as [Hr|Hr].
  { rewrite Hr, app_nil_r. exists h1.
    by rewrite run_absent, Get_Update. }
  destruct (IH (Update s now batch).1 Hr) as (h & E & Hh).
  exists h. split; [done|]. rewrite Hh, Get_Update, E1.
  cbn [history_of from_option]. by rewrite Hh1, window_app, app_assoc.
Qed.

(** C7.  After more than 10 updates, each carrying one reading for the
    address, the state holds exactly 10 readings: the 10 submitted last, in
    the order of their arrival. *)
Theorem history_keeps_last_10 (s : Session) (a : string)
    (calls : list (Z * list Network)) :
  Forall (fun c => length (signals_for a c.2) = 1%nat) calls →
  (10 < length calls)%nat →
  length (concat (signals_for a <$> calls.*2)) = length calls
  ∧ ∃ h, Get (run s calls) a = Some h
         ∧ length (SignalHistory h) = 10%nat
         ∧ SignalHistory h
           = drop (length calls - 10) (concat (signals_for a <$> calls.*2)).
Proof.
  intros Hone Hlen.
  assert (length (concat (signals_for a <$> calls.*2)) = length calls)
    as Hsub.
  { clear Hlen. induction Hone as [|[now batch] calls H1 _ IH]; [done|].
    rewrite !fmap_cons. cbn [snd concat length] in *.
    rewrite length_app. lia. }
  split; [done|].
  destruct (run_history a calls s) as (h & E & Hh).
  { intros Hnil. rewrite Hnil in Hsub. simpl in Hsub. lia. }
  exists h. split; [done|].
  rewrite window_full in Hh by lia. rewrite Hsub in Hh.
  split; [|done]. rewrite Hh, length_drop. lia.
Qed.

Lemma Update_keeps_FirstSeen_and_BSSID_witness :
  ∃ h', Get (Update (Update NewSession 1 [sighting "AA:BB:CC:DD:EE:FF" (-40)]).1
               2 [sighting "AA:BB:CC:DD:EE:FF" (-70)]).1 "AA:BB:CC:DD:EE:FF"
          = Some h'
        ∧ FirstSeen h' = 1 ∧ ns_BSSID h' = "AA:BB:CC:DD:EE:FF".
Proof.
  apply (Update_keeps_FirstSeen_and_BSSID
           (Update NewSession 1 [sighting "AA:BB:CC:DD:EE:FF" (-40)]).1
           2 [sighting "AA:BB:CC:DD:EE:FF" (-70)] "AA:BB:CC:DD:EE:FF"
           (mkNetworkState "AA:BB:CC:DD:EE:FF" 1 1 [-40] (-40) (-40))).
  vm_compute. reflexivity.
Defined.

Lemma tracker_invariant_witness :
  Sorted Z.le fifteen_calls.*1
  ∧ (∀ a h, Get (run NewSession fifteen_calls) a = Some h →
       Forall (fun x => MinSignal h <= x <= MaxSignal h) (SignalHistory h)
       ∧ (length (SignalHistory h) <= 10)%nat
       ∧ FirstSeen h <= ns_LastSeen h).
Proof.
  assert (Sorted Z.le fifteen_calls.*1) as Hsorted
    by (vm_compute; repeat constructor; discriminate).
  split; [exact Hsorted|].
  apply (tracker_invariant fifteen_calls Hsorted).
Defined.

Lemma history_keeps_last_10_witness :
  length (concat (signals_for "AA:BB:CC:DD:EE:FF" <$> fifteen_calls.*2))
  = length fifteen_calls
  ∧ ∃ h, Get (run NewSession fifteen_calls) "AA:BB:CC:DD:EE:FF" = Some h
       ∧ length (SignalHistory h) = 10%nat
       ∧ SignalHistory h
         = drop (length fifteen_calls - 10)
             (concat (signals_for "AA:BB:CC:DD:EE:FF" <$> fifteen_calls.*2)).
Proof.
  apply (history_keeps_last_10 NewSession "AA:BB:CC:DD:EE:FF" fifteen_calls).
  - vm_compute. repeat constructor.
  - vm_compute. lia.
Defined.

(** The examples of the specification: the first update reports the address,
    the second does not; the extrema of [-40; -70; -55] do not depend on the
    order of arrival; fifteen updates leave the last ten readings. *)
Example Update_twice :
  (Update NewSession 1 [sighting "AA:BB:CC:DD:EE:FF" (-40)]).2
    = ["AA:BB:CC:DD:EE:FF"]
  ∧ (Update (Update NewSession 1 [sighting "AA:BB:CC:DD:EE:FF" (-40)]).1
       2 [sighting "AA:BB:CC:DD:EE:FF" (-41)]).2 = [].
Proof. split; vm_compute; reflexivity. Qed.

Example extrema_any_order :
  Forall (fun sigs =>
    (fun h => (MinSignal h, MaxSignal h))
      <$> Get (run NewSession
                 (map (fun x => (0, [sighting "AA:BB:CC:DD:EE:FF" x])) sigs))
              "AA:BB:CC:DD:EE:FF"
    = Some (-70, -40))
    [[-40; -70; -55]; [-40; -55; -70]; [-70; -40; -55];
     [-70; -55; -40]; [-55; -40; -70]; [-55; -70; -40]].
Proof. repeat (constructor; [vm_compute; reflexivity|]). constructor. Qed.

Example fifteen_updates :
  SignalHistory <$> Get (run NewSession fifteen_calls) "AA:BB:CC:DD:EE:FF"
  = Some [-35; -36; -37; -38; -39; -40; -41; -42; -43; -44].
Proof. vm_compute. reflexivity. Qed.

End TrackerClaims.

(** * Properties of the sparkline *)

Section SparklineClaims.

Lemma wrap64_id z : minInt64 <= z <= maxInt64 → wrap64 z = z.
Proof.
  unfold wrap64, minInt64, maxInt64. intros H.
  rewrite Z.mod_small by lia. lia.
Qed.

Lemma sparkIndex_trunc s :
  minInt64 <= (s + 100) * 7 <= maxInt64 → sparkIndex s = trunc_level s.
Proof.
  intros H. unfold sparkIndex, trunc_level, clamp.
  assert (minInt64 <= s + 100 <= maxInt64) as H1
    by (unfold minInt64, maxInt64 in *; lia).
  rewrite (wrap64_id (s + 100)) by done.
  rewrite wrap64_id by done.
  repeat case_decide; lia.
Qed.

Lemma sparkIndex_bounds s : 0 <= sparkIndex s <= 7.
Proof. unfold sparkIndex. repeat case_decide; lia. Qed.

Lemma Sparkline_map ns :
  Sparkline ns = map (fun sig => glyph (sparkIndex sig)) (SignalHistory ns).
Proof.
  unfold Sparkline. case_decide as H; [|done].
  by apply nil_length_inv in H as ->.
Qed.

(** C8, as the code has it.  [Sparkline] renders one glyph per reading, none
    for an empty history; the level of a reading [s] whose scaled value
    [(s + 100) * 7] fits the 64-bit integer is
    [clamp((s + 100) * 7 / 80, 0, 7)] with the division truncating toward
    zero; the reading -100 gives level 0, the first glyph, and -20 gives
    level 7, the last. *)
Theorem Sparkline_levels (ns : NetworkState) :
  length (Sparkline ns) = length (SignalHistory ns)
  ∧ (SignalHistory ns = [] → Sparkline ns = [])
  ∧ (∀ i s, SignalHistory ns !! i = Some s →
       ∃ level, 0 <= level <= 7
         ∧ Sparkline ns !! i = sparkBlocks !! Z.to_nat level
         ∧ (minInt64 <= (s + 100) * 7 <= maxInt64 →
            level = clamp 0 7 (Z.quot ((s + 100) * 7) 80)))
  ∧ Sparkline (state_of_history [-100]) = [9601]
  ∧ Sparkline (state_of_history [-20]) = [9608].
Proof.
  split_and!.
  - by rewrite Sparkline_map, length_map.
  - intros H. by rewrite Sparkline_map, H.
  - intros i s Hs. exists (sparkIndex s).
    pose proof (sparkIndex_bounds s) as Hb. split_and!; [lia|lia| |].
    + rewrite Sparkline_map.
      change (map ?f ?l) with (f <$> l). rewrite list_lookup_fmap, Hs.
      cbn [fmap option_fmap option_map]. unfold glyph.
      assert (Z.to_nat (sparkIndex s) < length sparkBlocks)%nat as Hlt
        by (simpl; lia).
      apply lookup_lt_is_Some in Hlt as [g Hg]. rewrite Hg. f_equal.
      by apply nth_lookup_Some with (d := 0) in Hg.
    + apply sparkIndex_trunc.
  - reflexivity.
  - reflexivity.
Qed.

(** C8 as the specification words it fails: the reading -21 scales to
    553 / 80 = 6.9125, whose nearest integer is 7, and [Sparkline] renders
    level 6. *)
Lemma Sparkline_does_not_round :
  Sparkline (state_of_history [-21]) = [glyph 6]
  ∧ map (fun s => glyph (spec_level s)) [-21] = [glyph 7]
  ∧ 2 * Z.abs ((-21 + 100) * 7 - 80 * 7) < 80
  ∧ Sparkline (state_of_history [-21])
    ≠ map (fun s => glyph (spec_level s))
          (SignalHistory (state_of_history [-21])).
Proof. split_and!; [reflexivity|reflexivity|reflexivity|discriminate]. Qed.

End SparklineClaims.

(** * Properties of the parser *)

Section Strings.

Local Open Scope string_scope.

Lemma append_cons c (s t : string) : String c s +:+ t = String c (s +:+ t).
Proof. reflexivity. Qed.

Lemma append_nil_l (s : string) : "" +:+ s = s.
Proof. reflexivity. Qed.

Lemma append_nil_r (s : string) : s +:+ "" = s.
Proof.
  induction s as [|c s IH]; [done|]. by rewrite append_cons, IH.
Qed.

Lemma append_assoc (s1 s2 s3 : string) :
  (s1 +:+ s2) +:+ s3 = s1 +:+ (s2 +:+ s3).
Proof.
  induction s1 as [|c s1 IH]; [done|]. by rewrite !append_cons, IH.
Qed.

Lemma stripPrefix_Some p : ∀ s r,
  stripPrefix p s = Some r ↔ s = p +:+ r.
Proof.
  induction p as [|a p IH]; intros s r; cbn [stripPrefix].
  - rewrite append_nil_l. split; [by intros [= ->]|by intros ->].
  - rewrite append_cons. destruct s as [|b s]; [split; discriminate|].
    destruct (Ascii.eqb_spec a b) as [->|Hne].
    + rewrite IH. split; [by intros ->|by intros [= ->]].
    + split; [discriminate|]. intros [= -> _]. by destruct Hne.
Qed.

Lemma stripPrefix_app p r : stripPrefix p (p +:+ r) = Some r.
Proof. by apply stripPrefix_Some. Qed.

Lemma strings_Contains_occurs s sub :
  strings_Contains s sub = true ↔ occurs sub s.
Proof.
  unfold occurs. split.
  - induction s as [|c s IH]; cbn [strings_Contains].
    + destruct (stripPrefix sub "") as [r|] eqn:E; [|discriminate].
      intros _. apply stripPrefix_Some in E. by exists "", r.
    + destruct (stripPrefix sub (String c s)) as [r|] eqn:E.
      * intros _. apply stripPrefix_Some in E. by exists "", r.
      * intros H. destruct (IH H) as (pre & post & ->).
        by exists (String c pre), post.
  - intros (pre & post & ->). induction pre as [|c pre IH].
    + rewrite append_nil_l.
      destruct (sub +:+ post) eqn:E; cbn [strings_Contains];
        rewrite <- E, stripPrefix_app; done.
    + rewrite append_cons. cbn [strings_Contains].
      by destruct (stripPrefix sub (String c (pre +:+ sub +:+ post))).
Qed.

Lemma strings_Contains_false s sub :
  strings_Contains s sub = false ↔ ¬ occurs sub s.
Proof.
  rewrite <- strings_Contains_occurs. by destruct (strings_Contains s sub).
Qed.

End Strings.

Section ParserClaims.

Local Open Scope string_scope.

(** C3.  The security label follows the precedence of the markers: [SAE]
    gives WPA3 whatever else occurs; otherwise [RSN:] with [WPA:] gives
    WPA2/WPA, [RSN:] alone WPA2, [WPA:] alone WPA, otherwise [Privacy] gives
    WEP, and a block with none of them is OPEN. *)
Theorem parseSecurity_precedence (block : string) :
  (occurs "SAE" block → parseSecurity block = "WPA3")
  ∧ (¬ occurs "SAE" block → occurs "RSN:" block → occurs "WPA:" block →
     parseSecurity block = "WPA2/WPA")
  ∧ (¬ occurs "SAE" block → occurs "RSN:" block → ¬ occurs "WPA:" block →
     parseSecurity block = "WPA2")
  ∧ (¬ occurs "SAE" block → ¬ occurs "RSN:" block → occurs "WPA:" block →
     parseSecurity block = "WPA")
  ∧ (¬ occurs "SAE" block → ¬ occurs "RSN:" block → ¬ occurs "WPA:" block →
     occurs "Privacy" block → parseSecurity block = "WEP")
  ∧ (¬ occurs "SAE" block → ¬ occurs "RSN:" block → ¬ occurs "WPA:" block →
     ¬ occurs "Privacy" block → parseSecurity block = "OPEN").
Proof.
  unfold parseSecurity.
  split_and!; intros;
    repeat match goal with
    | H : occurs _ _ |- _ => apply strings_Contains_occurs in H; rewrite H
    | H : ¬ occurs _ _ |- _ => apply strings_Contains_false in H; rewrite H
    end; reflexivity.
Qed.

(** *** Searching and reading numbers *)



Lemma findFirst_None {X} (m : string → option X) s :
  findFirst m s = None → ∀ p1 p2, s = p1 +:+ p2 → m p2 = None.
Proof.
  intros H p1. revert s H. induction p1 as [|c p1 IH]; intros s H p2 ->.
  - rewrite append_nil_l in H. destruct p2; cbn [findFirst] in H;
      by destruct (m _).
  - rewrite append_cons in H. cbn [findFirst] in H.
    destruct (m (String c (p1 +:+ p2))); [done|]. by apply (IH _ H).
Qed.



Lemma reDigits_Some s d :
  reDigits s = Some d → ∃ c r, s = String c r ∧ isDigit c = true.
Proof.
  unfold reDigits. destruct s as [|c r]; [done|]. simpl.
  destruct (isDigit c) eqn:E; [|done]. intros _. by exists c, r.
Qed.

Lemma digitsValue_decimal ds : ∀ acc,
  allDigits ds = true →
  digitsValue acc ds
  = Some (acc * 10 ^ Z.of_nat (String.length ds) + decimalValue ds).
Proof.
  induction ds as [|c ds IH]; intros acc Hds; simpl in *.
  - f_equal. lia.
  - apply andb_prop in Hds as [Hc Hds]. rewrite Hc, IH by done. f_equal.
    rewrite Nat2Z.inj_succ, Z.pow_succ_r by lia. lia.
Qed.

Lemma decimalValue_nonneg ds : allDigits ds = true → 0 <= decimalValue ds.
Proof.
  induction ds as [|c ds IH]; simpl; [lia|].
  intros [Hc Hds]%andb_prop. specialize (IH Hds).
  unfold isDigit, in_range in Hc.
  apply andb_prop in Hc as [H1%N.leb_le H2].
  assert (0 <= 10 ^ Z.of_nat (String.length ds)) by (apply Z.pow_nonneg; lia).
  nia.
Qed.

Lemma strconv_Atoi_digits ds :
  ds ≠ "" → allDigits ds = true →
  strconv_Atoi ds = Z.min (decimalValue ds) maxInt64.
Proof.
  intros Hne Hds. pose proof (decimalValue_nonneg ds Hds) as Hpos.
  pose proof (digitsValue_decimal ds 0 Hds) as Hv.
  rewrite Z.mul_0_l, Z.add_0_l in Hv.
  destruct ds as [|c ds]; [done|].
  assert (isDigit c = true) as Hc by (simpl in Hds; by apply andb_prop in Hds as [? _]).
  unfold strconv_Atoi.
  assert (c ≠ "-"%char ∧ c ≠ "+"%char) as [Hm Hp]
    by (split; intros ->; discriminate).
  assert (∀ (X : Type) (k1 k2 : string → X) (k3 : X),
            match String c ds with
            | String "-"%char r => k1 r
            | String "+"%char r => k2 r
            | _ => k3
            end = k3) as Hmatch.
  { intros X k1 k2 k3.
    destruct c as [[] [] [] [] [] [] [] []]; try reflexivity;
      by (exfalso; (apply Hm || apply Hp)). }
  rewrite Hmatch. rewrite Hv.
  unfold minInt64, maxInt64 in *. repeat case_decide; lia.
Qed.

(** *** The channel *)

Lemma reChannel_at_Some s ds :
  reChannel_at s = Some ds →
  ∃ d r, s = channelMarker +:+ String d r ∧ isDigit d = true.
Proof.
  unfold reChannel_at. fold channelMarker.
  destruct (stripPrefix channelMarker s) as [t|] eqn:E; [|done].
  apply stripPrefix_Some in E as ->.
  intros (d & r & -> & Hd)%reDigits_Some. by exists d, r.
Qed.



Lemma reChannel_absent block :
  ¬ marker_present block → reChannel block = None.
Proof.
  intros Hno. unfold reChannel.
  destruct (findFirst reChannel_at block) as [g|] eqn:E; [|done].
  destruct Hno. clear -E. induction block as [|c block IH].
  - cbn [findFirst] in E. destruct (reChannel_at "") eqn:E1; [|done].
    apply reChannel_at_Some in E1 as (d & r & E1 & _). discriminate E1.
  - cbn [findFirst] in E.
    destruct (reChannel_at (String c block)) as [g'|] eqn:E1.
    + apply reChannel_at_Some in E1 as (d & r & E1 & Hd).
      by exists "", d, r.
    + destruct (IH E) as (pre & d & r & -> & Hd).
      by exists (String c pre), d, r.
Qed.



End ParserClaims.

(** * Properties of [sort.Slice] *)

Section SwapProperties.

Context {A : Type}.
Implicit Types data : list A.

Local Open Scope nat_scope.

Lemma Swap_length data i j : length (Swap data i j) = length data.
Proof.
  unfold Swap. destruct (data !! i), (data !! j); try done.
  by rewrite !length_insert.
Qed.

Lemma Swap_lookup data i j k :
  i < length data → j < length data →
  Swap data i j !! k
  = if decide (k = i) then data !! j
    else if decide (k = j) then data !! i
    else data !! k.
Proof.
  intros Hi Hj. unfold Swap.
  destruct (lookup_lt_is_Some_2 _ _ Hi) as [x Hx].
  destruct (lookup_lt_is_Some_2 _ _ Hj) as [y Hy].
  rewrite Hx, Hy.
  destruct (decide (k = i)) as [->|Hki].
  - rewrite list_lookup_insert_eq by (by rewrite length_insert). done.
  - rewrite list_lookup_insert_ne by done.
    destruct (decide (k = j)) as [->|Hkj].
    + by rewrite list_lookup_insert_eq.
    + by rewrite list_lookup_insert_ne.
Qed.

Lemma Swap_self data i : Swap data i i = data.
Proof.
  unfold Swap. destruct (data !! i) as [x|] eqn:E; [|done].
  rewrite list_insert_insert_eq. by apply list_insert_id.
Qed.

Lemma Swap_Permutation data i j : Swap data i j ≡ₚ data.
Proof.
  destruct (decide (i < length data)) as [Hi|Hi].
  2:{ unfold Swap. by rewrite (lookup_ge_None_2 data i) by lia. }
  destruct (decide (j < length data)) as [Hj|Hj].
  2:{ unfold Swap. rewrite (lookup_ge_None_2 data j) by lia.
      by destruct (data !! i). }
  apply Permutation_inj. split; [apply Swap_length|].
  exists (fun k => if decide (k = i) then j
                   else if decide (k = j) then i else k).
  split.
  - intros k1 k2. repeat case_decide; lia.
  - intros k. rewrite Swap_lookup by done.
    repeat case_decide; by subst.
Qed.

Lemma swaps_in_trans a b data1 data2 data3 :
  swaps_in a b data1 data2 → swaps_in a b data2 data3 →
  swaps_in a b data1 data3.
Proof.
  induction 1 as [|d i j d' Hi Hj Hli Hlj _ IH]; [done|].
  intros H. eapply swaps_step; [exact Hi|exact Hj|done|done|by apply IH].
Qed.

Lemma swaps_in_one a b data i j :
  a <= i < b → a <= j < b → i < length data → j < length data →
  swaps_in a b data (Swap data i j).
Proof.
  intros. apply (swaps_step a b data i j); [done..|constructor].
Qed.

Lemma swaps_in_mono a b a' b' data data' :
  a' <= a → b <= b' → swaps_in a b data data' → swaps_in a' b' data data'.
Proof.
  intros Ha Hb. induction 1 as [|d i j d' Hi Hj Hli Hlj _ IH];
    [constructor|].
  apply (swaps_step a' b' d i j); [lia..|exact IH].
Qed.

Lemma swaps_in_length a b data data' :
  swaps_in a b data data' → length data' = length data.
Proof.
  induction 1 as [|d i j d' Hi Hj Hli Hlj _ IH]; [done|].
  by rewrite IH, Swap_length.
Qed.

Lemma swaps_in_Permutation a b data data' :
  swaps_in a b data data' → data' ≡ₚ data.
Proof.
  induction 1 as [|d i j d' Hi Hj Hli Hlj _ IH]; [done|].
  by rewrite IH, Swap_Permutation.
Qed.

Lemma swaps_in_outside a b data data' k :
  swaps_in a b data data' → ¬ (a <= k < b) → data' !! k = data !! k.
Proof.
  induction 1 as [|d i j d' Hi Hj Hli Hlj _ IH]; [done|].
  intros Hk. rewrite IH, Swap_lookup by done.
  repeat case_decide; try done; lia.
Qed.

Lemma swaps_in_transfer a b data data' (P : option A → Prop) :
  swaps_in a b data data' →
  (∀ k, a <= k < b → P (data !! k)) → ∀ k, a <= k < b → P (data' !! k).
Proof.
  induction 1 as [|d i j d' Hi Hj Hli Hlj _ IH]; [done|].
  intros HP. apply IH. intros k Hk. rewrite Swap_lookup by done.
  repeat case_decide; by apply HP.
Qed.

End SwapProperties.

Section SortCorrect.

Context {A : Type} (less : A → A → bool) (key : A → Z).
Hypothesis less_key : ∀ x y, less x y = bool_decide (key x < key y).
Implicit Types data d : list A.

Local Open Scope nat_scope.


Lemma keyAt_Swap d i j k :
  i < length d → j < length d →
  keyAt key (Swap d i j) k
  = if decide (k = i) then keyAt key d j
    else if decide (k = j) then keyAt key d i
    else keyAt key d k.
Proof.
  intros Hi Hj. unfold keyAt. rewrite Swap_lookup by done.
  by repeat case_decide.
Qed.

Lemma Less_key d i j :
  i < length d → j < length d →
  Less less d i j = bool_decide (keyAt key d i < keyAt key d j)%Z.
Proof.
  intros Hi Hj. unfold Less, keyAt.
  destruct (lookup_lt_is_Some_2 _ _ Hi) as [x ->].
  destruct (lookup_lt_is_Some_2 _ _ Hj) as [y ->].
  apply less_key.
Qed.

Lemma swaps_in_keyAt_outside a b d d' k :
  swaps_in a b d d' → ¬ (a <= k < b) → keyAt key d' k = keyAt key d k.
Proof.
  intros H Hk. unfold keyAt.
  by rewrite (swaps_in_outside a b d d' k).
Qed.

Lemma swaps_in_keys a b d d' (P : Z → Prop) :
  swaps_in a b d d' →
  (∀ k, a <= k < b → P (keyAt key d k)) → ∀ k, a <= k < b → P (keyAt key d' k).
Proof.
  intros H. apply (swaps_in_transfer a b d d' (fun o => P (from_option key 0%Z o)) H).
Qed.

Lemma sorted_range_outside a b a' b' d d' :
  swaps_in a' b' d d' → (b <= a' ∨ b' <= a) →
  sorted_range key d a b → sorted_range key d' a b.
Proof.
  intros H Hdisj Hs i j Hi Hij Hj.
  rewrite !(swaps_in_keyAt_outside a' b' d d') by (done || lia).
  by apply Hs.
Qed.

Lemma bounded_below_swaps a b d d' :
  swaps_in a b d d' → bounded_below key d a b → bounded_below key d' a b.
Proof.
  intros H Hb k Ha Hk1 Hk2.
  rewrite (swaps_in_keyAt_outside a b d d' (a - 1)) by (done || lia).
  apply (swaps_in_keys a b d d' (fun x => keyAt key d (a - 1) <= x)%Z H);
    [|lia].
  intros k' Hk'. apply Hb; lia.
Qed.

(** *** Insertion sort *)

Lemma insertDown_spec i : ∀ j d a,
  a <= j → j <= i → i < length d →
  sorted_range key d a j → sorted_range key d j (i + 1) →
  (∀ p q, a <= p → p < j → j < q → q <= i → (keyAt key d p <= keyAt key d q)%Z) →
  swaps_in a (i + 1) d (insertDown less d a j)
  ∧ sorted_range key (insertDown less d a j) a (i + 1).
Proof.
  induction j as [|j IH]; intros d a Haj Hji Hlen Hlo Hhi Hcross.
  { cbn [insertDown]. split; [constructor|].
    intros p q Hp Hpq Hq. apply Hhi; lia. }
  cbn [insertDown].
  destruct (decide (a < S j)) as [Ha|Ha].
  2:{ replace (a <? S j) with false by (symmetry; apply Nat.ltb_ge; lia).
      cbn [andb]. split; [constructor|].
      intros p q Hp Hpq Hq. apply Hhi; lia. }
  replace (a <? S j) with true by (symmetry; apply Nat.ltb_lt; lia).
  cbn [andb]. rewrite Less_key by lia.
  case_bool_decide as Hlt.
  - assert (swaps_in a (i + 1) d (Swap d (S j) j)) as Hsw
      by (apply swaps_in_one; lia).
    destruct (IH (Swap d (S j) j) a) as [Hs1 Hs2]; try lia.
    + by rewrite Swap_length.
    + intros p q Hp Hpq Hq. rewrite !keyAt_Swap by lia.
      repeat case_decide; by_keys.
    + intros p q Hp Hpq Hq. rewrite !keyAt_Swap by lia.
      repeat case_decide; by_keys.
    + intros p q Hp Hpj Hq Hqi. rewrite !keyAt_Swap by lia.
      repeat case_decide; by_keys.
    + split; [|done]. by eapply swaps_in_trans.
  - split; [constructor|]. intros p q Hp Hpq Hq.
    destruct (decide (q < S j)) as [Hq1|Hq1]; [apply Hlo; lia|].
    destruct (decide (S j <= p)) as [Hp1|Hp1]; [apply Hhi; lia|].
    destruct (decide (q = S j)) as [->|Hq2].
    + assert (keyAt key d p <= keyAt key d j)%Z by (apply Hlo; lia). lia.
    + apply Hcross; lia.
Qed.

Lemma insertionSort_spec d a b :
  b <= length d →
  swaps_in a b d (insertionSort less d a b)
  ∧ sorted_range key (insertionSort less d a b) a b.
Proof.
  intros Hb. unfold insertionSort.
  destruct (decide (b <= a + 1)) as [Hs|Hs].
  { replace (b - (a + 1)) with 0 by lia. cbn. split; [constructor|].
    intros p q Hp Hpq Hq. replace q with p by lia. lia. }
  assert (∀ n d, a + 1 + n <= b → b <= length d →
            sorted_range key d a (a + 1) →
            swaps_in a (a + 1 + n) d
              (foldl (fun d i => insertDown less d a i) d (seq (a + 1) n))
            ∧ sorted_range key
                (foldl (fun d i => insertDown less d a i) d (seq (a + 1) n))
                a (a + 1 + n)) as Hloop.
  { clear d Hb. intros n. induction n as [|n IH]; intros d Hn Hb Hinit.
    { cbn. replace (a + 1 + 0) with (a + 1) by lia. split; [constructor|done]. }
    rewrite seq_S, foldl_app. cbn [foldl].
    destruct (IH d) as [Hs1 Hs2]; [lia|done|done|].
    set (d1 := foldl (fun d i => insertDown less d a i) d (seq (a + 1) n))
      in *.
    assert (length d1 = length d) as Hl1 by (by eapply swaps_in_length).
    destruct (insertDown_spec (a + 1 + n) (a + 1 + n) d1 a) as [Ht1 Ht2];
      try lia; try done.
    - intros p q Hp Hpq Hq. replace q with p by lia. lia.
    - replace (a + 1 + S n) with (a + 1 + n + 1) by lia. split; [|done].
      eapply swaps_in_trans; [|exact Ht1].
      eapply swaps_in_mono; [| |exact Hs1]; lia. }
  destruct (Hloop (b - (a + 1)) d) as [H1 H2]; [lia|done| |].
  { intros p q Hp Hpq Hq. replace q with p by lia. lia. }
  replace (a + 1 + (b - (a + 1))) with b in * by lia. done.
Qed.

(** *** Partitioning *)

Lemma scanUp_spec p j : ∀ fuel i,
  j + 1 - i <= fuel →
  i <= scanUp fuel p i j
  ∧ scanUp fuel p i j <= Nat.max i (j + 1)
  ∧ (∀ k, i <= k → k < scanUp fuel p i j → p k = true)
  ∧ (scanUp fuel p i j <= j → p (scanUp fuel p i j) = false).
Proof.
  induction fuel as [|fuel IH]; intros i Hf; cbn [scanUp].
  { split_and!; try lia. }
  destruct (decide (i <= j)) as [Hij|Hij].
  2:{ replace (i <=? j) with false by (symmetry; apply Nat.leb_gt; lia).
      cbn [andb]. split_and!; lia. }
  replace (i <=? j) with true by (symmetry; apply Nat.leb_le; lia).
  cbn [andb]. destruct (p i) eqn:Hp.
  - destruct (IH (i + 1)) as (H1 & H2 & H3 & H4); [lia|].
    split_and!; [lia|lia| |done].
    intros k Hk1 Hk2. destruct (decide (k = i)) as [->|]; [done|].
    apply H3; lia.
  - split_and!; [lia|lia|lia|done].
Qed.

Lemma scanDown_spec p i : 1 <= i → ∀ fuel j,
  j + 1 - i <= fuel →
  scanDown fuel p i j <= j
  ∧ (i <= j + 1 → i <= scanDown fuel p i j + 1)
  ∧ (∀ k, scanDown fuel p i j < k → k <= j → p k = true)
  ∧ (i <= scanDown fuel p i j → p (scanDown fuel p i j) = false).
Proof.
  intros Hi. induction fuel as [|fuel IH]; intros j Hf; cbn [scanDown].
  { split_and!; lia. }
  destruct (decide (i <= j)) as [Hij|Hij].
  2:{ replace (i <=? j) with false by (symmetry; apply Nat.leb_gt; lia).
      cbn [andb]. split_and!; lia. }
  replace (i <=? j) with true by (symmetry; apply Nat.leb_le; lia).
  cbn [andb]. destruct (p j) eqn:Hp.
  - destruct (IH (j - 1)) as (H1 & H2 & H3 & H4); [lia|].
    split_and!; [lia|lia| |done].
    intros k Hk1 Hk2. destruct (decide (k = j)) as [->|]; [done|].
    apply H3; lia.
  - split_and!; [lia|lia|lia|done].
Qed.

Section PartitionLoop.

Variables (a b n : nat) (pk : Z) (L : Z → bool).
Variables (pi pj : list A → nat → bool).
Hypothesis Hpi : ∀ d k, length d = n → k < n → keyAt key d a = pk →
  pi d k = L (keyAt key d k).
Hypothesis Hpj : ∀ d k, length d = n → k < n → keyAt key d a = pk →
  pj d k = negb (L (keyAt key d k)).

Lemma partitionLoop_spec : ∀ fuel d i j,
  length d = n → a + 1 <= i → i <= j + 1 → j < b → b <= n →
  keyAt key d a = pk → j + 2 - i <= fuel →
  (∀ k, a + 1 <= k → k < i → L (keyAt key d k) = true) →
  (∀ k, j < k → k < b → L (keyAt key d k) = false) →
  ∃ d' i' j', partitionLoop fuel pi pj d i j = (d', i', j')
    ∧ i' = j' + 1 ∧ a + 1 <= i' ∧ i' <= b
    ∧ swaps_in (a + 1) b d d'
    ∧ (∀ k, a + 1 <= k → k < i' → L (keyAt key d' k) = true)
    ∧ (∀ k, i' <= k → k < b → L (keyAt key d' k) = false).
Proof.
  induction fuel as [|fuel IH];
    intros d i j Hn Hai Hij Hjb Hbn Hpk Hf Hleft Hright; [lia|].
  cbn [partitionLoop]. rewrite Hn.
  destruct (scanUp_spec (pi d) j n i) as (U1 & U2 & U3 & U4); [lia|].
  set (i1 := scanUp n (pi d) i j) in *.
  destruct (scanDown_spec (pj d) i1 ltac:(lia) n j) as (D1 & D2 & D3 & D4);
    [lia|].
  set (j1 := scanDown n (pj d) i1 j) in *.
  assert (∀ k, a + 1 <= k → k < i1 → L (keyAt key d k) = true) as Hleft1.
  { intros k Hk1 Hk2. destruct (decide (k < i)); [by apply Hleft|].
    rewrite <- Hpi by (done || lia). apply U3; lia. }
  assert (∀ k, j1 < k → k < b → L (keyAt key d k) = false) as Hright1.
  { intros k Hk1 Hk2. destruct (decide (j < k)); [by apply Hright|].
    apply negb_true_iff. rewrite <- Hpj by (done || lia). apply D3; lia. }
  destruct (decide (j1 < i1)) as [Hlt|Hge].
  - replace (j1 <? i1) with true by (symmetry; apply Nat.ltb_lt; lia).
    exists d, i1, j1. split; [done|].
    split_and!; [lia|lia|lia|constructor|done|].
    intros k Hk1 Hk2. apply Hright1; lia.
  - replace (j1 <? i1) with false by (symmetry; apply Nat.ltb_ge; lia).
    assert (L (keyAt key d i1) = false) as Hi1.
    { rewrite <- Hpi by (done || lia). apply U4. lia. }
    assert (L (keyAt key d j1) = true) as Hj1.
    { apply negb_false_iff. rewrite <- Hpj by (done || lia). apply D4. lia. }
    assert (i1 ≠ j1) as Hne by (intros E; rewrite E in Hi1; congruence).
    destruct (IH (Swap d i1 j1) (i1 + 1) (j1 - 1))
      as (d' & i' & j' & E & R1 & R2 & R3 & R4 & R5 & R6);
      try lia.
    + by rewrite Swap_length.
    + rewrite keyAt_Swap by lia. repeat case_decide; lia.
    + intros k Hk1 Hk2. rewrite keyAt_Swap by lia.
      repeat case_decide; first [done|lia|apply Hleft1; lia].
    + intros k Hk1 Hk2. rewrite keyAt_Swap by lia.
      repeat case_decide; first [done|lia|apply Hright1; lia].
    + exists d', i', j'. split; [done|].
      split_and!; [lia|lia|lia| |done|done].
      eapply swaps_in_trans; [|exact R4]. apply swaps_in_one; lia.
Qed.

End PartitionLoop.

Lemma partition_unfold d a b pivot :
  (partition less d a b pivot).1
  = (let '(d', i', j') :=
       partitionLoop (S (length d))
         (fun d i => Less less d i a) (fun d j => negb (Less less d j a))
         (Swap d a pivot) (a + 1) (b - 1) in
     (Swap d' j' a, j')).
Proof.
  unfold partition. cbn [partitionLoop]. rewrite !Swap_length.
  match goal with |- context [if ?c then _ else _] => destruct c end;
    [done|].
  by destruct (partitionLoop _ _ _ _ _ _) as [[d' i'] j'].
Qed.

Lemma partition_spec d a b pivot :
  a <= pivot → pivot < b → b <= length d →
  ∃ d' mid flag, partition less d a b pivot = (d', mid, flag)
    ∧ a <= mid ∧ mid < b
    ∧ swaps_in a b d d'
    ∧ (∀ k, a <= k → k < mid → (keyAt key d' k < keyAt key d' mid)%Z)
    ∧ (∀ k, mid < k → k < b → (keyAt key d' mid <= keyAt key d' k)%Z).
Proof.
  intros Hap Hpb Hb.
  destruct (partition less d a b pivot) as [[d2 mid] flag] eqn:E.
  exists d2, mid, flag. split; [done|].
  pose proof (partition_unfold d a b pivot) as Hu. rewrite E in Hu.
  cbn [fst] in Hu. clear E.
  set (d1 := Swap d a pivot) in *.
  assert (length d1 = length d) as Hl1 by apply Swap_length.
  set (pk := keyAt key d1 a).
  destruct (partitionLoop_spec a b (length d) pk
              (fun x => bool_decide (x < pk)%Z)
              (fun d i => Less less d i a) (fun d j => negb (Less less d j a)))
    with (fuel := S (length d)) (d := d1) (i := a + 1) (j := b - 1)
    as (d' & i' & j' & E & R1 & R2 & R3 & R4 & R5 & R6); try lia; try done.
  { intros d0 k Hn Hk Hk0. rewrite Less_key by lia. by rewrite Hk0. }
  { intros d0 k Hn Hk Hk0. rewrite Less_key by lia. by rewrite Hk0. }
  rewrite E in Hu. injection Hu as -> ->.
  assert (length d' = length d) as Hl'
    by (rewrite <- Hl1; by eapply swaps_in_length).
  assert (keyAt key d' a = pk) as Hpk
    by (apply (swaps_in_keyAt_outside (a + 1) b); [done|lia]).
  split_and!; [lia|lia| | |].
  - apply (swaps_in_trans a b d d1); [apply swaps_in_one; lia|].
    apply (swaps_in_trans a b d1 d');
      [apply (swaps_in_mono (a + 1) b a b); [lia|lia|exact R4]|].
    apply swaps_in_one; lia.
  - intros k Hk1 Hk2. rewrite !keyAt_Swap by lia.
    destruct (decide (j' = j')) as [_|]; [|done]. rewrite Hpk.
    destruct (decide (k = j')) as [|_]; [lia|].
    destruct (decide (k = a)) as [->|Hka].
    + specialize (R5 j' ltac:(lia) ltac:(lia)).
      by apply bool_decide_eq_true in R5.
    + specialize (R5 k ltac:(lia) ltac:(lia)).
      by apply bool_decide_eq_true in R5.
  - intros k Hk1 Hk2. rewrite !keyAt_Swap by lia.
    destruct (decide (j' = j')) as [_|]; [|done]. rewrite Hpk.
    destruct (decide (k = j')) as [|_]; [lia|].
    destruct (decide (k = a)) as [|_]; [lia|].
    specialize (R6 k ltac:(lia) ltac:(lia)).
    apply bool_decide_eq_false in R6. lia.
Qed.

Lemma partitionEqual_spec d a b pivot :
  a <= pivot → pivot < b → b <= length d →
  (∀ k, a <= k → k < b → (keyAt key d pivot <= keyAt key d k)%Z) →
  ∃ d' mid, partitionEqual less d a b pivot = (d', mid)
    ∧ a < mid ∧ mid <= b
    ∧ swaps_in a b d d'
    ∧ (∀ k, a <= k → k < mid → keyAt key d' k = keyAt key d pivot)
    ∧ (∀ k, mid <= k → k < b → (keyAt key d pivot < keyAt key d' k)%Z).
Proof.
  intros Hap Hpb Hb Hmin. unfold partitionEqual.
  set (d1 := Swap d a pivot) in *.
  assert (length d1 = length d) as Hl1 by apply Swap_length.
  assert (swaps_in a b d d1) as Hsw1 by (apply swaps_in_one; lia).
  assert (keyAt key d1 a = keyAt key d pivot) as Hpk.
  { unfold d1. rewrite keyAt_Swap by lia. by rewrite decide_True. }
  set (pk := keyAt key d pivot) in *.
  destruct (partitionLoop_spec a b (length d) pk
              (fun x => bool_decide (x <= pk)%Z)
              (fun d i => negb (Less less d a i)) (fun d j => Less less d a j))
    with (fuel := length d1) (d := d1) (i := a + 1) (j := b - 1)
    as (d' & i' & j' & E & R1 & R2 & R3 & R4 & R5 & R6); try lia; try done.
  { intros d0 k Hn Hk Hk0. rewrite Less_key by lia. rewrite Hk0.
    repeat case_bool_decide; try done; lia. }
  { intros d0 k Hn Hk Hk0. rewrite Less_key by lia. rewrite Hk0.
    repeat case_bool_decide; try done; lia. }
  rewrite E. exists d', i'. split; [done|].
  assert (swaps_in a b d d') as Hsw.
  { eapply swaps_in_trans; [exact Hsw1|].
    eapply swaps_in_mono; [| |exact R4]; lia. }
  assert (keyAt key d' a = pk) as Hpk'
    by (rewrite <- Hpk; apply (swaps_in_keyAt_outside (a + 1) b); [done|lia]).
  split_and!; [lia|lia|done| |].
  - intros k Hk1 Hk2.
    assert (pk <= keyAt key d' k)%Z as Hge.
    { apply (swaps_in_keys a b d d' (fun x => pk <= x)%Z Hsw); [|lia].
      intros k' Hk'. apply Hmin; lia. }
    destruct (decide (k = a)) as [->|Hka]; [done|].
    specialize (R5 k ltac:(lia) ltac:(lia)).
    apply bool_decide_eq_true in R5. lia.
  - intros k Hk1 Hk2. specialize (R6 k ltac:(lia) ltac:(lia)).
    apply bool_decide_eq_false in R6. lia.
Qed.

(** *** The other steps of a turn of the loop *)

Lemma reverseLoop_swaps a b : ∀ fuel d i j,
  a <= i → j < b → b <= length d →
  swaps_in a b d (reverseLoop fuel d i j).
Proof.
  induction fuel as [|fuel IH]; intros d i j Hi Hj Hb; cbn [reverseLoop];
    [constructor|].
  destruct (i <? j) eqn:E; [|constructor].
  apply Nat.ltb_lt in E.
  apply (swaps_in_trans a b d (Swap d i j)); [apply swaps_in_one; lia|].
  apply IH; [lia|lia|by rewrite Swap_length].
Qed.

Lemma reverseRange_swaps d a b :
  a < b → b <= length d → swaps_in a b d (reverseRange d a b).
Proof. intros. apply reverseLoop_swaps; lia. Qed.

Lemma order2_in d x y s :
  ((order2 less d x y s).1.1 = x ∧ (order2 less d x y s).1.2 = y)
  ∨ ((order2 less d x y s).1.1 = y ∧ (order2 less d x y s).1.2 = x).
Proof. unfold order2. destruct (Less less d y x); cbn; tauto. Qed.

Lemma median_in d x y z s :
  (median less d x y z s).1 = x ∨ (median less d x y z s).1 = y
  ∨ (median less d x y z s).1 = z.
Proof.
  unfold median.
  pose proof (order2_in d x y s) as H1.
  destruct (order2 less d x y s) as [[x1 y1] s1]. cbn in H1.
  pose proof (order2_in d y1 z s1) as H2.
  destruct (order2 less d y1 z s1) as [[y2 z2] s2]. cbn in H2.
  pose proof (order2_in d x1 y2 s2) as H3.
  destruct (order2 less d x1 y2 s2) as [[x3 y3] s3]. cbn in *.
  lia.
Qed.

Lemma choosePivot_in d a b :
  8 <= b - a → a <= (choosePivot less d a b).1 ∧ (choosePivot less d a b).1 < b.
Proof.
  intros Hl. unfold choosePivot.
  replace (8 <=? b - a) with true by (symmetry; apply Nat.leb_le; lia).
  assert (2 <= (b - a) / 4) as Hq
    by (apply Nat.div_le_lower_bound; lia).
  assert ((b - a) / 4 * 4 <= b - a) as Hq4.
  { rewrite Nat.mul_comm. apply Nat.Div0.mul_div_le. }
  set (q := (b - a) / 4) in *. clearbody q.
  set (r := if 50 <=? b - a
            then let
                 '(i, swaps) := medianAdjacent less d (a + q * 1) 0 in
                 let
                 '(j, swaps0) := medianAdjacent less d (a + q * 2) swaps in
                 let
                 '(k, swaps1) := medianAdjacent less d (a + q * 3) swaps0 in
                 (i, j, k, swaps1)
            else (a + q * 1, a + q * 2, a + q * 3, 0)).
  assert (a < r.1.1.1 ∧ r.1.1.1 < b ∧ a < r.1.1.2 ∧ r.1.1.2 < b
          ∧ a < r.1.2 ∧ r.1.2 < b) as Hr.
  { unfold r. destruct (50 <=? b - a); [|cbn; lia].
    unfold medianAdjacent.
    pose proof (median_in d (a + q * 1 - 1) (a + q * 1) (a + q * 1 + 1) 0)
      as H1.
    destruct (median less d (a + q * 1 - 1) (a + q * 1) (a + q * 1 + 1) 0)
      as [i s1]. cbn in H1.
    pose proof (median_in d (a + q * 2 - 1) (a + q * 2) (a + q * 2 + 1) s1)
      as H2.
    destruct (median less d (a + q * 2 - 1) (a + q * 2) (a + q * 2 + 1) s1)
      as [j s2]. cbn in H2.
    pose proof (median_in d (a + q * 3 - 1) (a + q * 3) (a + q * 3 + 1) s2)
      as H3.
    destruct (median less d (a + q * 3 - 1) (a + q * 3) (a + q * 3 + 1) s2)
      as [k s3]. cbn in *. lia. }
  destruct r as [[[i j] k] s]. cbn in Hr.
  pose proof (median_in d i j k s) as Hm.
  destruct (median less d i j k s) as [m s']. cbn in Hm.
  assert (a <= m ∧ m < b) by lia.
  destruct s' as [|[|[|[|[|[|[|[|[|[|[|[|[|]]]]]]]]]]]]]; cbn; done.
Qed.

Lemma nextPowerOfTwo_bound l : 0 < l → nextPowerOfTwo l <= 2 * l.
Proof.
  intros Hl. unfold nextPowerOfTwo, bits_Len.
  destruct l as [|l']; [lia|]. set (l := S l') in *.
  rewrite Nat.add_1_r, Nat.pow_succ_r'.
  pose proof (Nat.log2_spec l Hl). lia.
Qed.

Lemma breakPatterns_other (random : Z) l :
  0 < l →
  (if l <=? Z.to_nat (Z.land random (Z.of_nat (nextPowerOfTwo l) - 1))
   then Z.to_nat (Z.land random (Z.of_nat (nextPowerOfTwo l) - 1)) - l
   else Z.to_nat (Z.land random (Z.of_nat (nextPowerOfTwo l) - 1))) < l.
Proof.
  intros Hl. pose proof (nextPowerOfTwo_bound l Hl) as Hm.
  assert (0 <= Z.land random (Z.of_nat (nextPowerOfTwo l) - 1)
          < Z.of_nat (nextPowerOfTwo l))%Z as Hland.
  { unfold nextPowerOfTwo. rewrite Nat2Z.inj_pow.
    change (Z.of_nat 2) with 2%Z.
    replace (2 ^ Z.of_nat (bits_Len l) - 1)%Z
      with (Z.ones (Z.of_nat (bits_Len l)))
      by (rewrite Z.ones_equiv; lia).
    rewrite Z.land_ones by lia. apply Z.mod_pos_bound.
    apply Z.pow_pos_nonneg; lia. }
  set (o := Z.to_nat (Z.land random (Z.of_nat (nextPowerOfTwo l) - 1))).
  assert (o < nextPowerOfTwo l) by lia.
  destruct (l <=? o) eqn:E; [apply Nat.leb_le in E|apply Nat.leb_gt in E];
    lia.
Qed.

Lemma breakPatterns_swaps d a b :
  b <= length d → swaps_in a b d (breakPatterns d a b).
Proof.
  intros Hb. unfold breakPatterns.
  destruct (8 <=? b - a) eqn:E; [|constructor]. apply Nat.leb_le in E.
  assert (2 <= (b - a) / 4) as Hq
    by (apply Nat.div_le_lower_bound; lia).
  assert ((b - a) / 4 * 4 <= b - a) as Hq4.
  { rewrite Nat.mul_comm. apply Nat.Div0.mul_div_le. }
  set (q := (b - a) / 4) in *. clearbody q.
  pose proof (fun r => breakPatterns_other r (b - a) ltac:(lia)) as Ho.
  match goal with |- context [foldl ?f _ _] => set (step := f) end.
  assert (∀ l acc, Forall (fun i => i <= 2) l → b <= length acc.1 →
            swaps_in a b acc.1 (foldl step acc l).1) as Hloop.
  { induction l as [|i l IH]; intros [d0 r0] Hl Hlen; [constructor|].
    cbn [foldl]. apply Forall_cons in Hl as [Hi Hl].
    cbn [fst] in *. unfold step at 2. cbn beta iota.
    match goal with
    | |- context [foldl step (Swap d0 ?x ?y, ?r) l] =>
        apply (swaps_in_trans a b d0 (Swap d0 x y));
          [apply swaps_in_one; pose proof (Ho (xorshift_Next r0)); lia|];
        apply (IH (Swap d0 x y, r)); [done|];
        cbn [fst]; by rewrite Swap_length
    end. }
  apply (Hloop [0; 1; 2] (d, Z.of_nat (b - a))); [|done].
  repeat constructor; lia.
Qed.

(** *** Partial insertion sort *)

Lemma sorted_range_adjacent d a b :
  (∀ k, a < k → k < b → (keyAt key d (k - 1) <= keyAt key d k)%Z) → sorted_range key d a b.
Proof.
  intros Hadj i j Hi Hij Hj.
  induction j as [|j IH]; [replace i with 0 by lia; lia|].
  destruct (decide (i = S j)) as [->|Hne]; [lia|].
  specialize (Hadj (S j) ltac:(lia) ltac:(lia)).
  replace (S j - 1) with j in Hadj by lia.
  specialize (IH ltac:(lia) ltac:(lia)). lia.
Qed.

Lemma shiftLeft_insertDown a : ∀ j d,
  a <= j → j < length d →
  (0 < a → ∀ k, a <= k → k <= j → (keyAt key d (a - 1) <= keyAt key d k)%Z) →
  shiftLeft less d j = insertDown less d a j.
Proof.
  induction j as [|j IH]; intros d Haj Hlen Hlow; [done|].
  cbn [shiftLeft insertDown]. rewrite Less_key by lia.
  destruct (decide (a < S j)) as [Ha|Ha].
  - replace (a <? S j) with true by (symmetry; apply Nat.ltb_lt; lia).
    cbn [andb]. case_bool_decide as Hlt; cbn [negb]; [|done].
    apply IH; [lia|rewrite Swap_length; lia|].
    intros Ha0 k Hk1 Hk2. rewrite !keyAt_Swap by lia.
    repeat case_decide; try lia; apply Hlow; lia.
  - replace (a <? S j) with false by (symmetry; apply Nat.ltb_ge; lia).
    cbn [andb]. assert (a = S j) as -> by lia.
    specialize (Hlow ltac:(lia) (S j) ltac:(lia) ltac:(lia)).
    replace (S j - 1) with j in Hlow by lia.
    rewrite bool_decide_eq_false_2 by lia. done.
Qed.

Lemma shiftRight_swaps b : ∀ fuel d j,
  1 <= j → b <= length d →
  swaps_in (j - 1) b d (shiftRight less fuel d j b).
Proof.
  induction fuel as [|fuel IH]; intros d j Hj Hb; cbn [shiftRight];
    [constructor|].
  destruct (j <? b) eqn:E; [|constructor]. apply Nat.ltb_lt in E.
  destruct (negb (Less less d j (j - 1))); [constructor|].
  apply (swaps_in_trans _ _ d (Swap d j (j - 1)));
    [apply swaps_in_one; lia|].
  apply (swaps_in_mono (j + 1 - 1) b); [lia|lia|].
  apply IH; [lia|rewrite Swap_length; lia].
Qed.

Lemma partialInsertionLoop_spec a b : ∀ steps d i,
  a + 1 <= i → i <= b → b <= length d →
  bounded_below key d a b → sorted_range key d a i →
  swaps_in a b d (partialInsertionLoop less steps d a b i).1
  ∧ ((partialInsertionLoop less steps d a b i).2 = true →
     sorted_range key (partialInsertionLoop less steps d a b i).1 a b).
Proof.
  induction steps as [|steps IH]; intros d i Hai Hib Hb Hlow Hsorted;
    cbn [partialInsertionLoop]; [split; [constructor|done]|].
  destruct (scanUp_spec (fun i => negb (Less less d i (i - 1))) (b - 1)
              (length d) i) as (U1 & U2 & U3 & _); [lia|].
  set (i1 := scanUp (length d) (fun i => negb (Less less d i (i - 1))) i (b - 1))
    in *.
  assert (i1 <= b) as Hi1b by lia.
  assert (sorted_range key d a i1) as Hsorted1.
  { apply sorted_range_adjacent. intros k Hk1 Hk2.
    destruct (decide (k < i)) as [Hki|Hki]; [apply Hsorted; lia|].
    specialize (U3 k ltac:(lia) ltac:(lia)). cbn beta in U3.
    rewrite Less_key in U3 by lia. apply negb_true_iff in U3.
    apply bool_decide_eq_false in U3. lia. }
  destruct (i1 =? b) eqn:Eb.
  { apply Nat.eqb_eq in Eb. rewrite Eb in Hsorted1.
    split; [constructor|done]. }
  apply Nat.eqb_neq in Eb.
  destruct (b - a <? 50); [split; [constructor|done]|].
  set (d2 := Swap d i1 (i1 - 1)).
  assert (swaps_in a b d d2) as Hsw2 by (apply swaps_in_one; lia).
  assert (length d2 = length d) as Hl2 by apply Swap_length.
  assert (bounded_below key d2 a b) as Hlow2 by (by eapply bounded_below_swaps).
  set (d3 := if 2 <=? i1 - a then shiftLeft less d2 (i1 - 1) else d2).
  assert (swaps_in a i1 d2 d3 ∧ sorted_range key d3 a i1) as [Hsw3 Hsorted3].
  { unfold d3. destruct (2 <=? i1 - a) eqn:E2.
    - apply Nat.leb_le in E2.
      rewrite (shiftLeft_insertDown a) by
        (try lia; intros Ha0 k Hk1 Hk2; apply Hlow2; lia).
      destruct (insertDown_spec (i1 - 1) (i1 - 1) d2 a) as [S1 S2];
        try lia.
      + intros p q Hp Hpq Hq. unfold d2. rewrite !keyAt_Swap by lia.
        repeat case_decide; try lia. apply Hsorted1; lia.
      + intros p q Hp Hpq Hq. replace q with p by lia. lia.
      + replace (i1 - 1 + 1) with i1 in * by lia. done.
    - apply Nat.leb_gt in E2. split; [constructor|].
      intros p q Hp Hpq Hq. replace q with p by lia. lia. }
  assert (length d3 = length d) as Hl3
    by (rewrite <- Hl2; by eapply swaps_in_length).
  set (d4 := if 2 <=? b - i1 then shiftRight less (length d3) d3 (i1 + 1) b
             else d3).
  assert (swaps_in i1 b d3 d4) as Hsw4.
  { unfold d4. destruct (2 <=? b - i1); [|constructor].
    replace i1 with (i1 + 1 - 1) at 1 by lia.
    apply shiftRight_swaps; lia. }
  assert (swaps_in a b d d4) as Hsw.
  { apply (swaps_in_trans a b d d2); [done|].
    apply (swaps_in_trans a b d2 d3);
      [apply (swaps_in_mono a i1); [lia|lia|done]|].
    apply (swaps_in_mono i1 b); [lia|lia|done]. }
  destruct (IH d4 i1) as [R1 R2]; try lia.
  - rewrite (swaps_in_length i1 b d3 d4 Hsw4). lia.
  - by eapply bounded_below_swaps.
  - eapply (sorted_range_outside a i1 i1 b); [exact Hsw4|lia|done].
  - split; [|done]. by eapply swaps_in_trans.
Qed.

Lemma partialInsertionSort_spec d a b :
  a < b → b <= length d → bounded_below key d a b →
  swaps_in a b d (partialInsertionSort less d a b).1
  ∧ ((partialInsertionSort less d a b).2 = true →
     sorted_range key (partialInsertionSort less d a b).1 a b).
Proof.
  intros Hab Hb Hlow. unfold partialInsertionSort.
  apply partialInsertionLoop_spec; try lia; [done|].
  intros p q Hp Hpq Hq. replace q with p by lia. lia.
Qed.

(** *** Heap sort *)

Lemma siftDown_spec first lo hi : ∀ fuel d root,
  hi - root <= fuel → first + hi <= length d → lo <= root →
  heap_except key d first lo hi root →
  (∀ p c, lo <= p → (root = 2 * p + 1 ∨ root = 2 * p + 2) →
          (c = 2 * root + 1 ∨ c = 2 * root + 2) → c < hi →
          (keyAt key d (first + c) <= keyAt key d (first + p))%Z) →
  swaps_in (first + root) (first + hi) d (siftDown less fuel d root hi first)
  ∧ heap_except key (siftDown less fuel d root hi first) first lo hi hi.
Proof.
  induction fuel as [|fuel IH]; intros d root Hf Hlen Hlo Hheap Hgrand;
    cbn [siftDown].
  { split; [constructor|]. intros r c Hr _ Hc Hchi. apply Hheap; lia. }
  destruct (hi <=? 2 * root + 1) eqn:E1.
  { apply Nat.leb_le in E1. split; [constructor|].
    intros r c Hr _ Hc Hchi. apply Hheap; lia. }
  apply Nat.leb_gt in E1.
  set (child := if (2 * root + 1 + 1 <? hi)
                   && Less less d (first + (2 * root + 1))
                        (first + (2 * root + 1) + 1)
                then 2 * root + 1 + 1 else 2 * root + 1).
  assert ((child = 2 * root + 1 ∨ child = 2 * root + 2) ∧ child < hi
          ∧ ∀ c, (c = 2 * root + 1 ∨ c = 2 * root + 2) → c < hi →
                 (keyAt key d (first + c) <= keyAt key d (first + child))%Z)
    as (Hchild & Hchi & Hmax).
  { unfold child. destruct (2 * root + 1 + 1 <? hi) eqn:E2; cbn [andb].
    - apply Nat.ltb_lt in E2. rewrite Less_key by lia.
      replace (first + (2 * root + 1) + 1) with (first + (2 * root + 2))
        by lia.
      replace (2 * root + 1 + 1) with (2 * root + 2) by lia.
      case_bool_decide as Hlt.
      + split_and!; [lia|lia|]. intros c [->| ->] Hc; lia.
      + split_and!; [lia|lia|]. intros c [->| ->] Hc; lia.
    - apply Nat.ltb_ge in E2. split_and!; [lia|lia|].
      intros c [->| ->] Hc; lia. }
  clearbody child. rewrite Less_key by lia.
  case_bool_decide as Hlt; cbn [negb].
  2:{ split; [constructor|]. intros r c Hr _ Hc Hc2.
      destruct (decide (r = root)) as [->|Hne]; [|by apply Hheap].
      specialize (Hmax c Hc Hc2). lia. }
  set (d2 := Swap d (first + root) (first + child)).
  assert (length d2 = length d) as Hl2 by apply Swap_length.
  destruct (IH d2 child) as [R1 R2]; try lia.
  - intros r c Hr Hrc Hc Hc2. unfold d2. rewrite !keyAt_Swap by lia.
    destruct (decide (r = root)) as [->|Hne].
    + rewrite (decide_True (P := first + root = first + root)) by done.
      specialize (Hmax c Hc Hc2).
      repeat case_decide; lia.
    + repeat case_decide; try lia.
      * apply (Hgrand r child); lia.
      * apply Hheap; lia.
  - intros p c Hp Hpc Hc Hc2. unfold d2. rewrite !keyAt_Swap by lia.
    assert (p = root) as -> by lia.
    repeat case_decide; try lia. apply Hheap; lia.
  - split; [|done].
    apply (swaps_in_trans _ _ d d2); [apply swaps_in_one; lia|].
    apply (swaps_in_mono (first + child) (first + hi)); [lia|lia|done].
Qed.

Lemma heap_root_max d first m :
  heap_except key d first 0 m m →
  ∀ p, p < m → (keyAt key d (first + p) <= keyAt key d (first + 0))%Z.
Proof.
  intros Hheap p. induction p as [p IH] using lt_wf_ind. intros Hp.
  destruct p as [|p']; [lia|].
  pose proof (Nat.div_mod_eq p' 2) as Hdm.
  pose proof (Nat.mod_upper_bound p' 2 ltac:(lia)) as Hmod.
  specialize (IH (p' / 2) ltac:(lia) ltac:(lia)).
  specialize (Hheap (p' / 2) (S p') ltac:(lia) ltac:(lia) ltac:(lia) Hp).
  lia.
Qed.

Lemma heapSort_build first hi : ∀ n d,
  first + hi <= length d → heap_except key d first n hi hi →
  swaps_in first (first + hi) d
    (foldl (fun d i => siftDown less hi d i hi first) d (rev (seq 0 n)))
  ∧ heap_except key
      (foldl (fun d i => siftDown less hi d i hi first) d (rev (seq 0 n)))
      first 0 hi hi.
Proof.
  induction n as [|n IH]; intros d Hlen Hheap.
  { cbn. split; [constructor|done]. }
  rewrite seq_S, rev_app_distr. cbn [rev app foldl Nat.add].
  destruct (siftDown_spec first n hi hi d n) as [S1 S2]; try lia.
  - intros r c Hr Hne Hc Hc2. apply Hheap; lia.
  - destruct (IH (siftDown less hi d n hi first)) as [R1 R2].
    + rewrite (swaps_in_length _ _ _ _ S1). done.
    + done.
    + split; [|done].
      eapply swaps_in_trans; [|exact R1].
      apply (swaps_in_mono (first + n) (first + hi)); [lia|lia|done].
Qed.

Lemma heapSort_pop first hi : ∀ m d,
  m <= hi → first + hi <= length d →
  heap_except key d first 0 m m →
  sorted_range key d (first + m) (first + hi) →
  (∀ p q, p < m → m <= q → q < hi →
          (keyAt key d (first + p) <= keyAt key d (first + q))%Z) →
  swaps_in first (first + hi) d
    (foldl (fun d i => siftDown less hi (Swap d first (first + i)) 0 i first)
           d (rev (seq 0 m)))
  ∧ sorted_range key
      (foldl (fun d i => siftDown less hi (Swap d first (first + i)) 0 i first)
             d (rev (seq 0 m)))
      first (first + hi).
Proof.
  induction m as [|i IH]; intros d Hm Hlen Hheap Hsorted Hcross.
  { cbn. split; [constructor|]. by rewrite Nat.add_0_r in Hsorted. }
  rewrite seq_S, rev_app_distr. cbn [rev app foldl Nat.add].
  pose proof (heap_root_max d first (S i) Hheap) as Hmax.
  rewrite Nat.add_0_r in Hmax.
  set (d1 := Swap d first (first + i)).
  assert (length d1 = length d) as Hl1 by apply Swap_length.
  assert (swaps_in first (first + hi) d d1) as Hsw1
    by (apply swaps_in_one; lia).
  destruct (siftDown_spec first 0 i hi d1 0) as [S1 S2]; try lia.
  { intros r c Hr Hne Hc Hc2. unfold d1. rewrite !keyAt_Swap by lia.
    repeat case_decide; try lia. apply Hheap; lia. }
  set (d2 := siftDown less hi d1 0 i first) in *.
  rewrite Nat.add_0_r in S1.
  assert (length d2 = length d) as Hl2
    by (rewrite <- Hl1; by eapply swaps_in_length).
  assert (∀ q, i <= q → keyAt key d2 (first + q) = keyAt key d1 (first + q)) as Hout.
  { intros q Hq. apply (swaps_in_keyAt_outside first (first + i)); [done|lia]. }
  assert (keyAt key d1 (first + i) = keyAt key d first) as Hi1.
  { unfold d1. rewrite keyAt_Swap by lia.
    repeat case_decide; first [lia|done|congruence]. }
  assert (∀ q, i < q → q < hi → keyAt key d1 (first + q) = keyAt key d (first + q))
    as Hq1.
  { intros q Hq Hq2. unfold d1. rewrite keyAt_Swap by lia.
    repeat case_decide; first [lia|done|congruence]. }
  assert (∀ p, p < i → (keyAt key d1 (first + p) <= keyAt key d first)%Z
                       ∧ ∀ q, i < q → q < hi →
                              (keyAt key d1 (first + p) <= keyAt key d (first + q))%Z)
    as Hpre1.
  { intros p Hp. unfold d1. rewrite keyAt_Swap by lia.
    repeat case_decide; try lia.
    - split; [apply Hmax; lia|]. intros q Hq Hq2. apply Hcross; lia.
    - split; [apply Hmax; lia|]. intros q Hq Hq2. apply Hcross; lia. }
  assert (∀ p, p < i → (keyAt key d2 (first + p) <= keyAt key d first)%Z
                       ∧ ∀ q, i < q → q < hi →
                              (keyAt key d2 (first + p) <= keyAt key d (first + q))%Z)
    as Hpre2.
  { intros p Hp.
    apply (swaps_in_keys first (first + i) d1 d2
             (fun x => (x <= keyAt key d first)%Z
                       ∧ ∀ q, i < q → q < hi → (x <= keyAt key d (first + q))%Z)
             S1); [|lia].
    intros k Hk. replace k with (first + (k - first)) by lia.
    apply Hpre1. lia. }
  destruct (IH d2) as [R1 R2]; try lia.
  - done.
  - intros p q Hp Hpq Hq.
    replace p with (first + (p - first)) by lia.
    replace q with (first + (q - first)) by lia.
    rewrite !Hout by lia.
    destruct (decide (p - first = i)) as [Ep|Ep].
    + rewrite Ep, Hi1.
      destruct (decide (q - first = i)) as [Eq|Eq]; [rewrite Eq, Hi1; lia|].
      rewrite Hq1 by lia.
      specialize (Hcross 0 (q - first) ltac:(lia) ltac:(lia) ltac:(lia)).
      by rewrite Nat.add_0_r in Hcross.
    + rewrite !Hq1 by lia. apply Hsorted; lia.
  - intros p q Hp Hq Hq2. rewrite (Hout q) by lia.
    destruct (Hpre2 p Hp) as [P1 P2].
    destruct (decide (q = i)) as [->|Hqi]; [by rewrite Hi1|].
    rewrite Hq1 by lia. apply P2; lia.
  - split; [|done].
    apply (swaps_in_trans _ _ d d1); [done|].
    apply (swaps_in_trans _ _ d1 d2); [|done].
    apply (swaps_in_mono first (first + i)); [lia|lia|done].
Qed.

Lemma heapSort_spec d a b :
  a <= b → b <= length d →
  swaps_in a b d (heapSort less d a b)
  ∧ sorted_range key (heapSort less d a b) a b.
Proof.
  intros Hab Hb. unfold heapSort.
  pose proof (Nat.div_mod_eq (b - a - 1) 2) as Hdm.
  pose proof (Nat.mod_upper_bound (b - a - 1) 2 ltac:(lia)) as Hmod.
  destruct (heapSort_build a (b - a) ((b - a - 1) / 2 + 1) d) as [B1 B2];
    [lia| |].
  { intros r c Hr Hne Hc Hc2. lia. }
  set (d1 := foldl (fun d i => siftDown less (b - a) d i (b - a) a) d
               (rev (seq 0 ((b - a - 1) / 2 + 1)))) in *.
  replace (a + (b - a)) with b in * by lia.
  destruct (heapSort_pop a (b - a) (b - a) d1) as [P1 P2]; try lia.
  - rewrite (swaps_in_length _ _ _ _ B1). lia.
  - done.
  - intros p q Hp Hpq Hq. lia.
  - replace (a + (b - a)) with b in * by lia.
    split; [|done]. by eapply swaps_in_trans.
Qed.

(** *** Quicksort *)

Lemma sorted_range_glue d a mid b :
  sorted_range key d a mid → sorted_range key d (mid + 1) b →
  (∀ k, a <= k → k < mid → (keyAt key d k <= keyAt key d mid)%Z) →
  (∀ k, mid < k → k < b → (keyAt key d mid <= keyAt key d k)%Z) →
  sorted_range key d a b.
Proof.
  intros HL HR Hlo Hhi i j Hi Hij Hj.
  destruct (decide (j < mid)); [apply HL; lia|].
  destruct (decide (mid < i)); [apply HR; lia|].
  destruct (decide (i = mid)) as [->|];
    [destruct (decide (j = mid)) as [->|]; [lia|apply Hhi; lia]|].
  destruct (decide (j = mid)) as [->|]; [apply Hlo; lia|].
  specialize (Hlo i ltac:(lia) ltac:(lia)).
  specialize (Hhi j ltac:(lia) ltac:(lia)). lia.
Qed.

Lemma pdqsort_spec : ∀ fuel d a b limit wasBalanced wasPartitioned,
  a <= b → b <= length d → b - a <= fuel → bounded_below key d a b →
  swaps_in a b d (pdqsort less fuel d a b limit wasBalanced wasPartitioned)
  ∧ sorted_range key (pdqsort less fuel d a b limit wasBalanced wasPartitioned) a b.
Proof.
  induction fuel as [|fuel IH]; intros d a b limit wb wp Hab Hb Hf Hlow.
  { cbn [pdqsort].
    replace (b - a <=? 12) with true by (symmetry; apply Nat.leb_le; lia).
    by apply insertionSort_spec. }
  cbn [pdqsort].
  destruct (b - a <=? 12) eqn:E12; [by apply insertionSort_spec|].
  apply Nat.leb_gt in E12.
  destruct (limit =? 0); [by apply heapSort_spec|].
  set (s1 := if negb wb then (breakPatterns d a b, limit - 1)
             else (d, limit)).
  assert (swaps_in a b d s1.1) as Hsw1.
  { unfold s1. destruct (negb wb); cbn [fst];
      [by apply breakPatterns_swaps|constructor]. }
  destruct s1 as [d1 limit1]. cbn [fst] in Hsw1.
  assert (length d1 = length d) as Hl1 by (by eapply swaps_in_length).
  pose proof (choosePivot_in d1 a b ltac:(lia)) as Hpiv.
  destruct (choosePivot less d1 a b) as [pivot hint]. cbn [fst] in Hpiv.
  set (s2 := if isDecreasing hint
             then (reverseRange d1 a b, b - 1 - (pivot - a), increasingHint)
             else (d1, pivot, hint)).
  assert (swaps_in a b d1 s2.1.1 ∧ a <= s2.1.2 ∧ s2.1.2 < b)
    as (Hsw2 & Hp1 & Hp2).
  { unfold s2. destruct (isDecreasing hint); cbn [fst snd].
    - split; [apply reverseRange_swaps; lia|lia].
    - split; [constructor|lia]. }
  destruct s2 as [[d2 pivot2] hint2]. cbn [fst snd] in Hsw2, Hp1, Hp2.
  assert (length d2 = length d) as Hl2
    by (rewrite <- Hl1; by eapply swaps_in_length).
  assert (bounded_below key d2 a b) as Hlow2.
  { eapply bounded_below_swaps; [exact Hsw2|].
    eapply bounded_below_swaps; [exact Hsw1|done]. }
  set (s3 := if wb && wp && isIncreasing hint2
             then partialInsertionSort less d2 a b else (d2, false)).
  assert (swaps_in a b d2 s3.1 ∧ (s3.2 = true → sorted_range key s3.1 a b))
    as [Hsw3 Hsorted3].
  { unfold s3. destruct (wb && wp && isIncreasing hint2).
    - apply partialInsertionSort_spec; [lia|lia|done].
    - cbn [fst snd]. split; [constructor|done]. }
  destruct s3 as [d3 sorted]. cbn [fst snd] in Hsw3, Hsorted3.
  assert (swaps_in a b d d3) as Hsw
    by (eapply swaps_in_trans; [exact Hsw1|];
        eapply swaps_in_trans; [exact Hsw2|exact Hsw3]).
  assert (length d3 = length d) as Hl3 by (by eapply swaps_in_length).
  assert (bounded_below key d3 a b) as Hlow3 by (by eapply bounded_below_swaps).
  destruct sorted; [split; [done|by apply Hsorted3]|].
  clear Hsorted3.
  destruct ((0 <? a) && negb (Less less d3 (a - 1) pivot2)) eqn:Eeq.
  - apply andb_prop in Eeq as [Ha Hnl]. apply Nat.ltb_lt in Ha.
    rewrite Less_key in Hnl by lia. apply negb_true_iff in Hnl.
    apply bool_decide_eq_false in Hnl.
    destruct (partitionEqual_spec d3 a b pivot2)
      as (d4 & mid & E & M1 & M2 & Hsw4 & Heq & Hgt); try lia.
    { intros k Hk1 Hk2. specialize (Hlow3 k Ha Hk1 Hk2). lia. }
    rewrite E.
    assert (length d4 = length d) as Hl4
      by (rewrite <- Hl3; by eapply swaps_in_length).
    destruct (IH d4 mid b limit1 wb wp) as [R1 R2]; try lia.
    { intros k Hm Hk1 Hk2. rewrite Heq by lia.
      specialize (Hgt k Hk1 Hk2). lia. }
    set (d5 := pdqsort less fuel d4 mid b limit1 wb wp) in *.
    split.
    + eapply swaps_in_trans; [exact Hsw|].
      eapply swaps_in_trans; [exact Hsw4|].
      apply (swaps_in_mono mid b); [lia|lia|done].
    + intros i j Hi Hij Hj.
      destruct (decide (mid <= i)) as [Hmi|Hmi]; [apply R2; lia|].
      rewrite (swaps_in_keyAt_outside mid b d4 d5 i) by (done || lia).
      rewrite Heq by lia.
      destruct (decide (j < mid)) as [Hjm|Hjm].
      * rewrite (swaps_in_keyAt_outside mid b d4 d5 j) by (done || lia).
        rewrite Heq by lia. lia.
      * assert (keyAt key d3 pivot2 < keyAt key d5 j)%Z; [|lia].
        apply (swaps_in_keys mid b d4 d5
                 (fun x => keyAt key d3 pivot2 < x)%Z R1); [|lia].
        intros k Hk. apply Hgt; lia.
  - clear Eeq.
    destruct (partition_spec d3 a b pivot2)
      as (d4 & mid & ap & E & M1 & M2 & Hsw4 & Hlt & Hge); try lia.
    rewrite E.
    assert (length d4 = length d) as Hl4
      by (rewrite <- Hl3; by eapply swaps_in_length).
    assert (bounded_below key d4 a b) as Hlow4 by (by eapply bounded_below_swaps).
    assert (swaps_in a b d d4) as Hsw' by (by eapply swaps_in_trans).
    destruct (mid - a <? b - mid).
    + destruct (IH d4 a mid limit1 true true) as [L1 L2]; try lia.
      { intros k Ha Hk1 Hk2. apply Hlow4; lia. }
      set (d5 := pdqsort less fuel d4 a mid limit1 true true) in *.
      assert (length d5 = length d) as Hl5
        by (rewrite <- Hl4; by eapply swaps_in_length).
      assert (keyAt key d5 mid = keyAt key d4 mid) as Hmid5
        by (apply (swaps_in_keyAt_outside a mid); [done|lia]).
      destruct (IH d5 (mid + 1) b limit1
                  ((b - a) / 8 <=? mid - a) ap) as [R1 R2]; try lia.
      { intros k Hm Hk1 Hk2. replace (mid + 1 - 1) with mid by lia.
        rewrite Hmid5.
        rewrite (swaps_in_keyAt_outside a mid d4 d5 k) by (done || lia).
        apply Hge; lia. }
      set (d6 := pdqsort less fuel d5 (mid + 1) b limit1
                   ((b - a) / 8 <=? mid - a) ap) in *.
      assert (keyAt key d6 mid = keyAt key d4 mid) as Hmid6.
      { rewrite <- Hmid5.
        apply (swaps_in_keyAt_outside (mid + 1) b); [done|lia]. }
      split.
      * eapply swaps_in_trans; [exact Hsw'|].
        apply (swaps_in_trans _ _ d4 d5);
          [apply (swaps_in_mono a mid); [lia|lia|done]|].
        apply (swaps_in_mono (mid + 1) b); [lia|lia|done].
      * apply (sorted_range_glue d6 a mid b).
        -- eapply (sorted_range_outside a mid (mid + 1) b);
             [exact R1|lia|done].
        -- done.
        -- intros k Hk1 Hk2. rewrite Hmid6.
           rewrite (swaps_in_keyAt_outside (mid + 1) b d5 d6 k)
             by (done || lia).
           assert (keyAt key d5 k < keyAt key d4 mid)%Z; [|lia].
           apply (swaps_in_keys a mid d4 d5
                    (fun x => x < keyAt key d4 mid)%Z L1); [|lia].
           intros k' Hk'. apply Hlt; lia.
        -- intros k Hk1 Hk2. rewrite Hmid6.
           apply (swaps_in_keys (mid + 1) b d5 d6
                    (fun x => keyAt key d4 mid <= x)%Z R1); [|lia].
           intros k' Hk'.
           rewrite (swaps_in_keyAt_outside a mid d4 d5 k') by (done || lia).
           apply Hge; lia.
    + destruct (IH d4 (mid + 1) b limit1 true true) as [R1 R2]; try lia.
      { intros k Hm Hk1 Hk2. replace (mid + 1 - 1) with mid by lia.
        apply Hge; lia. }
      set (d5 := pdqsort less fuel d4 (mid + 1) b limit1 true true) in *.
      assert (length d5 = length d) as Hl5
        by (rewrite <- Hl4; by eapply swaps_in_length).
      assert (keyAt key d5 mid = keyAt key d4 mid) as Hmid5
        by (apply (swaps_in_keyAt_outside (mid + 1) b); [done|lia]).
      destruct (IH d5 a mid limit1
                  ((b - a) / 8 <=? b - mid) ap) as [L1 L2]; try lia.
      { intros k Ha Hk1 Hk2.
        rewrite !(swaps_in_keyAt_outside (mid + 1) b d4 d5) by (done || lia).
        apply Hlow4; lia. }
      set (d6 := pdqsort less fuel d5 a mid limit1
                   ((b - a) / 8 <=? b - mid) ap) in *.
      assert (keyAt key d6 mid = keyAt key d4 mid) as Hmid6.
      { rewrite <- Hmid5.
        apply (swaps_in_keyAt_outside a mid); [done|lia]. }
      split.
      * eapply swaps_in_trans; [exact Hsw'|].
        apply (swaps_in_trans _ _ d4 d5);
          [apply (swaps_in_mono (mid + 1) b); [lia|lia|done]|].
        apply (swaps_in_mono a mid); [lia|lia|done].
      * apply (sorted_range_glue d6 a mid b).
        -- done.
        -- eapply (sorted_range_outside (mid + 1) b a mid);
             [exact L1|lia|done].
        -- intros k Hk1 Hk2. rewrite Hmid6.
           assert (keyAt key d6 k < keyAt key d4 mid)%Z; [|lia].
           apply (swaps_in_keys a mid d5 d6
                    (fun x => x < keyAt key d4 mid)%Z L1); [|lia].
           intros k' Hk'.
           rewrite (swaps_in_keyAt_outside (mid + 1) b d4 d5 k')
             by (done || lia).
           apply Hlt; lia.
        -- intros k Hk1 Hk2. rewrite Hmid6.
           rewrite (swaps_in_keyAt_outside a mid d5 d6 k) by (done || lia).
           apply (swaps_in_keys (mid + 1) b d4 d5
                    (fun x => keyAt key d4 mid <= x)%Z R1); [|lia].
           intros k' Hk'. apply Hge; lia.
Qed.

(** *** [sort.Slice] *)

Lemma sorted_range_StronglySorted d :
  sorted_range key d 0 (length d) →
  StronglySorted (fun x y => (key x <= key y)%Z) d.
Proof.
  induction d as [|x d IH]; intros Hs; constructor.
  - apply IH. intros i j Hi Hij Hj.
    apply (Hs (S i) (S j)); cbn [length]; lia.
  - apply Forall_forall. intros y Hy.
    apply list_elem_of_lookup in Hy as [i Hi].
    pose proof (lookup_lt_Some _ _ _ Hi) as Hlt.
    specialize (Hs 0 (S i) ltac:(lia) ltac:(lia) ltac:(cbn [length]; lia)).
    unfold keyAt in Hs.
    change ((x :: d) !! S i) with (d !! i) in Hs.
    change ((x :: d) !! 0) with (Some x) in Hs.
    by rewrite Hi in Hs.
Qed.

Lemma sort_Slice_spec (x : list A) :
  sort_Slice less x ≡ₚ x
  ∧ length (sort_Slice less x) = length x
  ∧ StronglySorted (fun x y => (key x <= key y)%Z) (sort_Slice less x).
Proof.
  unfold sort_Slice.
  destruct (pdqsort_spec (length x) x 0 (length x) (bits_Len (length x))
              true true) as [H1 H2]; try lia.
  { intros k Ha. lia. }
  split_and!.
  - by eapply swaps_in_Permutation.
  - by eapply swaps_in_length.
  - apply sorted_range_StronglySorted.
    by rewrite (swaps_in_length _ _ _ _ H1).
Qed.

(** *** Insertion sort keeps the order of equal keys *)

Lemma Swap_adjacent d j x y :
  d !! j = Some x → d !! S j = Some y →
  d = take j d ++ x :: y :: drop (S (S j)) d
  ∧ Swap d (S j) j = take j d ++ y :: x :: drop (S (S j)) d.
Proof.
  intros Hx Hy.
  assert (d = take j d ++ x :: y :: drop (S (S j)) d) as Hd.
  { rewrite <- (drop_S d y (S j)) by done.
    rewrite <- (drop_S d x j) by done. by rewrite take_drop. }
  split; [done|]. unfold Swap. rewrite Hx, Hy.
  pose proof (lookup_lt_Some _ _ _ Hx) as Hj.
  assert (length (take j d) = j) as Hlt by (rewrite length_take; lia).
  rewrite Hd at 1.
  rewrite insert_app_r_alt by lia. rewrite Hlt, Nat.sub_diag. cbn [insert].
  rewrite insert_app_r_alt by lia. rewrite Hlt.
  replace (S j - j) with 1 by lia. done.
Qed.

Lemma Swap_adjacent_filter d j (k : Z) :
  S j < length d → keyAt key d (S j) ≠ keyAt key d j →
  filter (fun x => key x = k) (Swap d (S j) j)
  = filter (fun x => key x = k) d.
Proof.
  intros Hlen Hne.
  destruct (lookup_lt_is_Some_2 d j ltac:(lia)) as [x Hx].
  destruct (lookup_lt_is_Some_2 d (S j) Hlen) as [y Hy].
  unfold keyAt in Hne. rewrite Hx, Hy in Hne. cbn in Hne.
  destruct (Swap_adjacent d j x y Hx Hy) as [Hd ->].
  rewrite Hd at 3. rewrite !filter_app, !filter_cons.
  repeat case_decide; try done; congruence.
Qed.

Lemma insertDown_stable (k : Z) : ∀ j d a,
  j < length d →
  filter (fun x => key x = k) (insertDown less d a j)
  = filter (fun x => key x = k) d.
Proof.
  induction j as [|j IH]; intros d a Hj; [done|].
  cbn [insertDown]. destruct (a <? S j); cbn [andb]; [|done].
  rewrite Less_key by lia. case_bool_decide as Hlt; [|done].
  rewrite IH by (rewrite Swap_length; lia).
  apply Swap_adjacent_filter; [done|lia].
Qed.

Lemma insertDown_length a : ∀ j d,
  length (insertDown less d a j) = length d.
Proof.
  induction j as [|j IH]; intros d; [done|].
  cbn [insertDown]. destruct ((a <? S j) && Less less d (S j) j); [|done].
  by rewrite IH, Swap_length.
Qed.

Lemma insertDown_foldl_length a : ∀ n m d,
  length (foldl (fun d i => insertDown less d a i) d (seq m n)) = length d.
Proof.
  induction n as [|n IH]; intros m d; [done|].
  cbn [seq foldl]. by rewrite IH, insertDown_length.
Qed.

Lemma insertionSort_stable d a b (k : Z) :
  b <= length d →
  filter (fun x => key x = k) (insertionSort less d a b)
  = filter (fun x => key x = k) d.
Proof.
  intros Hb. unfold insertionSort.
  assert (∀ n d, a + 1 + n <= length d →
            filter (fun x => key x = k)
              (foldl (fun d i => insertDown less d a i) d (seq (a + 1) n))
            = filter (fun x => key x = k) d) as Hloop.
  { clear d Hb. intros n. induction n as [|n IH]; intros d Hn; [done|].
    rewrite seq_S, foldl_app. cbn [foldl].
    rewrite insertDown_stable, IH; [done|lia|].
    rewrite insertDown_foldl_length. lia. }
  destruct (decide (b <= a + 1)) as [Hs|Hs].
  { by replace (b - (a + 1)) with 0 by lia. }
  apply Hloop. lia.
Qed.

Lemma sort_Slice_stable_small (x : list A) (k : Z) :
  length x <= 12 →
  filter (fun y => key y = k) (sort_Slice less x)
  = filter (fun y => key y = k) x.
Proof.
  intros Hlen. unfold sort_Slice.
  destruct (length x) as [|n] eqn:E; cbn [pdqsort];
    replace (_ - 0 <=? 12) with true
      by (symmetry; apply Nat.leb_le; lia);
    apply insertionSort_stable; lia.
Qed.

End SortCorrect.

(** * Properties of the output of the parser *)

Section ParserOutput.

Local Open Scope string_scope.

Lemma substring_prefix n : ∀ s, ∃ rest, s = substring 0 n s +:+ rest.
Proof.
  induction n as [|n IH]; intros s.
  - exists s. by destruct s.
  - destruct s as [|c s]; [by exists ""|].
    destruct (IH s) as [rest Hrest]. exists rest.
    cbn [substring]. rewrite append_cons. by rewrite <- Hrest.
Qed.

Lemma substring_length n : ∀ s, (String.length (substring 0 n s) <= n)%nat.
Proof.
  induction n as [|n IH]; intros s; [by destruct s|].
  destruct s as [|c s]; cbn [substring String.length]; [lia|].
  specialize (IH s). lia.
Qed.

Lemma substring_app m rest :
  substring 0 (String.length m) (m +:+ rest) = m.
Proof.
  induction m as [|c m IH]; [by destruct rest|].
  rewrite append_cons. cbn [String.length substring]. by rewrite IH.
Qed.

Lemma takeWhile_length p s :
  (String.length (takeWhile p s) <= String.length s)%nat.
Proof.
  induction s as [|c s IH]; cbn [takeWhile String.length]; [lia|].
  destruct (p c); cbn [String.length]; lia.
Qed.

Lemma takeWhile_full p s :
  String.length (takeWhile p s) = String.length s →
  takeWhile p s = s ∧ allChars p s = true.
Proof.
  induction s as [|c s IH]; cbn [takeWhile String.length allChars]; [done|].
  destruct (p c); cbn [String.length]; [|discriminate].
  intros [= H]. destruct (IH H) as [-> ->]. done.
Qed.

Lemma takeWhile_all p s : allChars p s = true → takeWhile p s = s.
Proof.
  induction s as [|c s IH]; cbn [takeWhile allChars]; [done|].
  intros [-> H]%andb_prop. by rewrite IH.
Qed.

Lemma reBSSID_Some block m :
  reBSSID block = Some m →
  ∃ rest, block = m +:+ rest ∧ String.length m = 17%nat
          ∧ allChars isHexColon m = true.
Proof.
  unfold reBSSID. case_decide as Hlen; [|done]. intros [= <-].
  pose proof (substring_length 17 block) as H1.
  pose proof (takeWhile_length isHexColon (substring 0 17 block)) as H2.
  destruct (takeWhile_full isHexColon (substring 0 17 block)) as [E Hall];
    [lia|].
  rewrite E in *. destruct (substring_prefix 17 block) as [rest Hrest].
  by exists rest.
Qed.

Lemma reBSSID_starts block :
  startsWithAddress block → is_Some (reBSSID block).
Proof.
  intros (m & rest & -> & Hlen & Hall). unfold reBSSID.
  pose proof (substring_app m rest) as Hsub. rewrite Hlen in Hsub.
  rewrite Hsub, takeWhile_all by done.
  rewrite decide_True by done. by eexists.
Qed.

Lemma upperChar_hex c :
  isHexColon c = true → isUpperHexColon (upperChar c) = true.
Proof.
  destruct c as [[] [] [] [] [] [] [] []]; vm_compute; done.
Qed.

Lemma upperChar_hexDigit c :
  isHexDigit c = true → isUpperHexDigit (upperChar c) = true.
Proof.
  destruct c as [[] [] [] [] [] [] [] []]; vm_compute; done.
Qed.

Lemma upperChar_colon c : (code c =? 58)%N = true → upperChar c = c.
Proof.
  destruct c as [[] [] [] [] [] [] [] []]; vm_compute; done.
Qed.

Lemma strings_ToUpper_length s :
  String.length (strings_ToUpper s) = String.length s.
Proof.
  induction s as [|c s IH]; cbn [strings_ToUpper String.length]; [done|].
  by rewrite IH.
Qed.

Lemma strings_ToUpper_hex s :
  allChars isHexColon s = true →
  allChars isUpperHexColon (strings_ToUpper s) = true.
Proof.
  induction s as [|c s IH]; cbn [strings_ToUpper allChars]; [done|].
  intros [Hc Hs]%andb_prop. by rewrite upperChar_hex, IH.
Qed.

Lemma strings_ToUpper_shaped g : ∀ s,
  shaped isHexDigit g s = true →
  shaped isUpperHexDigit g (strings_ToUpper s) = true.
Proof.
  induction g as [|g IH]; intros s; [done|].
  destruct s as [|a [|b rest]]; try done.
  cbn [shaped strings_ToUpper].
  intros [[Ha Hb]%andb_prop Hrest]%andb_prop.
  rewrite !upperChar_hexDigit by done. cbn [andb].
  destruct g as [|g'].
  - apply bool_decide_eq_true in Hrest as ->. done.
  - destruct rest as [|c rest']; [done|].
    apply andb_prop in Hrest as [Hc Hrest'].
    cbn [strings_ToUpper]. rewrite (upperChar_colon c Hc), Hc.
    cbn [andb]. by apply IH.
Qed.

Lemma parseBlock_Some now block n :
  parseBlock now block = Some n →
  ∃ m rest, block = m +:+ rest ∧ String.length m = 17%nat
            ∧ allChars isHexColon m = true
            ∧ BSSID n = strings_ToUpper m.
Proof.
  unfold parseBlock. destruct (reBSSID block) as [m|] eqn:E; [|done].
  intros [= <-]. apply reBSSID_Some in E as (rest & -> & Hlen & Hall).
  by exists m, rest.
Qed.

Lemma parseBlock_None now block :
  ¬ startsWithAddress block → parseBlock now block = None.
Proof.
  intros Hno. unfold parseBlock.
  destruct (reBSSID block) as [m|] eqn:E; [|done].
  destruct Hno. apply reBSSID_Some in E as (rest & -> & Hlen & Hall).
  by exists m, rest.
Qed.

Lemma parseBlocks_elem clock n : ∀ blocks k,
  n ∈ parseBlocks clock k blocks →
  ∃ block t, block ∈ blocks ∧ parseBlock t block = Some n.
Proof.
  induction blocks as [|block blocks IH]; intros k; cbn [parseBlocks].
  { intros H. by apply elem_of_nil in H. }
  assert (∀ k', n ∈ parseBlocks clock k' blocks →
            ∃ block0 t, block0 ∈ block :: blocks
                        ∧ parseBlock t block0 = Some n) as Hrest.
  { intros k' H. destruct (IH k' H) as (b0 & t & Hb0 & Ht).
    exists b0, t. split; [by right|done]. }
  case_decide as Hblank; [apply Hrest|].
  destruct (parseBlock (clock k) block) as [n0|] eqn:E; [|apply Hrest].
  intros [->|Hin]%elem_of_cons; [|by apply (Hrest (S k))].
  exists block, (clock k). split; [by left|done].
Qed.

Lemma signalLess_key (x y : Network) :
  bool_decide (Signal x > Signal y)
  = bool_decide (signalKey x < signalKey y)%Z.
Proof. unfold signalKey. apply bool_decide_ext. lia. Qed.

Lemma parseScanOutput_Permutation clock output :
  parseScanOutput clock output
  ≡ₚ parseBlocks clock 0 (regexp_Split_BSS output).
Proof.
  unfold parseScanOutput.
  apply (sort_Slice_spec _ signalKey signalLess_key).
Qed.

(** C2, as the code has it.  The output of the parser holds the parsed
    records, each once, in non-increasing order of their signal; records of
    equal signal keep their order when the batch has at most 12 records
    (for more, [sort.Slice] gives no such order). *)
Theorem parseScanOutput_sorted (clock : nat → Z) (output : string) :
  parseScanOutput clock output
    ≡ₚ parseBlocks clock 0 (regexp_Split_BSS output)
  ∧ StronglySorted (fun x y => Signal x >= Signal y)
      (parseScanOutput clock output)
  ∧ ((length (parseBlocks clock 0 (regexp_Split_BSS output)) <= 12)%nat →
     ∀ k, filter (fun n => Signal n = k) (parseScanOutput clock output)
          = filter (fun n => Signal n = k)
              (parseBlocks clock 0 (regexp_Split_BSS output))).
Proof.
  split_and!.
  - apply parseScanOutput_Permutation.
  - unfold parseScanOutput.
    destruct (sort_Slice_spec _ signalKey signalLess_key
                (parseBlocks clock 0 (regexp_Split_BSS output)))
      as (_ & _ & Hs).
    induction Hs as [|x l Hs IH Hall]; constructor; [done|].
    eapply Forall_impl; [exact Hall|]. unfold signalKey. cbn. intros y. lia.
  - intros Hlen k. unfold parseScanOutput.
    rewrite !(list_filter_iff (fun n => Signal n = k)
                (fun n => signalKey n = (- k)%Z))
      by (intros n; unfold signalKey; lia).
    by apply (sort_Slice_stable_small _ signalKey signalLess_key).
Qed.

(** C2 as the specification words it fails: of thirteen sections, twelve
    at -50 dBm in the order of their addresses and one at -40 dBm, the
    parser returns the twelve in another order. *)
Lemma parseScanOutput_not_stable :
  BSSID <$> filter (fun n => Signal n = -50)
              (parseBlocks (fun _ => 0) 0 (regexp_Split_BSS thirteen_blocks))
  = ["00:00:00:00:00:00"; "00:00:00:00:00:01"; "00:00:00:00:00:02";
     "00:00:00:00:00:03"; "00:00:00:00:00:04"; "00:00:00:00:00:05";
     "00:00:00:00:00:06"; "00:00:00:00:00:07"; "00:00:00:00:00:08";
     "00:00:00:00:00:09"; "00:00:00:00:00:0A"; "00:00:00:00:00:0B"]
  ∧ BSSID <$> filter (fun n => Signal n = -50)
                (parseScanOutput (fun _ => 0) thirteen_blocks)
    = ["00:00:00:00:00:06"; "00:00:00:00:00:02"; "00:00:00:00:00:03";
       "00:00:00:00:00:04"; "00:00:00:00:00:05"; "00:00:00:00:00:00";
       "00:00:00:00:00:07"; "00:00:00:00:00:08"; "00:00:00:00:00:09";
       "00:00:00:00:00:0A"; "00:00:00:00:00:0B"; "00:00:00:00:00:01"]
  ∧ filter (fun n => Signal n = -50)
      (parseScanOutput (fun _ => 0) thirteen_blocks)
    ≠ filter (fun n => Signal n = -50)
        (parseBlocks (fun _ => 0) 0 (regexp_Split_BSS thirteen_blocks)).
Proof.
  assert (BSSID <$> filter (fun n => Signal n = -50)
            (parseBlocks (fun _ => 0) 0 (regexp_Split_BSS thirteen_blocks))
          = ["00:00:00:00:00:00"; "00:00:00:00:00:01"; "00:00:00:00:00:02";
             "00:00:00:00:00:03"; "00:00:00:00:00:04"; "00:00:00:00:00:05";
             "00:00:00:00:00:06"; "00:00:00:00:00:07"; "00:00:00:00:00:08";
             "00:00:00:00:00:09"; "00:00:00:00:00:0A"; "00:00:00:00:00:0B"])
    as H1 by (vm_compute; reflexivity).
  assert (BSSID <$> filter (fun n => Signal n = -50)
            (parseScanOutput (fun _ => 0) thirteen_blocks)
          = ["00:00:00:00:00:06"; "00:00:00:00:00:02"; "00:00:00:00:00:03";
             "00:00:00:00:00:04"; "00:00:00:00:00:05"; "00:00:00:00:00:00";
             "00:00:00:00:00:07"; "00:00:00:00:00:08"; "00:00:00:00:00:09";
             "00:00:00:00:00:0A"; "00:00:00:00:00:0B"; "00:00:00:00:00:01"])
    as H2 by (vm_compute; reflexivity).
  split_and!; [done|done|].
  intros E. rewrite E, H1 in H2. discriminate H2.
Qed.

(** Past twelve records and after an unbalanced partition the sort goes
    through [breakPatterns]: of fourteen sections, nine at -50 dBm and five
    at -60 dBm, the records come out in this order. *)
Example fourteen_blocks_order :
  BSSID <$> parseScanOutput (fun _ => 0) fourteen_blocks
  = ["00:00:00:00:00:06"; "00:00:00:00:00:0A"; "00:00:00:00:00:07";
     "00:00:00:00:00:03"; "00:00:00:00:00:0B"; "00:00:00:00:00:00";
     "00:00:00:00:00:09"; "00:00:00:00:00:0C"; "00:00:00:00:00:01";
     "00:00:00:00:00:08"; "00:00:00:00:00:05"; "00:00:00:00:00:04";
     "00:00:00:00:00:02"; "00:00:00:00:00:0D"].
Proof. vm_compute. reflexivity. Qed.

(** C5, as the code has it.  Every record of the output has as its address
    the first 17 characters of a block, which are hexadecimal digits or
    colons, with the letters in upper case; it is in canonical form when
    those 17 characters are six pairs of hexadecimal digits separated by
    colons; and a block that does not start with 17 such characters yields
    no record. *)
Theorem parsed_address (clock : nat → Z) (output : string) :
  (∀ n, n ∈ parseScanOutput clock output →
     ∃ block m rest,
       block ∈ regexp_Split_BSS output ∧ block = m +:+ rest
       ∧ String.length m = 17%nat ∧ allChars isHexColon m = true
       ∧ BSSID n = strings_ToUpper m
       ∧ String.length (BSSID n) = 17%nat
       ∧ allChars isUpperHexColon (BSSID n) = true
       ∧ (looseAddress m = true → canonicalAddress (BSSID n) = true))
  ∧ (∀ now block, ¬ startsWithAddress block → parseBlock now block = None).
Proof.
  split; [|apply parseBlock_None].
  intros n Hn. rewrite parseScanOutput_Permutation in Hn.
  apply parseBlocks_elem in Hn as (block & t & Hblock & Ht).
  apply parseBlock_Some in Ht as (m & rest & -> & Hlen & Hall & HB).
  exists (m +:+ rest), m, rest. rewrite HB.
  split_and!; try done.
  - by rewrite strings_ToUpper_length.
  - by apply strings_ToUpper_hex.
  - apply strings_ToUpper_shaped.
Qed.

(** C5 as the specification words it fails: a block that starts with 17
    colons yields a record, whose address is not in canonical form. *)
Lemma address_not_canonical :
  BSSID <$> parseScanOutput (fun _ => 0) "BSS :::::::::::::::::"
  = [":::::::::::::::::"]
  ∧ canonicalAddress ":::::::::::::::::" = false.
Proof. split; vm_compute; reflexivity. Qed.

(** C9, as the code has it.  Every record of the output comes from one of
    the fragments of the split, the one before the first marker included;
    it comes from a fragment after a marker whenever the leading one does
    not start with 17 hexadecimal digits or colons; and the leading
    fragment is empty when the text starts with a marker. *)
Theorem leading_fragment (clock : nat → Z) (output : string) :
  (∀ n, n ∈ parseScanOutput clock output →
     ∃ block now,
       block ∈ regexp_Split_BSS output ∧ parseBlock now block = Some n
       ∧ (¬ startsWithAddress (hd "" (regexp_Split_BSS output)) →
          block ∈ tail (regexp_Split_BSS output)))
  ∧ (∀ rest, output = "BSS " +:+ rest →
       hd "" (regexp_Split_BSS output) = "").
Proof.
  split.
  - intros n Hn. rewrite parseScanOutput_Permutation in Hn.
    apply parseBlocks_elem in Hn as (block & t & Hblock & Ht).
    exists block, t. split_and!; [done|done|].
    intros Hno. unfold regexp_Split_BSS in *.
    destruct (splitBSS true output) as [f fs]. cbn [hd tail] in *.
    apply elem_of_cons in Hblock as [->|Hin]; [|done].
    by rewrite parseBlock_None in Ht.
  - intros rest ->. unfold regexp_Split_BSS.
    rewrite !append_cons, append_nil_l. cbn [splitBSS].
    by destruct (splitBSS false rest).
Qed.

(** C9 as the specification words it fails: the text before the first
    marker yields a record when it starts with an address. *)
Lemma leading_fragment_parsed :
  regexp_Split_BSS headless_blob
  = ["AA:BB:CC:DD:EE:FF" +:+ LF; "11:22:33:44:55:66" +:+ LF]
  ∧ BSSID <$> parseScanOutput (fun _ => 0) headless_blob
    = ["AA:BB:CC:DD:EE:FF"; "11:22:33:44:55:66"]
  ∧ BSSID <$> parseBlocks (fun _ => 0) 0
                (tail (regexp_Split_BSS headless_blob))
    = ["11:22:33:44:55:66"].
Proof. split_and!; vm_compute; reflexivity. Qed.


(** The block of the witness: the marker gives channel 6, not the channel
    100 of the frequency 5500. *)
Example channel_marker_wins :
  Channel <$> parseBlock 0 channel_block = Some 6
  ∧ freqToChannel 5500 = 100.
Proof. split; vm_compute; reflexivity. Qed.

End ParserOutput.

(** * Further properties of the session tracker *)

Section TrackerExtras.

Lemma signals_for_nil a batch :
  signals_for a batch = [] ↔ a ∉ BSSID <$> batch.
Proof.
  unfold signals_for. induction batch as [|net batch IH].
  { split; [intros _; apply not_elem_of_nil|done]. }
  rewrite filter_cons, fmap_cons, not_elem_of_cons.
  destruct (decide (BSSID net = a)) as [Ha|Ha].
  - split; [done|]. intros [Hne _]. by destruct Hne.
  - rewrite IH. split; [intros ?; split; [congruence|done]|by intros [_ ?]].
Qed.

Lemma Count_Update_body now m news net :
  (size (Update_body now (m, news) net).1 + length news
   = size m + length (Update_body now (m, news) net).2)%nat.
Proof.
  rewrite Update_body_fst, Update_body_snd, length_app.
  destruct (m !! BSSID net) as [h|] eqn:E.
  - rewrite decide_False by done.
    rewrite map_size_insert_Some by (by rewrite E). cbn. lia.
  - rewrite decide_True by done.
    rewrite map_size_insert_None by done. cbn. lia.
Qed.

Lemma foldl_Update_body_size now l : ∀ m news,
  (size (foldl (Update_body now) (m, news) l).1 + length news
   = size m + length (foldl (Update_body now) (m, news) l).2)%nat.
Proof.
  induction l as [|net l IH]; intros m news; [cbn; lia|].
  cbn [foldl]. pose proof (Count_Update_body now m news net) as H1.
  destruct (Update_body now (m, news) net) as [m1 news1].
  cbn [fst snd] in H1. specialize (IH m1 news1). lia.
Qed.

Lemma Update_size s now batch :
  (size (states (Update s now batch).1)
   = size (states s) + length (Update s now batch).2)%nat.
Proof.
  unfold Update.
  pose proof (foldl_Update_body_size now batch (states s) []) as Hloop.
  destruct (foldl (Update_body now) (states s, []) batch) as [m news].
  cbn [fst snd length states] in *. lia.
Qed.

(** X1.  [Count] after an update is [Count] before plus the number of
    addresses the update reports as newly discovered. *)
Theorem Count_Update (s : Session) (now : Z) (batch : list Network) :
  Count (Update s now batch).1
  = (Count s + length (Update s now batch).2)%nat.
Proof. unfold Count. apply Update_size. Qed.

(** X2.  An empty session tracks nothing; after an update the tracked
    addresses are those tracked before and those of the batch, and [Get]
    answers [None] for every other address. *)
Theorem tracked_after_Update (s : Session) (now : Z) (batch : list Network)
    (a : string) :
  Get NewSession a = None ∧ Count NewSession = 0%nat
  ∧ (is_Some (Get (Update s now batch).1 a)
     ↔ is_Some (Get s a) ∨ a ∈ BSSID <$> batch)
  ∧ (Get s a = None → a ∉ BSSID <$> batch →
     Get (Update s now batch).1 a = None).
Proof.
  split_and!.
  - unfold Get. cbn. apply lookup_empty.
  - unfold Count. cbn. apply map_size_empty.
  - split; [|rewrite Get_Update; apply track_is_Some].
    intros Hs. destruct (decide (a ∈ BSSID <$> batch)) as [|Hno];
      [by right|left].
    rewrite Get_Update, track_absent in Hs; [done|].
    by apply signals_for_nil.
  - intros Hnone Hno. rewrite Get_Update, track_absent; [done|].
    by apply signals_for_nil.
Qed.

(** X3.  An update leaves the state of every address that its batch does
    not hold exactly as it was. *)
Theorem Update_frame (s : Session) (now : Z) (batch : list Network)
    (a : string) :
  a ∉ BSSID <$> batch → Get (Update s now batch).1 a = Get s a.
Proof.
  intros Hno. rewrite Get_Update. apply track_absent.
  by apply signals_for_nil.
Qed.

Lemma Update_frame_witness :
  Get (Update (Update NewSession 1 [sighting "AA:BB:CC:DD:EE:FF" (-40)]).1
         2 [sighting "11:22:33:44:55:66" (-70)]).1 "AA:BB:CC:DD:EE:FF"
  = Get (Update NewSession 1 [sighting "AA:BB:CC:DD:EE:FF" (-40)]).1
      "AA:BB:CC:DD:EE:FF".
Proof.
  apply (Update_frame
           (Update NewSession 1 [sighting "AA:BB:CC:DD:EE:FF" (-40)]).1
           2 [sighting "11:22:33:44:55:66" (-70)] "AA:BB:CC:DD:EE:FF").
  vm_compute. intros H. inversion H as [|? ? ? H1]; subst. inversion H1.
Defined.

Lemma track_seen now a batch : ∀ o,
  a ∈ BSSID <$> batch →
  ∃ h, track now a o batch = Some h
       ∧ FirstSeen h = from_option FirstSeen now o
       ∧ ns_LastSeen h = now
       ∧ ns_BSSID h = from_option ns_BSSID a o.
Proof.
  induction batch as [|net batch IH]; intros o Hin.
  { by apply elem_of_nil in Hin. }
  unfold track in *. cbn [foldl].
  destruct (decide (BSSID net = a)) as [Ha|Ha].
  - destruct (decide (a ∈ BSSID <$> batch)) as [Hrest|Hrest].
    + destruct (IH (Some (touch now o net)) Hrest) as (h & E & H1 & H2 & H3).
      exists h. split; [done|]. rewrite H1, H3. cbn. rewrite Ha.
      by destruct o.
    + apply signals_for_nil in Hrest.
      pose proof (track_absent now a batch (Some (touch now o net)) Hrest)
        as E. unfold track in E. rewrite E.
      exists (touch now o net). cbn. rewrite Ha. by destruct o.
  - rewrite fmap_cons in Hin.
    apply elem_of_cons in Hin as [Hin|Hin]; [congruence|]. by apply IH.
Qed.

Lemma sightings_cons a now batch calls :
  sightings a ((now, batch) :: calls)
  = if decide (a ∈ BSSID <$> batch) then now :: sightings a calls
    else sightings a calls.
Proof.
  unfold sightings. rewrite filter_cons. cbn [snd].
  by destruct (decide (a ∈ BSSID <$> batch)).
Qed.

Lemma run_seen a calls : ∀ s,
  FirstSeen <$> Get (run s calls) a
    = from_option (fun h => Some (FirstSeen h)) (head (sightings a calls))
        (Get s a)
  ∧ ns_LastSeen <$> Get (run s calls) a
    = from_option Some (ns_LastSeen <$> Get s a) (last (sightings a calls))
  ∧ ns_BSSID <$> Get (run s calls) a
    = from_option (fun h => Some (ns_BSSID h))
        ((fun _ => a) <$> head (sightings a calls)) (Get s a).
Proof.
  induction calls as [|[now batch] calls IH]; intros s.
  { cbn. by destruct (Get s a). }
  rewrite run_cons, sightings_cons.
  destruct (IH (Update s now batch).1) as (I1 & I2 & I3).
  rewrite I1, I2, I3. rewrite Get_Update.
  destruct (decide (a ∈ BSSID <$> batch)) as [Hin|Hin].
  - destruct (track_seen now a batch (Get s a) Hin)
      as (h & -> & H1 & H2 & H3).
    cbn [from_option fmap option_fmap option_map head].
    rewrite H1, H2, H3, last_cons.
    destruct (Get s a), (last (sightings a calls)); done.
  - rewrite track_absent by (by apply signals_for_nil). done.
Qed.

(** X4.  In a session grown from the empty one, the state of an address is
    filed under its own [BSSID]; its [FirstSeen] is the clock reading of the
    first update whose batch held the address and its [LastSeen] that of the
    last one; an address that no batch held has no state. *)
Theorem seen_times (calls : list (Z * list Network)) (a : string) :
  FirstSeen <$> Get (run NewSession calls) a = head (sightings a calls)
  ∧ ns_LastSeen <$> Get (run NewSession calls) a = last (sightings a calls)
  ∧ ns_BSSID <$> Get (run NewSession calls) a
    = (fun _ => a) <$> head (sightings a calls).
Proof.
  destruct (run_seen a calls NewSession) as (H1 & H2 & H3).
  rewrite H1, H2, H3. unfold Get. cbn. rewrite lookup_empty. cbn.
  by destruct (last (sightings a calls)).
Qed.

Lemma touch_extrema now o net :
  Some (extrema (touch now o net)) = widen (extrema <$> o) (Signal net).
Proof.
  unfold touch, extrema, widen. destruct o as [h|]; cbn.
  - f_equal. f_equal; case_decide; lia.
  - f_equal. f_equal; case_decide; lia.
Qed.

Lemma track_extrema now a batch : ∀ o,
  extrema <$> track now a o batch
  = foldl widen (extrema <$> o) (signals_for a batch).
Proof.
  unfold track, signals_for.
  induction batch as [|net batch IH]; intros o; [done|].
  cbn [foldl]. rewrite filter_cons.
  destruct (decide (BSSID net = a)) as [Ha|Ha]; [|apply IH].
  rewrite fmap_cons. cbn [foldl]. rewrite IH. f_equal.
  cbn [fmap option_fmap option_map]. apply touch_extrema.
Qed.

Lemma run_extrema a calls : ∀ s,
  extrema <$> Get (run s calls) a
  = foldl widen (extrema <$> Get s a) (readings a calls).
Proof.
  unfold readings.
  induction calls as [|[now batch] calls IH]; intros s; [done|].
  rewrite run_cons, IH, !fmap_cons. cbn [snd concat].
  by rewrite foldl_app, Get_Update, track_extrema.
Qed.

Lemma foldl_widen xs : ∀ lo hi,
  foldl widen (Some (lo, hi)) xs
  = Some (foldl Z.min lo xs, foldl Z.max hi xs).
Proof.
  induction xs as [|x xs IH]; intros lo hi; [done|].
  cbn [foldl widen]. apply IH.
Qed.

(** X5.  In a session grown from the empty one, [MinSignal] and [MaxSignal]
    of an address are the least and the greatest of all the readings ever
    submitted for it, those no longer held in the history included. *)
Theorem extrema_of_all_readings (calls : list (Z * list Network))
    (a : string) :
  extrema <$> Get (run NewSession calls) a
  = match readings a calls with
    | [] => None
    | x :: xs => Some (foldl Z.min x xs, foldl Z.max x xs)
    end.
Proof.
  rewrite run_extrema. unfold Get. cbn [states NewSession].
  rewrite lookup_empty. cbn [fmap option_fmap option_map].
  destruct (readings a calls) as [|x xs]; [done|].
  cbn [foldl widen]. apply foldl_widen.
Qed.

(** X6.  A state created by an update at clock reading [now] is new at
    reading [t] exactly when less than 30 seconds have passed since [now],
    whatever updates have followed. *)
Theorem IsNew_window (s : Session) (now : Z) (batch : list Network)
    (a : string) (calls : list (Z * list Network)) (t : Z) :
  Get s a = None → a ∈ BSSID <$> batch →
  ∃ h, Get (run (Update s now batch).1 calls) a = Some h
       ∧ FirstSeen h = now
       ∧ (IsNew h t = true ↔ t - now < 30 * 1000000000).
Proof.
  intros Hnone Hin.
  destruct (run_seen a calls (Update s now batch).1) as (H1 & _ & _).
  rewrite Get_Update in H1.
  destruct (track_seen now a batch (Get s a) Hin) as (h1 & E & F1 & _).
  rewrite E, Hnone in *. cbn in H1, F1.
  destruct (Get (run (Update s now batch).1 calls) a) as [h|]; [|done].
  injection H1 as H1. exists h. split_and!; [done|congruence|].
  unfold IsNew, time_Sub, newTimeout, minInt64, maxInt64.
  rewrite bool_decide_eq_true, H1, F1. lia.
Qed.

Lemma IsNew_window_witness :
  ∃ h, Get (run (Update NewSession 1000000000
                   [sighting "AA:BB:CC:DD:EE:FF" (-40)]).1
              [(20000000000, [sighting "AA:BB:CC:DD:EE:FF" (-45)])])
           "AA:BB:CC:DD:EE:FF" = Some h
       ∧ FirstSeen h = 1000000000
       ∧ (IsNew h 31000000000 = true
          ↔ 31000000000 - 1000000000 < 30 * 1000000000).
Proof.
  apply (IsNew_window NewSession 1000000000
           [sighting "AA:BB:CC:DD:EE:FF" (-40)] "AA:BB:CC:DD:EE:FF"
           [(20000000000, [sighting "AA:BB:CC:DD:EE:FF" (-45)])]
           31000000000).
  - vm_compute. reflexivity.
  - vm_compute. apply list_elem_of_here.
Defined.

(** X7.  The level of the sparkline does not fall when the reading grows,
    as long as the scaled readings fit the 64-bit integer. *)
Theorem sparkIndex_monotone (s1 s2 : Z) :
  minInt64 <= (s1 + 100) * 7 → (s2 + 100) * 7 <= maxInt64 → s1 <= s2 →
  sparkIndex s1 <= sparkIndex s2.
Proof.
  intros H1 H2 Hle.
  rewrite !sparkIndex_trunc by (unfold minInt64, maxInt64 in *; lia).
  unfold trunc_level, clamp.
  assert (Z.quot ((s1 + 100) * 7) 80 <= Z.quot ((s2 + 100) * 7) 80)
    by (apply Z.quot_le_mono; lia).
  lia.
Qed.

Lemma sparkIndex_monotone_witness :
  sparkIndex (-70) <= sparkIndex (-40).
Proof.
  apply (sparkIndex_monotone (-70) (-40)); vm_compute; discriminate.
Defined.

(** X8.  The sparkline of a tracked address holds at least one glyph and at
    most ten, one for each reading of its history, each of them one of the
    eight glyphs. *)
Theorem Sparkline_of_tracked (calls : list (Z * list Network)) (a : string)
    (h : NetworkState) :
  Get (run NewSession calls) a = Some h →
  length (Sparkline h) = length (SignalHistory h)
  ∧ (1 <= length (Sparkline h) <= 10)%nat
  ∧ Forall (fun g => g ∈ sparkBlocks) (Sparkline h).
Proof.
  intros Hget.
  assert (length (Sparkline h) = length (SignalHistory h)) as Hlen
    by (by rewrite Sparkline_map, length_map).
  split; [done|split].
  - rewrite Hlen.
    destruct (decide (concat (signals_for a <$> calls.*2) = [])) as [Hn|Hn].
    { rewrite (run_absent a calls NewSession Hn) in Hget.
      unfold Get in Hget. cbn in Hget. by rewrite lookup_empty in Hget. }
    destruct (run_history a calls NewSession Hn) as (h' & E & Hh).
    rewrite Hget in E. injection E as <-.
    rewrite Hh. unfold window. rewrite length_drop.
    unfold Get. cbn [states NewSession]. rewrite lookup_empty.
    cbn [history_of from_option app].
    destruct (concat (signals_for a <$> calls.*2)); [done|].
    cbn [length]. lia.
  - rewrite Sparkline_map. apply Forall_forall. intros g Hg.
    change (map ?f ?l) with (f <$> l) in Hg.
    apply list_elem_of_fmap in Hg as (sig & -> & _).
    pose proof (sparkIndex_bounds sig) as Hb. unfold glyph.
    assert (Z.to_nat (sparkIndex sig) < length sparkBlocks)%nat as Hlt
      by (cbn; lia).
    apply lookup_lt_is_Some in Hlt as [g Hg].
    rewrite (nth_lookup_Some _ _ 0 _ Hg).
    by apply list_elem_of_lookup_2 in Hg.
Qed.

Lemma Sparkline_of_tracked_witness :
  ∃ h, Get (run NewSession fifteen_calls) "AA:BB:CC:DD:EE:FF" = Some h
       ∧ length (Sparkline h) = length (SignalHistory h)
       ∧ (1 <= length (Sparkline h) <= 10)%nat
       ∧ Forall (fun g => g ∈ sparkBlocks) (Sparkline h).
Proof.
  eexists. split; [vm_compute; reflexivity|].
  apply (Sparkline_of_tracked fifteen_calls "AA:BB:CC:DD:EE:FF").
  vm_compute. reflexivity.
Defined.

End TrackerExtras.

(** * Further properties of the parser *)

Section ParserExtras.

Local Open Scope string_scope.

(** X9.  Channel numbers and centre frequencies round-trip: the centre
    frequency of a 2.4 GHz channel 1 to 13, of a 5 GHz channel 36 to 165 and
    of a 6 GHz channel 1 to 233 is mapped back to the channel; and whatever
    the frequency, the channel lies between 0 and 233. *)
Theorem freqToChannel_roundtrip (c freq : Z) :
  (1 <= c <= 13 → freqToChannel (2407 + 5 * c) = c)
  ∧ (36 <= c <= 165 → freqToChannel (5000 + 5 * c) = c)
  ∧ (1 <= c <= 233 → freqToChannel (5950 + 5 * c) = c)
  ∧ 0 <= freqToChannel freq <= 233.
Proof.
  unfold freqToChannel. split_and!.
  - intros Hc. rewrite decide_True by lia.
    replace (2407 + 5 * c - 2407) with (c * 5) by lia. apply Z.quot_mul. lia.
  - intros Hc. rewrite decide_False by lia. rewrite decide_False by lia.
    rewrite decide_True by lia.
    replace (5000 + 5 * c - 5000) with (c * 5) by lia. apply Z.quot_mul. lia.
  - intros Hc. rewrite decide_False by lia. rewrite decide_False by lia.
    rewrite decide_False by lia. rewrite decide_True by lia.
    replace (5950 + 5 * c - 5950) with (c * 5) by lia. apply Z.quot_mul. lia.
  - repeat case_decide; try lia; rewrite Z.quot_div_nonneg by lia;
      apply Z.div_pos; lia.
  - repeat case_decide; try lia; rewrite Z.quot_div_nonneg by lia;
      apply Z.div_le_upper_bound; lia.
Qed.

Lemma parseSecurity_label block : parseSecurity block ∈ securityLabels.
Proof.
  unfold parseSecurity, securityLabels.
  repeat match goal with
  | |- context [if ?c then _ else _] => destruct c; cbn [andb]
  end; set_solver.
Qed.

Lemma parseBlock_fields now block n :
  parseBlock now block = Some n →
  Security n = parseSecurity block
  ∧ SSID n ≠ ""
  ∧ (reSSID block = None → SSID n = "<hidden>")
  ∧ Signal n = from_option strconv_Atoi 0 (reSignal block)
  ∧ Frequency n = from_option strconv_Atoi 0 (reFreq block)
  ∧ Channel n = from_option strconv_Atoi (freqToChannel (Frequency n))
                  (reChannel block)
  ∧ LastSeen n = now.
Proof.
  unfold parseBlock. destruct (reBSSID block) as [m|]; [|done].
  intros [= <-]. cbn.
  split_and!; try done.
  - case_decide as H; [done|exact H].
  - intros ->. done.
Qed.

Lemma parseScanOutput_Forall clock output (P : Network → Prop) :
  (∀ now block n, parseBlock now block = Some n → P n) →
  Forall P (parseScanOutput clock output).
Proof.
  intros HP. apply Forall_forall. intros n Hn.
  rewrite parseScanOutput_Permutation in Hn.
  apply parseBlocks_elem in Hn as (block & t & _ & Ht). by eapply HP.
Qed.

(** X10.  Every record of the output has a name that is not empty and a
    security label that is one of the six. *)
Theorem parsed_name_and_label (clock : nat → Z) (output : string) :
  Forall (fun n => SSID n ≠ "" ∧ Security n ∈ securityLabels)
    (parseScanOutput clock output).
Proof.
  apply parseScanOutput_Forall. intros now block n Hn.
  apply parseBlock_fields in Hn as (-> & Hs & _). split; [done|].
  apply parseSecurity_label.
Qed.

Lemma findFirst_Some {X} (m : string → option X) s x :
  findFirst m s = Some x → ∃ p1 p2, s = p1 +:+ p2 ∧ m p2 = Some x.
Proof.
  induction s as [|c s IH]; cbn [findFirst].
  - destruct (m "") eqn:E; [|done]. intros [= ->]. by exists "", "".
  - destruct (m (String c s)) eqn:E.
    + intros [= ->]. by exists "", (String c s).
    + intros H. destruct (IH H) as (p1 & p2 & -> & Hm).
      by exists (String c p1), p2.
Qed.

Lemma findFirstLine_Some {X} (m : string → option X) s x : ∀ bol,
  findFirstLine m bol s = Some x → ∃ p1 p2, s = p1 +:+ p2 ∧ m p2 = Some x.
Proof.
  induction s as [|c s IH]; intros bol; cbn [findFirstLine].
  - destruct bol; [|done]. destruct (m "") eqn:E; [|done].
    intros [= ->]. by exists "", "".
  - destruct (if bol then m (String c s) else None) eqn:E.
    + intros [= ->]. destruct bol; [|done]. by exists "", (String c s).
    + intros H. destruct (IH _ H) as (p1 & p2 & -> & Hm).
      by exists (String c p1), p2.
Qed.

Lemma takeWhile_dropWhile p s : s = takeWhile p s +:+ dropWhile p s.
Proof.
  induction s as [|c s IH]; cbn [takeWhile dropWhile]; [done|].
  destruct (p c); [|done]. rewrite append_cons. by rewrite <- IH.
Qed.

Lemma occurs_suffix sub p1 p2 : occurs sub p2 → occurs sub (p1 +:+ p2).
Proof.
  intros (pre & post & ->). exists (p1 +:+ pre), post.
  by rewrite append_assoc.
Qed.

Lemma occurs_prefix sub r : occurs sub (sub +:+ r).
Proof. by exists "", r. Qed.

Lemma reSignal_occurs block g :
  reSignal block = Some g → occurs "signal:" block.
Proof.
  intros (p1 & p2 & -> & H)%findFirst_Some. apply occurs_suffix.
  unfold reSignal_at in H.
  destruct (stripPrefix "signal:" p2) as [r|] eqn:E; [|done].
  apply stripPrefix_Some in E as ->. apply occurs_prefix.
Qed.

Lemma reFreq_occurs block g :
  reFreq block = Some g → occurs "freq:" block.
Proof.
  intros (p1 & p2 & -> & H)%findFirst_Some. apply occurs_suffix.
  unfold reFreq_at in H.
  destruct (stripPrefix "freq:" p2) as [r|] eqn:E; [|done].
  apply stripPrefix_Some in E as ->. apply occurs_prefix.
Qed.

Lemma reSSID_occurs block g :
  reSSID block = Some g → occurs "SSID:" block.
Proof.
  intros (p1 & p2 & -> & H)%findFirstLine_Some. apply occurs_suffix.
  unfold reSSID_at in H. destruct (takeWhile isBlank p2) eqn:Et; [done|].
  destruct (stripPrefix "SSID:" (dropWhile isBlank p2)) as [r|] eqn:E;
    [|done].
  apply stripPrefix_Some in E.
  rewrite (takeWhile_dropWhile isBlank p2), E.
  apply occurs_suffix, occurs_prefix.
Qed.

Lemma takeWhile_allDigits s : allDigits (takeWhile isDigit s) = true.
Proof.
  induction s as [|c s IH]; cbn [takeWhile]; [done|].
  destruct (isDigit c) eqn:E; [|done]. cbn [allDigits]. by rewrite E, IH.
Qed.

Lemma reDigits_inv s g :
  reDigits s = Some g → g ≠ "" ∧ allDigits g = true.
Proof.
  unfold reDigits. pose proof (takeWhile_allDigits s) as H.
  destruct (takeWhile isDigit s) as [|c r] eqn:E; [done|].
  intros [= <-]. done.
Qed.

Lemma reFreq_digits block g :
  reFreq block = Some g → g ≠ "" ∧ allDigits g = true.
Proof.
  intros (p1 & p2 & -> & H)%findFirst_Some. unfold reFreq_at in H.
  destruct (stripPrefix "freq:" p2); [|done]. by apply reDigits_inv in H.
Qed.

Lemma reChannel_digits block g :
  reChannel block = Some g → g ≠ "" ∧ allDigits g = true.
Proof.
  intros (p1 & p2 & -> & H)%findFirst_Some. unfold reChannel_at in H.
  destruct (stripPrefix _ p2); [|done]. by apply reDigits_inv in H.
Qed.

Lemma strconv_Atoi_range s : minInt64 <= strconv_Atoi s <= maxInt64.
Proof.
  unfold strconv_Atoi.
  match goal with |- context [let '(_, _) := ?x in _] => destruct x as [neg body] end.
  unfold minInt64, maxInt64.
  destruct body; [lia|]. destruct (digitsValue _ _); [|lia].
  repeat case_decide; lia.
Qed.

Lemma strconv_Atoi_digits_range g :
  g ≠ "" → allDigits g = true → 0 <= strconv_Atoi g <= maxInt64.
Proof.
  intros Hne Hd. rewrite strconv_Atoi_digits by done.
  pose proof (decimalValue_nonneg g Hd). unfold maxInt64. lia.
Qed.

(** X11.  A label that a block lacks leaves its field at the default: the
    name is the hidden-network sentinel, signal and frequency are zero, and
    so is the channel when there is no channel marker either. *)
Theorem missing_fields_default (now : Z) (block : string) (n : Network) :
  parseBlock now block = Some n →
  (¬ occurs "SSID:" block → SSID n = "<hidden>")
  ∧ (¬ occurs "signal:" block → Signal n = 0)
  ∧ (¬ occurs "freq:" block → Frequency n = 0)
  ∧ (¬ occurs "freq:" block → ¬ marker_present block → Channel n = 0).
Proof.
  intros (_ & _ & Hs & -> & HF & -> & _)%parseBlock_fields.
  assert (¬ occurs "freq:" block → Frequency n = 0) as HF0.
  { intros Hno. rewrite HF. destruct (reFreq block) as [g|] eqn:E; [|done].
    destruct Hno. by eapply reFreq_occurs. }
  split_and!.
  - intros Hno. apply Hs. destruct (reSSID block) as [g|] eqn:E; [|done].
    destruct Hno. by eapply reSSID_occurs.
  - intros Hno. destruct (reSignal block) as [g|] eqn:E; [|done].
    destruct Hno. by eapply reSignal_occurs.
  - done.
  - intros Hno Hnm. rewrite reChannel_absent by done. cbn.
    by rewrite HF0.
Qed.

Lemma missing_fields_default_witness :
  (¬ occurs "SSID:" bare_block →
   SSID (mkNetwork "AA:BB:CC:DD:EE:FF" "<hidden>" 0 0 0 "OPEN" 7)
   = "<hidden>")
  ∧ (¬ occurs "signal:" bare_block →
     Signal (mkNetwork "AA:BB:CC:DD:EE:FF" "<hidden>" 0 0 0 "OPEN" 7) = 0)
  ∧ (¬ occurs "freq:" bare_block →
     Frequency (mkNetwork "AA:BB:CC:DD:EE:FF" "<hidden>" 0 0 0 "OPEN" 7) = 0)
  ∧ (¬ occurs "freq:" bare_block → ¬ marker_present bare_block →
     Channel (mkNetwork "AA:BB:CC:DD:EE:FF" "<hidden>" 0 0 0 "OPEN" 7) = 0).
Proof.
  apply (missing_fields_default 7 bare_block
           (mkNetwork "AA:BB:CC:DD:EE:FF" "<hidden>" 0 0 0 "OPEN" 7)).
  vm_compute. reflexivity.
Defined.

(** X12.  The numbers of every record of the output fit the 64-bit integer:
    the signal lies within its range, frequency and channel between zero
    and its greatest value. *)
Theorem parsed_numbers_in_range (clock : nat → Z) (output : string) :
  Forall (fun n => minInt64 <= Signal n <= maxInt64
                   ∧ 0 <= Frequency n <= maxInt64
                   ∧ 0 <= Channel n <= maxInt64)
    (parseScanOutput clock output).
Proof.
  apply parseScanOutput_Forall. intros now block n Hn.
  apply parseBlock_fields in Hn as (_ & _ & _ & -> & HF & -> & _).
  assert (0 <= Frequency n <= maxInt64) as HFr.
  { rewrite HF. destruct (reFreq block) as [g|] eqn:E;
      [|cbn; unfold maxInt64; lia].
    apply reFreq_digits in E as [? ?]. by apply strconv_Atoi_digits_range. }
  split_and!; try lia.
  - destruct (reSignal block); cbn;
      [apply strconv_Atoi_range|unfold minInt64; lia].
  - destruct (reSignal block); cbn;
      [apply strconv_Atoi_range|unfold maxInt64; lia].
  - destruct (reChannel block) as [g|] eqn:E; cbn.
    + apply reChannel_digits in E as [? ?].
      by apply strconv_Atoi_digits_range.
    + apply (freqToChannel_roundtrip 0).
  - destruct (reChannel block) as [g|] eqn:E; cbn.
    + apply reChannel_digits in E as [? ?].
      by apply strconv_Atoi_digits_range.
    + pose proof (freqToChannel_roundtrip 0 (Frequency n)) as (_&_&_&Hb).
      unfold maxInt64. lia.
Qed.

(** [splitBSS] on a text that is not empty, with the test for the marker
    written with [stripPrefix]. *)
Lemma splitBSS_cons bol c s :
  splitBSS bol (String c s)
  = match (if bol then stripPrefix "BSS " (String c s) else None) with
    | Some rest => let '(f, fs) := splitBSS false rest in ("", f :: fs)
    | None => let '(f, fs) := splitBSS (isNewline c) s in (String c f, fs)
    end.
Proof.
  destruct bol; [|reflexivity].
  destruct c as [[] [] [] [] [] [] [] []]; try reflexivity.
  destruct s as [|c s]; [reflexivity|].
  destruct c as [[] [] [] [] [] [] [] []]; try reflexivity.
  destruct s as [|c s]; [reflexivity|].
  destruct c as [[] [] [] [] [] [] [] []]; try reflexivity.
  destruct s as [|c s]; [reflexivity|].
  destruct c as [[] [] [] [] [] [] [] []]; reflexivity.
Qed.

Lemma splitBSS_join n : ∀ s bol,
  (String.length s <= n)%nat →
  joinBSS ((splitBSS bol s).1 :: (splitBSS bol s).2) = s.
Proof.
  induction n as [|n IH]; intros s bol Hlen.
  { destruct s; [done|cbn in Hlen; lia]. }
  destruct s as [|c s]; [done|]. rewrite splitBSS_cons.
  cbn [String.length] in Hlen.
  destruct (if bol then stripPrefix "BSS " (String c s) else None)
    as [rest|] eqn:E.
  - destruct bol; [|done]. apply stripPrefix_Some in E.
    assert (String.length rest <= n)%nat as Hr.
    { apply (f_equal String.length) in E.
      rewrite !append_cons, append_nil_l in E. cbn [String.length] in E.
      lia. }
    specialize (IH rest false Hr).
    destruct (splitBSS false rest) as [f fs]. cbn [fst snd joinBSS] in *.
    rewrite append_nil_l. cbn [foldr]. rewrite E.
    destruct fs as [|f1 fs]; cbn [foldr] in *; by rewrite IH.
  - specialize (IH s (isNewline c) ltac:(lia)).
    destruct (splitBSS (isNewline c) s) as [f fs]. cbn [fst snd joinBSS] in *.
    by rewrite append_cons, IH.
Qed.

(** X13.  The split loses nothing: the fragments of a text, put together
    again with the marker before each one but the first, are the text; and
    there is always a first fragment. *)
Theorem split_join (output : string) :
  joinBSS (regexp_Split_BSS output) = output
  ∧ regexp_Split_BSS output ≠ [].
Proof.
  unfold regexp_Split_BSS.
  pose proof (splitBSS_join (String.length output) output true
                ltac:(lia)) as H.
  destruct (splitBSS true output) as [f fs]. done.
Qed.

End ParserExtras.

(** * Properties of the demo data *)

Section DemoExtras.

Lemma mockNetworks_mocks draw now :
  in_bounds draw →
  Forall2 (fun n m =>
             BSSID n = m_bssid m ∧ SSID n = m_ssid m
             ∧ Security n = m_security m ∧ Frequency n = m_freq m
             ∧ Channel n = freqToChannel (m_freq m) ∧ LastSeen n = now
             ∧ m_baseSignal m - 3 <= Signal n <= m_baseSignal m + 3)
    (mockNetworks draw now)
    (mocks ++ if decide (draw 16%nat 10 < 3) then [roamer] else []).
Proof.
  intros Hb.
  assert (∀ k base, -100 <= base <= 0 →
            base - 3 <= wrap64 (base + wrap64 (draw k 7 - 3)) <= base + 3)
    as Hj.
  { intros k base Hbase. pose proof (Hb k 7 ltac:(lia)).
    rewrite (wrap64_id (draw k 7 - 3))
      by (unfold minInt64, maxInt64; lia).
    rewrite wrap64_id by (unfold minInt64, maxInt64; lia). lia. }
  assert (-60 - 3 <= wrap64 (wrap64 (-60 + draw 17%nat 7) - 3) <= -60 + 3)
    as Hr.
  { pose proof (Hb 17%nat 7 ltac:(lia)).
    rewrite (wrap64_id (-60 + draw 17%nat 7))
      by (unfold minInt64, maxInt64; lia).
    rewrite wrap64_id by (unfold minInt64, maxInt64; lia). lia. }
  unfold mockNetworks, mocks.
  destruct (decide (draw 16%nat 10 < 3)); cbn [imap app];
    repeat (apply List.Forall2_cons;
            [split_and!; try done; apply Hj; cbn; lia|]);
    try apply List.Forall2_nil.
  apply List.Forall2_cons; [|apply List.Forall2_nil].
  split_and!; try done; cbn; lia.
Qed.

Lemma mockNetworks_BSSID draw now :
  in_bounds draw →
  BSSID <$> mockNetworks draw now
  = m_bssid <$> (mocks ++ if decide (draw 16%nat 10 < 3)
                          then [roamer] else []).
Proof.
  intros Hb. pose proof (mockNetworks_mocks draw now Hb) as H.
  induction H as [|n m ns ms (Hn & _) _ IH]; [done|].
  rewrite !fmap_cons. by f_equal.
Qed.

Lemma mockScan_length draw now :
  in_bounds draw →
  length (mockScan draw now)
  = (if decide (draw 16%nat 10 < 3) then 17%nat else 16%nat).
Proof.
  intros Hb. unfold mockScan.
  destruct (sort_Slice_spec _ signalKey signalLess_key
              (mockNetworks draw now)) as (_ & Hlen & _).
  rewrite Hlen, (Forall2_length _ _ _ (mockNetworks_mocks draw now Hb)),
    length_app.
  by destruct (decide (draw 16%nat 10 < 3)).
Qed.

Lemma mockScan_NoDup draw now :
  in_bounds draw → NoDup (BSSID <$> mockScan draw now).
Proof.
  intros Hb. unfold mockScan.
  destruct (sort_Slice_spec _ signalKey signalLess_key
              (mockNetworks draw now)) as (Hperm & _ & _).
  rewrite Hperm, (mockNetworks_BSSID draw now Hb).
  destruct (decide (draw 16%nat 10 < 3));
    apply (bool_decide_unpack _); vm_compute; exact I.
Qed.

(** X14.  With the results of [rand.Intn] below its bounds, the demo scan
    gives the 16 networks of the table, and a 17th when the draw for it is
    below 3, each once: sorted by signal, greater first, with the name,
    address, label and frequency of its entry, a signal within 3 dBm of the
    base signal of the entry, and the channel of its frequency, which is
    never 0. *)
Theorem mockScan_records (draw : nat → Z → Z) (now : Z) :
  in_bounds draw →
  mockScan draw now ≡ₚ mockNetworks draw now
  ∧ StronglySorted (fun x y => Signal x >= Signal y) (mockScan draw now)
  ∧ length (mockScan draw now)
    = (if decide (draw 16%nat 10 < 3) then 17%nat else 16%nat)
  ∧ NoDup (BSSID <$> mockScan draw now)
  ∧ Forall (fun n =>
              ∃ m, m ∈ roamer :: mocks
                   ∧ BSSID n = m_bssid m ∧ SSID n = m_ssid m
                   ∧ Security n = m_security m ∧ Frequency n = m_freq m
                   ∧ m_baseSignal m - 3 <= Signal n <= m_baseSignal m + 3
                   ∧ Channel n = freqToChannel (Frequency n)
                   ∧ Channel n ≠ 0 ∧ LastSeen n = now)
      (mockScan draw now).
Proof.
  intros Hb. unfold mockScan.
  destruct (sort_Slice_spec _ signalKey signalLess_key
              (mockNetworks draw now)) as (Hperm & Hlen & Hs).
  pose proof (mockNetworks_mocks draw now Hb) as Hm.
  split_and!.
  - done.
  - clear -Hs. induction Hs as [|x l Hs IH Hall]; constructor; [done|].
    eapply Forall_impl; [exact Hall|]. unfold signalKey. cbn. intros y. lia.
  - by apply mockScan_length.
  - by apply mockScan_NoDup.
  - rewrite Hperm. apply Forall_forall. intros n Hn.
    apply list_elem_of_lookup in Hn as [i Hi].
    destruct (Forall2_lookup_l _ _ _ _ _ Hm Hi)
      as (m & Hmi & H1 & H2 & H3 & H4 & H5 & H6 & H7).
    apply list_elem_of_lookup_2 in Hmi.
    assert (m ∈ roamer :: mocks) as Hin.
    { apply elem_of_app in Hmi as [Hmi|Hmi]; [by right|].
      destruct (decide (draw 16%nat 10 < 3)); [|by apply elem_of_nil in Hmi].
      apply list_elem_of_singleton in Hmi as ->. by left. }
    exists m. split_and!; try done; try lia; [congruence|].
    rewrite H5. clear -Hin.
    repeat (apply elem_of_cons in Hin as [->|Hin]; [vm_compute; discriminate|]).
    by apply elem_of_nil in Hin.
Qed.

Lemma mockScan_records_witness :
  mockScan (fun _ _ => 0) 5 ≡ₚ mockNetworks (fun _ _ => 0) 5
  ∧ StronglySorted (fun x y => Signal x >= Signal y)
      (mockScan (fun _ _ => 0) 5)
  ∧ length (mockScan (fun _ _ => 0) 5)
    = (if decide ((fun (_ : nat) (_ : Z) => 0) 16%nat 10 < 3)
       then 17%nat else 16%nat)
  ∧ NoDup (BSSID <$> mockScan (fun _ _ => 0) 5)
  ∧ Forall (fun n =>
              ∃ m, m ∈ roamer :: mocks
                   ∧ BSSID n = m_bssid m ∧ SSID n = m_ssid m
                   ∧ Security n = m_security m ∧ Frequency n = m_freq m
                   ∧ m_baseSignal m - 3 <= Signal n <= m_baseSignal m + 3
                   ∧ Channel n = freqToChannel (Frequency n)
                   ∧ Channel n ≠ 0 ∧ LastSeen n = 5)
      (mockScan (fun _ _ => 0) 5).
Proof.
  apply (mockScan_records (fun _ _ => 0) 5).
  intros k n Hn. lia.
Defined.

End DemoExtras.

(** * Properties of the user interface state *)

Section InterfaceExtras.

Lemma foldl_insert_lookup (now : Z) (l : list string) :
  ∀ (m : gmap string Z) (b : string),
    foldl (fun m bssid => <[bssid := now]> m) m l !! b
    = if decide (b ∈ l) then Some now else m !! b.
Proof.
  induction l as [|a l IH]; intros m b; cbn [foldl].
  { rewrite decide_False; [done|apply not_elem_of_nil]. }
  rewrite IH. destruct (decide (b ∈ l)) as [Hin|Hin].
  - by rewrite decide_True by (by right).
  - destruct (decide (b = a)) as [->|Hne].
    + rewrite lookup_insert_eq. by rewrite decide_True by (by left).
    + rewrite lookup_insert_ne by done. rewrite decide_False; [done|].
      intros [?|?]%elem_of_cons; done.
Qed.

Lemma filter_lookup_value (P : Z → Prop) `{!∀ t, Decision (P t)}
    (m : gmap string Z) (b : string) :
  filter (fun kv : string * Z => P kv.2) m !! b
  = match m !! b with
    | Some t => if decide (P t) then Some t else None
    | None => None
    end.
Proof.
  destruct (m !! b) as [t|] eqn:E.
  - destruct (decide (P t)) as [Hp|Hp].
    + by apply map_lookup_filter_Some.
    + apply map_lookup_filter_None. right. intros t' Ht'.
      rewrite E in Ht'. by injection Ht' as <-.
  - apply map_lookup_filter_None. by left.
Qed.

Lemma doScan_Some a nets tUpdate now :
  doScan a (Some nets) tUpdate now
  = (mkApp nets (Update (app_session a) tUpdate nets).1
       (filter (fun kv => ¬ (time_Sub now kv.2 >= newBadgeTTL))
          (foldl (fun m bssid => <[bssid := now]> m) (app_newBSSIDs a)
             (Update (app_session a) tUpdate nets).2)),
     if decide (0 < length (Update (app_session a) tUpdate nets).2
                ∧ length (Update (app_session a) tUpdate nets).2
                  < Count (Update (app_session a) tUpdate nets).1)%nat
     then Some (length (Update (app_session a) tUpdate nets).2)
     else None).
Proof.
  unfold doScan. by destruct (Update (app_session a) tUpdate nets).
Qed.

Lemma time_Sub_TTL now t :
  ¬ (time_Sub now t >= newBadgeTTL) ↔ now - t < newBadgeTTL.
Proof. unfold time_Sub, newBadgeTTL, minInt64, maxInt64. lia. Qed.

Lemma doScan_badge_lookup a nets tUpdate now b :
  app_newBSSIDs (doScan a (Some nets) tUpdate now).1 !! b
  = (if decide (b ∈ (Update (app_session a) tUpdate nets).2) then Some now
     else match app_newBSSIDs a !! b with
          | Some t => if decide (now - t < newBadgeTTL) then Some t else None
          | None => None
          end).
Proof.
  rewrite doScan_Some. cbn [fst app_newBSSIDs].
  pose proof (filter_lookup_value
                (fun t => ¬ (time_Sub now t >= newBadgeTTL))
                (foldl (fun m bssid => <[bssid := now]> m)
                   (app_newBSSIDs a)
                   (Update (app_session a) tUpdate nets).2) b) as Hf.
  cbn beta in Hf. rewrite Hf, foldl_insert_lookup. clear Hf.
  destruct (decide (b ∈ (Update (app_session a) tUpdate nets).2)).
  - rewrite decide_True; [done|]. apply time_Sub_TTL.
    unfold newBadgeTTL. lia.
  - destruct (app_newBSSIDs a !! b) as [t|]; [|done].
    destruct (decide (now - t < newBadgeTTL)) as [Ht|Ht].
    + rewrite decide_True; [done|]. by apply time_Sub_TTL.
    + rewrite decide_False; [done|]. by rewrite time_Sub_TTL.
Qed.

Lemma doScan_no_alert_first nets tUpdate now :
  (doScan ui_New (Some nets) tUpdate now).2 = None.
Proof.
  rewrite doScan_Some. cbn [snd]. rewrite decide_False; [done|].
  unfold Count. rewrite Update_size. cbn. rewrite map_size_empty. lia.
Qed.

(** X15.  After a scan that succeeded, an address is marked as new with the
    reading of the clock by this scan when the tracker reported it as newly
    discovered; another address keeps its mark when less than 30 seconds
    have passed since, and loses it otherwise.  So no mark is 30 seconds
    old or more. *)
Theorem doScan_badges (a : App) (nets : list Network) (tUpdate now : Z)
    (b : string) :
  app_newBSSIDs (doScan a (Some nets) tUpdate now).1 !! b
  = (if decide (b ∈ (Update (app_session a) tUpdate nets).2) then Some now
     else match app_newBSSIDs a !! b with
          | Some t => if decide (now - t < newBadgeTTL) then Some t else None
          | None => None
          end)
  ∧ map_Forall (fun _ t => now - t < newBadgeTTL)
      (app_newBSSIDs (doScan a (Some nets) tUpdate now).1).
Proof.
  split; [apply doScan_badge_lookup|].
  rewrite doScan_Some. cbn [fst app_newBSSIDs].
  intros k t [_ Ht]%map_lookup_filter_Some. by apply time_Sub_TTL.
Qed.

(** X16.  A scan raises the alert for new networks exactly when the tracker
    reported some address as newly discovered and it tracked some address
    before this scan, and then with the number of the addresses reported;
    so the first scan of a session raises none. *)
Theorem doScan_alert (a : App) (nets : list Network) (tUpdate now : Z)
    (k : nat) :
  ((doScan a (Some nets) tUpdate now).2 = Some k
   ↔ k = length (Update (app_session a) tUpdate nets).2
     ∧ (0 < k)%nat ∧ (0 < Count (app_session a))%nat)
  ∧ (doScan ui_New (Some nets) tUpdate now).2 = None.
Proof.
  assert (∀ a0 : App,
            (length (Update (app_session a0) tUpdate nets).2
             < Count (Update (app_session a0) tUpdate nets).1)%nat
            ↔ (0 < Count (app_session a0))%nat) as Hc.
  { intros a0. unfold Count. rewrite Update_size. lia. }
  split.
  - rewrite doScan_Some. cbn [snd]. case_decide as H.
    + rewrite Hc in H. split; [intros [= <-]; lia|].
      by intros (-> & _ & _).
    + rewrite Hc in H. split; [done|]. intros (-> & ? & ?). lia.
  - apply doScan_no_alert_first.
Qed.

(** X17.  The number of bars lies between 0 and 10, so that the row of the
    table has 10 blocks in all; the colour of the bars goes by their
    number; all 10 bars are drawn from -30 dBm on and none below
    -90 dBm. *)
Theorem signalBars_range (signal : Z) :
  0 <= (signalBars signal).1 <= 10
  ∧ (signalBars signal).2 = barColor (signalBars signal).1
  ∧ ((signalBars signal).1 = 10 ↔ -30 <= signal)
  ∧ ((signalBars signal).1 = 0 ↔ signal < -90).
Proof.
  unfold signalBars. repeat case_decide; cbn [fst snd]; split_and!;
    first [done | lia | split; intros; lia].
Qed.

(** X18.  A stronger signal never has fewer bars. *)
Theorem signalBars_monotone (s1 s2 : Z) :
  s1 <= s2 → (signalBars s1).1 <= (signalBars s2).1.
Proof.
  intros Hle. unfold signalBars. repeat case_decide; cbn [fst]; lia.
Qed.

Lemma signalBars_monotone_witness :
  (signalBars (-70)).1 <= (signalBars (-40)).1.
Proof. apply (signalBars_monotone (-70) (-40)). lia. Defined.

(** X19.  A frequency to which [freqToChannel] gives a channel is shown
    with the band of the row of the table that gave it: 2.4G for 2412 to
    2472 MHz and for 2484 MHz, 5G for 5180 to 5825 MHz, 6G for 5955 to
    7115 MHz. *)
Theorem bandInfo_of_channel (freq : Z) :
  (freqToChannel freq ≠ 0 →
   (bandInfo freq).1
   = if decide (freq <= 2484) then "2.4G"%string
     else if decide (freq <= 5825) then "5G"%string else "6G"%string)
  ∧ (2412 <= freq <= 2472 ∨ freq = 2484 → (bandInfo freq).1 = "2.4G"%string)
  ∧ (5180 <= freq <= 5825 → (bandInfo freq).1 = "5G"%string)
  ∧ (5955 <= freq <= 7115 → (bandInfo freq).1 = "6G"%string).
Proof.
  unfold bandInfo, freqToChannel. split_and!.
  - repeat case_decide; cbn [fst]; try done; try lia.
  - intros H. repeat case_decide; cbn [fst]; try done; lia.
  - intros H. repeat case_decide; cbn [fst]; try done; lia.
  - intros H. repeat case_decide; cbn [fst]; try done; lia.
Qed.

End InterfaceExtras.

(** * Properties of the vendor lookup *)

Section VendorExtras.

Local Open Scope string_scope.

Lemma isLocallyAdministered_digit c0 c rest :
  isLocallyAdministered (String c0 (String c rest))
  = bool_decide (c ∈ localDigits).
Proof.
  unfold isLocallyAdministered.
  destruct c as [[] [] [] [] [] [] [] []]; vm_compute; reflexivity.
Qed.

Lemma upperChar_digit c :
  bool_decide (upperChar c ∈ localDigits) = bool_decide (c ∈ localDigits).
Proof. destruct c as [[] [] [] [] [] [] [] []]; vm_compute; reflexivity. Qed.

Lemma upperChar_idemp c : upperChar (upperChar c) = upperChar c.
Proof. destruct c as [[] [] [] [] [] [] [] []]; vm_compute; reflexivity. Qed.

Lemma strings_ToUpper_idemp s :
  strings_ToUpper (strings_ToUpper s) = strings_ToUpper s.
Proof.
  induction s as [|c s IH]; cbn [strings_ToUpper]; [done|].
  by rewrite upperChar_idemp, IH.
Qed.

Lemma isLocallyAdministered_ToUpper s :
  isLocallyAdministered (strings_ToUpper s) = isLocallyAdministered s.
Proof.
  destruct s as [|c0 [|c s]]; [done..|]. cbn [strings_ToUpper].
  rewrite !isLocallyAdministered_digit. apply upperChar_digit.
Qed.

Lemma isLocallyAdministered_prefix s :
  isLocallyAdministered (substring 0 8 s) = isLocallyAdministered s.
Proof.
  destruct s as [|c0 [|c s]]; [done..|]. cbn [substring].
  by rewrite !isLocallyAdministered_digit.
Qed.

Lemma ouiTable_no_Local :
  map_Forall (fun _ v => v ≠ "Local") ouiTable.
Proof. apply (bool_decide_unpack _). vm_compute. exact I. Qed.

(** X20.  An address is locally administered exactly when it has a second
    character and this is one of the hexadecimal digits 2, 3, 6, 7, A, B,
    E, F, in either case. *)
Theorem isLocallyAdministered_iff (bssid : string) :
  isLocallyAdministered bssid = true
  ↔ ∃ c0 c rest, bssid = String c0 (String c rest) ∧ c ∈ localDigits.
Proof.
  split.
  - destruct bssid as [|c0 [|c rest]]; [done..|].
    rewrite isLocallyAdministered_digit. intros H%bool_decide_eq_true.
    by exists c0, c, rest.
  - intros (c0 & c & rest & -> & Hc).
    rewrite isLocallyAdministered_digit. by apply bool_decide_eq_true.
Qed.

(** X21.  For an address of ASCII characters the vendor does not depend on
    the case of its letters; it is Local exactly when the address is
    locally administered, whatever the table holds; and a vendor that is
    neither Local nor Unknown is an entry of the table under a prefix other
    than 52:54:00 and AA:BB:CC, the two prefixes of the table that are
    locally administered. *)
Theorem LookupVendor_result (bssid : string) :
  allChars isASCII bssid = true →
  LookupVendor (strings_ToUpper bssid) = LookupVendor bssid
  ∧ (LookupVendor bssid = "Local" ↔ isLocallyAdministered bssid = true)
  ∧ (LookupVendor bssid = "Local" ∨ LookupVendor bssid = "Unknown"
     ∨ ∃ k, (k ∉ ["52:54:00"; "AA:BB:CC"])
            ∧ k = substring 0 8 (strings_ToUpper bssid)
            ∧ ouiTable !! k = Some (LookupVendor bssid)).
Proof.
  intros _. split_and!.
  - unfold LookupVendor.
    by rewrite isLocallyAdministered_ToUpper, strings_ToUpper_idemp.
  - unfold LookupVendor.
    destruct (isLocallyAdministered bssid) eqn:E; [done|].
    split; [|done].
    destruct (String.length (strings_ToUpper bssid) <? 8)%nat; [done|].
    destruct (ouiTable !! substring 0 8 (strings_ToUpper bssid))
      as [v|] eqn:Ev; [|done].
    intros ->. by apply ouiTable_no_Local in Ev.
  - unfold LookupVendor.
    destruct (isLocallyAdministered bssid) eqn:E; [by left|].
    destruct (String.length (strings_ToUpper bssid) <? 8)%nat;
      [by right; left|].
    destruct (ouiTable !! substring 0 8 (strings_ToUpper bssid))
      as [v|] eqn:Ev; [|by right; left].
    right; right. eexists. split_and!; [|done|exact Ev].
    rewrite <- isLocallyAdministered_ToUpper,
      <- isLocallyAdministered_prefix in E.
    clear Ev. set (k := substring 0 8 (strings_ToUpper bssid)) in *.
    clearbody k.
    intros [->|[->|[]%elem_of_nil]%elem_of_cons]%elem_of_cons;
      vm_compute in E; discriminate E.
Qed.

Lemma LookupVendor_result_witness :
  LookupVendor (strings_ToUpper "a4:83:e7:12:34:56")
  = LookupVendor "a4:83:e7:12:34:56"
  ∧ (LookupVendor "a4:83:e7:12:34:56" = "Local"
     ↔ isLocallyAdministered "a4:83:e7:12:34:56" = true)
  ∧ (LookupVendor "a4:83:e7:12:34:56" = "Local"
     ∨ LookupVendor "a4:83:e7:12:34:56" = "Unknown"
     ∨ ∃ k, (k ∉ ["52:54:00"; "AA:BB:CC"])
            ∧ k = substring 0 8 (strings_ToUpper "a4:83:e7:12:34:56")
            ∧ ouiTable !! k = Some (LookupVendor "a4:83:e7:12:34:56")).
Proof.
  apply (LookupVendor_result "a4:83:e7:12:34:56").
  vm_compute. reflexivity.
Defined.

(** X22.  For the address of a record of the parser, which is in upper
    case and 17 characters long, the vendor is Local when the address is
    locally administered and otherwise the entry of the table under its
    first 8 characters, Unknown when there is none. *)
Theorem parsed_vendor (clock : nat → Z) (output : string) :
  Forall (fun n =>
            LookupVendor (BSSID n)
            = if isLocallyAdministered (BSSID n) then "Local"
              else default "Unknown" (ouiTable !! substring 0 8 (BSSID n)))
    (parseScanOutput clock output).
Proof.
  apply parseScanOutput_Forall. intros now block n Hn.
  apply parseBlock_Some in Hn as (m & rest & _ & Hlen & _ & ->).
  unfold LookupVendor. rewrite strings_ToUpper_idemp.
  destruct (isLocallyAdministered (strings_ToUpper m)); [done|].
  rewrite strings_ToUpper_length, Hlen. cbn.
  by destruct (ouiTable !! substring 0 8 (strings_ToUpper m)).
Qed.

End VendorExtras.

(** * From a scan to the marks of the interface *)

Section Pipeline.

Lemma filter_all {X} (P : X → Prop) `{!∀ x, Decision (P x)} (l : list X) :
  Forall P l → filter P l = l.
Proof.
  induction 1 as [|x l Hx _ IH]; [done|].
  by rewrite filter_cons_True, IH.
Qed.

Lemma first_appearances_distinct l :
  NoDup l → first_appearances l = l.
Proof.
  induction 1 as [|a l Ha _ IH]; cbn [first_appearances]; [done|].
  rewrite IH, filter_all; [done|].
  apply Forall_forall. intros b Hb ->. done.
Qed.

Lemma track_distinct now batch : ∀ o n,
  NoDup (BSSID <$> batch) → n ∈ batch →
  track now (BSSID n) o batch = Some (touch now o n).
Proof.
  induction batch as [|x l IH]; intros o n Hnd Hin.
  { by apply elem_of_nil in Hin. }
  rewrite fmap_cons in Hnd. apply NoDup_cons in Hnd as [Hx Hnd].
  apply elem_of_cons in Hin as [->|Hin].
  - change (track now (BSSID x) o (x :: l))
      with (track now (BSSID x)
              (if decide (BSSID x = BSSID x)
               then Some (touch now o x) else o) l).
    rewrite decide_True by done.
    apply track_absent. by apply signals_for_nil.
  - change (track now (BSSID n) o (x :: l))
      with (track now (BSSID n)
              (if decide (BSSID x = BSSID n)
               then Some (touch now o x) else o) l).
    rewrite decide_False; [by apply IH|].
    intros E. apply Hx. rewrite E. apply list_elem_of_fmap. by exists n.
Qed.

Lemma Update_distinct now batch :
  NoDup (BSSID <$> batch) →
  (Update NewSession now batch).2 = BSSID <$> batch
  ∧ Forall (fun n =>
              Get (Update NewSession now batch).1 (BSSID n)
              = Some (mkNetworkState (BSSID n) now now [Signal n]
                        (Signal n) (Signal n))) batch.
Proof.
  intros Hnd. split.
  - rewrite Update_snd, first_appearances_distinct by done.
    apply filter_all, Forall_forall. intros a _.
    unfold Get. cbn. apply lookup_empty.
  - apply Forall_forall. intros n Hn.
    rewrite Get_Update, (track_distinct now batch _ n Hnd Hn).
    unfold Get. cbn [states NewSession]. rewrite lookup_empty.
    unfold touch. cbn. rewrite !decide_False by lia. done.
Qed.

(** X23.  A first batch whose addresses are distinct: the update reports
    every address of the batch as newly discovered, in the order of the
    batch, and the state of each one has both times at the reading of the
    clock, the one reading as its history and as both of its extremes. *)
Theorem Update_first_batch (now : Z) (batch : list Network) :
  NoDup (BSSID <$> batch) →
  (Update NewSession now batch).2 = BSSID <$> batch
  ∧ Forall (fun n =>
              Get (Update NewSession now batch).1 (BSSID n)
              = Some (mkNetworkState (BSSID n) now now [Signal n]
                        (Signal n) (Signal n))) batch.
Proof. apply Update_distinct. Qed.

Lemma Update_first_batch_witness :
  (Update NewSession 1
     [sighting "AA:BB:CC:DD:EE:FF" (-40); sighting "11:22:33:44:55:66" (-70)]).2
  = BSSID <$> [sighting "AA:BB:CC:DD:EE:FF" (-40);
               sighting "11:22:33:44:55:66" (-70)]
  ∧ Forall (fun n =>
              Get (Update NewSession 1
                     [sighting "AA:BB:CC:DD:EE:FF" (-40);
                      sighting "11:22:33:44:55:66" (-70)]).1 (BSSID n)
              = Some (mkNetworkState (BSSID n) 1 1 [Signal n]
                        (Signal n) (Signal n)))
      [sighting "AA:BB:CC:DD:EE:FF" (-40); sighting "11:22:33:44:55:66" (-70)].
Proof.
  apply (Update_first_batch 1
           [sighting "AA:BB:CC:DD:EE:FF" (-40);
            sighting "11:22:33:44:55:66" (-70)]).
  apply (bool_decide_unpack _). vm_compute. exact I.
Defined.

(** X24.  The first scan of the interface in demo mode, with the results of
    [rand.Intn] below its bounds: the scan succeeds whatever the scan
    commands would give, with 16 or 17 networks, all of them are tracked
    and marked as new at the reading of the clock of the interface, each
    with its one reading, and no alert is raised. *)
Theorem demo_first_scan (s : Scanner) (draw : nat → Z → Z) (clock : nat → Z)
    (active dump : option string) (tUpdate now : Z) :
  Demo s = true → in_bounds draw →
  ∃ nets,
    Scan s draw clock active dump = Some nets
    ∧ (16 <= length nets <= 17)%nat
    ∧ (doScan ui_New (Some nets) tUpdate now).2 = None
    ∧ app_networks (doScan ui_New (Some nets) tUpdate now).1 = nets
    ∧ Count (app_session (doScan ui_New (Some nets) tUpdate now).1)
      = length nets
    ∧ Forall (fun n =>
                app_newBSSIDs (doScan ui_New (Some nets) tUpdate now).1
                  !! BSSID n = Some now
                ∧ Get (app_session (doScan ui_New (Some nets) tUpdate now).1)
                    (BSSID n)
                  = Some (mkNetworkState (BSSID n) tUpdate tUpdate
                            [Signal n] (Signal n) (Signal n))) nets.
Proof.
  intros Hdemo Hb. exists (mockScan draw (clock 0%nat)).
  pose proof (mockScan_NoDup draw (clock 0%nat) Hb) as Hnd.
  pose proof (mockScan_length draw (clock 0%nat) Hb) as Hlen.
  destruct (Update_distinct tUpdate _ Hnd) as [Hnews Hstates].
  set (nets := mockScan draw (clock 0%nat)) in *.
  split_and!.
  - unfold Scan. by rewrite Hdemo.
  - rewrite Hlen. destruct (decide (draw 16%nat 10 < 3)); lia.
  - rewrite Hlen. destruct (decide (draw 16%nat 10 < 3)); lia.
  - apply doScan_no_alert_first.
  - by rewrite doScan_Some.
  - rewrite doScan_Some. cbn [fst app_session]. unfold Count.
    rewrite Update_size. cbn [ui_New app_session]. rewrite Hnews.
    cbn [NewSession states]. rewrite map_size_empty, length_fmap. lia.
  - apply Forall_forall. intros n Hn. split.
    + rewrite doScan_badge_lookup. cbn [ui_New app_session].
      rewrite Hnews, decide_True; [done|].
      apply list_elem_of_fmap. by exists n.
    + rewrite doScan_Some. cbn [fst app_session ui_New].
      by apply (proj1 (Forall_forall _ _) Hstates).
Qed.

Lemma demo_first_scan_witness :
  ∃ nets,
    Scan (mkScanner "wlan0" true) (fun _ _ => 0) (fun _ => 5) None None
    = Some nets
    ∧ (16 <= length nets <= 17)%nat
    ∧ (doScan ui_New (Some nets) 6 7).2 = None
    ∧ app_networks (doScan ui_New (Some nets) 6 7).1 = nets
    ∧ Count (app_session (doScan ui_New (Some nets) 6 7).1) = length nets
    ∧ Forall (fun n =>
                app_newBSSIDs (doScan ui_New (Some nets) 6 7).1 !! BSSID n
                = Some 7
                ∧ Get (app_session (doScan ui_New (Some nets) 6 7).1)
                    (BSSID n)
                  = Some (mkNetworkState (BSSID n) 6 6
                            [Signal n] (Signal n) (Signal n))) nets.
Proof.
  apply (demo_first_scan (mkScanner "wlan0" true) (fun _ _ => 0)
           (fun _ => 5) None None 6 7).
  - reflexivity.
  - intros k n Hn. lia.
Defined.

End Pipeline.

(** * Properties of the scanner set-up and of the colours *)

Section ScannerExtras.

Local Open Scope string_scope.





(** X26.  The colour of the label that the parser gives to a block: red
    exactly for OPEN, orange exactly for WEP and WPA, cyan exactly for
    WPA3, and green, the colour of every other string, exactly for WPA2
    and WPA2/WPA. *)
Theorem securityColor_of_label (block : string) :
  (securityColor (parseSecurity block) = colorRed
   ↔ parseSecurity block = "OPEN")
  ∧ (securityColor (parseSecurity block) = colorOrange
     ↔ parseSecurity block = "WEP" ∨ parseSecurity block = "WPA")
  ∧ (securityColor (parseSecurity block) = colorCyan
     ↔ parseSecurity block = "WPA3")
  ∧ (securityColor (parseSecurity block) = colorGreen
     ↔ parseSecurity block = "WPA2" ∨ parseSecurity block = "WPA2/WPA").
Proof.
  pose proof (parseSecurity_label block) as H. unfold securityLabels in H.
  repeat (apply elem_of_cons in H as [->|H]);
    [..|by apply elem_of_nil in H];
    split_and!;
    (split;
     [ intros Hc; vm_compute in Hc;
       first [ discriminate Hc | reflexivity
             | left; reflexivity | right; reflexivity ]
     | intros Hl;
       first [ discriminate Hl
             | destruct Hl as [Hl|Hl]; discriminate Hl
             | vm_compute; reflexivity ] ]).
Qed.

End ScannerExtras.
